(** * jrpc2: a shallow embedding of the client, the handler adapter and the
      metrics collector, with the properties stated about them.

    The definitions follow the layout of the repository:
    - [Go]       the few primitives of the language the code relies on
                 (int64 arithmetic, [strconv.FormatInt], [fmt.Sprintf],
                 run-time faults);
    - [json]     a model of the parts of [encoding/json] the code calls;
    - [code]     the error codes;
    - [metrics]  package [metrics] (metrics/metrics.go);
    - [jrpc2]    the error values (error.go) and the client (client.go);
    - [handler]  package [handler]: [Map], [ServiceMap], [newHandler], [Args],
                 [Obj];
    - [fixtures] concrete channels and memories, and the relations the
                 statements are written with;
    - [notions]  the vocabulary of the further properties.
    The properties follow, a module for each part: [MetricsSpec],
    [AssignerSpec], [HandlerSpec] with [WrapperCases], and [ClientSpec]
    with [ClientCases]; then the further properties: [MetricsMore],
    [ClientMore] with [ClientMoreCases], [AssignerMore], [HandlerMore] and
    [ErrorMore].

    Byte slices and strings are both [string] (a Go string is a byte
    sequence); Go maps are [gmap]s, a nil map being [None] where the code
    can meet one; a pointer to a struct that the code shares is an address
    in a heap.  Every method body that runs under a mutex is one atomic
    step. *)

From Stdlib Require Import ZArith Ascii String DecimalString DecimalZ DecimalPos.
From stdpp Require Import gmap strings list fin_maps sorting.

Local Open Scope Z_scope.

(* ===================================================================== *)
(** * Language primitives *)
(* ===================================================================== *)

Module Go.

(** A call returns, panics (nil map write, nil function call, index out
    of range, method call through a nil interface) or blocks for ever (a
    receive from an empty channel nobody will fill, a send to a full one). *)
Inductive outcome (A : Type) : Type :=
| Done (a : A)
| Panic
| Blocked.
Arguments Done {A} a.
Arguments Panic {A}.
Arguments Blocked {A}.

Definition bind {A B} (o : outcome A) (k : A → outcome B) : outcome B :=
  match o with
  | Done a => k a
  | Panic => Panic
  | Blocked => Blocked
  end.

(** [int64]: two's complement, arithmetic wraps around. *)
Definition min_int64 : Z := - 2 ^ 63.
Definition max_int64 : Z := 2 ^ 63 - 1.

Definition wrap64 (z : Z) : Z := (z + 2 ^ 63) mod 2 ^ 64 - 2 ^ 63.

Definition add64 (a b : Z) : Z := wrap64 (a + b).

Definition is_int64 (z : Z) : Prop := min_int64 <= z <= max_int64.

(** [strconv.FormatInt(z, 10)]. *)
Definition FormatInt (z : Z) : string :=
  NilZero.string_of_int (Z.to_int z).

(** [fmt.Sprintf] for the verbs the code uses ([%v %s %d %q %w]), over
    arguments already rendered as text; [%q] puts its argument between
    double quotes. *)
Definition dquote : ascii := "034"%char.

Definition is_verb (a : ascii) : bool :=
  bool_decide (a ∈ ["v"; "s"; "d"; "q"; "w"]%char).

Definition render (verb : ascii) (arg : string) : string :=
  if bool_decide (verb = "q"%char)
  then String dquote (arg +:+ String dquote EmptyString)
  else arg.

Fixpoint Sprintf (format : string) (args : list string) : string :=
  match format with
  | EmptyString => EmptyString
  | String a EmptyString => format
  | String a (String b rest as tl) =>
      if bool_decide (a = "%"%char) && is_verb b then
        match args with
        | arg :: args' => render b arg +:+ Sprintf rest args'
        | [] => "%!" +:+ String b ("(MISSING)" +:+ Sprintf rest [])
        end
      else String a (Sprintf tl args)
  end.

End Go.

Abbreviation Done := Go.Done.
Abbreviation Panic := Go.Panic.
Abbreviation Blocked := Go.Blocked.

(* ===================================================================== *)
(** * Package metrics *)
(* ===================================================================== *)

Module metrics.

(** The dynamic type of a label: any value, where the concrete type
    [func() interface{}] is told apart (type switch in [Snapshot]). *)
#[warnings="-register-all"]
Inductive any : Type :=
| Plain (v : string)
| Thunk (fn : unit → option any).

(** [type M struct { mu; counter; maxVal; label }].  The mutex makes every
    method body one atomic step, which is how the methods are written
    here.  A map field is [None] when it is nil (a zero [M]). *)
Record M : Type := mkM {
  counter : option (gmap string Z);
  maxVal  : option (gmap string Z);
  label   : option (gmap string any);
}.

(** [func New() *M] *)
Definition New : option M :=
  Some {| counter := Some ∅; maxVal := Some ∅; label := Some ∅ |}.

(** Reading [m[k]] of a possibly nil map. *)
Definition index {V} (m : option (gmap string V)) (k : string) : option V :=
  match m with
  | Some g => g !! k
  | None => None
  end.

(** The statement [m[k] = v]: panics on a nil map. *)
Definition assign {V} (m : option (gmap string V)) (k : string) (v : V)
  : Go.outcome (option (gmap string V)) :=
  match m with
  | Some g => Done (Some (<[k := v]> g))
  | None => Panic
  end.

(** [delete(m, k)]: a no-op on a nil map. *)
Definition remove {V} (m : option (gmap string V)) (k : string)
  : option (gmap string V) :=
  match m with
  | Some g => Some (delete k g)
  | None => None
  end.

(** [if old, ok := m.maxVal[name]; !ok || n > old { m.maxVal[name] = n }] *)
Definition raise_max (mv : option (gmap string Z)) (name : string) (n : Z)
  : Go.outcome (option (gmap string Z)) :=
  match index mv name with
  | Some old => if n >? old then assign mv name n else Done mv
  | None => assign mv name n
  end.

(** [m.counter[name] += n] *)
Definition bump (cn : option (gmap string Z)) (name : string) (n : Z)
  : Go.outcome (option (gmap string Z)) :=
  assign cn name (Go.add64 (default 0 (index cn name)) n).

(** [func (m *M) Count(name string, n int64)] *)
Definition Count (m : option M) (name : string) (n : Z)
  : Go.outcome (option M) :=
  match m with
  | Some s =>
      Go.bind (bump (counter s) name n) (λ c,
        Done (Some {| counter := c; maxVal := maxVal s; label := label s |}))
  | None => Done None
  end.

(** [func (m *M) SetMaxValue(name string, n int64)] *)
Definition SetMaxValue (m : option M) (name : string) (n : Z)
  : Go.outcome (option M) :=
  match m with
  | Some s =>
      Go.bind (raise_max (maxVal s) name n) (λ v,
        Done (Some {| counter := counter s; maxVal := v; label := label s |}))
  | None => Done None
  end.

(** [func (m *M) CountAndSetMax(name string, n int64)] *)
Definition CountAndSetMax (m : option M) (name : string) (n : Z)
  : Go.outcome (option M) :=
  match m with
  | Some s =>
      Go.bind (raise_max (maxVal s) name n) (λ v,
      Go.bind (bump (counter s) name n) (λ c,
        Done (Some {| counter := c; maxVal := v; label := label s |})))
  | None => Done None
  end.

(** The common tail of [SetLabel] and [EditLabel]. *)
Definition store_label (s : M) (name : string) (value : option any)
  : Go.outcome (option M) :=
  match value with
  | None =>
      Done (Some {| counter := counter s; maxVal := maxVal s;
                    label := remove (label s) name |})
  | Some v =>
      Go.bind (assign (label s) name v) (λ l,
        Done (Some {| counter := counter s; maxVal := maxVal s; label := l |}))
  end.

(** [func (m *M) SetLabel(name string, value interface{})] *)
Definition SetLabel (m : option M) (name : string) (value : option any)
  : Go.outcome (option M) :=
  match m with
  | Some s => store_label s name value
  | None => Done None
  end.

(** [func (m *M) EditLabel(name string, edit func(interface{}) interface{})];
    [edit] is [None] for a nil function value, whose call panics. *)
Definition EditLabel (m : option M) (name : string)
    (edit : option (option any → option any)) : Go.outcome (option M) :=
  match m with
  | Some s =>
      match edit with
      | Some f => store_label s name (f (index (label s) name))
      | None => Panic
      end
  | None => Done None
  end.

(** [for name, val := range src { dst[name] = val }] with [dst] non-nil:
    the keys of a map are distinct, so the iteration order is immaterial
    and the loop is the union that prefers [src]. *)
Definition copy_into {V} (src : option (gmap string V)) (dst : gmap string V)
  : gmap string V :=
  match src with
  | Some g => g ∪ dst
  | None => dst
  end.

(** The value recorded for a label. *)
Definition resolve (val : any) : option any :=
  match val with
  | Thunk fn => fn tt
  | Plain _ => Some val
  end.

Definition resolve_all (l : gmap string any) : gmap string (option any) :=
  resolve <$> l.

(** [type Snapshot struct { Counter; MaxValue; Label }]: three maps shared
    with the caller, each possibly nil.  The label loop stores an
    [interface{}], which is nil when a thunk returned nil; the label map
    holds [option any] for that. *)
Record Snap : Type := mkSnap {
  SCounter  : option (gmap string Z);
  SMaxValue : option (gmap string Z);
  SLabel    : option (gmap string (option any));
}.

(** [func (m *M) Snapshot(snap Snapshot)]: the collector is only read; the
    result is the contents of the caller's maps afterwards. *)
Definition Snapshot (m : option M) (snap : Snap) : Go.outcome Snap :=
  match m with
  | Some s =>
      Done {| SCounter := (λ c, copy_into (counter s) c) <$> SCounter snap;
              SMaxValue := (λ v, copy_into (maxVal s) v) <$> SMaxValue snap;
              SLabel := (λ v, copy_into (resolve_all <$> label s) v)
                          <$> SLabel snap |}
  | None => Done snap
  end.

End metrics.

(* ===================================================================== *)
(** * A model of encoding/json *)
(* ===================================================================== *)

Module json.

(** JSON documents.  Numbers are the integers: every number the code under
    study produces itself is one (request IDs, error codes).  An object
    keeps its members in source order, duplicates included. *)
#[warnings="-register-all"]
Inductive value : Type :=
| Null
| Bool (b : bool)
| Number (z : Z)
| Str (s : string)
| Array (elts : list value)
| Object (members : list (string * value)).

(** What the decoder reports. *)
Inductive err : Type :=
| SyntaxError
| UnmarshalTypeError (got : string) (want : string)
| InvalidUnmarshalError
| UnsupportedTypeError.

Definition dquote : ascii := Go.dquote.
Definition backslash : ascii := "092"%char.

Fixpoint escape (s : string) : string :=
  match s with
  | EmptyString => EmptyString
  | String a r =>
      if bool_decide (a = dquote ∨ a = backslash)
      then String backslash (String a (escape r))
      else String a (escape r)
  end.

(** A string literal; quotes and backslashes are escaped, other bytes are
    written as they are. *)
Definition quote (s : string) : string :=
  String dquote (escape s +:+ String dquote EmptyString).

Fixpoint join (sep : string) (parts : list string) : string :=
  match parts with
  | [] => EmptyString
  | [p] => p
  | p :: rest => p +:+ sep +:+ join sep rest
  end.

(** The compact text [json.Marshal] writes for a document. *)
Fixpoint encode (v : value) : string :=
  match v with
  | Null => "null"
  | Bool true => "true"
  | Bool false => "false"
  | Number z => Go.FormatInt z
  | Str s => quote s
  | Array elts => "[" +:+ join "," (map encode elts) +:+ "]"
  | Object members =>
      "{" +:+ join "," (map (λ kv, quote (fst kv) +:+ ":" +:+ encode (snd kv))
                            members) +:+ "}"
  end.

(** The argument of [json.Unmarshal]: a byte slice is represented by the
    document it spells, [None] when it is not well-formed JSON.  A
    [json.RawMessage] cut out of a well-formed document is a document. *)
Definition text : Type := option value.

Definition kind (v : value) : string :=
  match v with
  | Null => "null"
  | Bool _ => "bool"
  | Number _ => "number"
  | Str _ => "string"
  | Array _ => "array"
  | Object _ => "object"
  end.

(** [json.Unmarshal(data, &elts)] for [var elts []json.RawMessage]: an array
    gives its elements, [null] sets the slice to nil, anything else is a
    type error. *)
Definition Unmarshal_raw_slice (data : text) : err + list value :=
  match data with
  | None => inl SyntaxError
  | Some (Array elts) => inr elts
  | Some Null => inr []
  | Some v => inl (UnmarshalTypeError (kind v) "[]json.RawMessage")
  end.

(** A Go map built from the members of an object: a later duplicate
    replaces an earlier one. *)
Definition members_map (members : list (string * value)) : gmap string value :=
  foldl (λ m kv, <[fst kv := snd kv]> m) ∅ members.

(** [json.Unmarshal(data, &base)] for [var base map[string]json.RawMessage]:
    an object gives its members, [null] leaves the map nil (which ranges as
    the empty map), anything else is a type error. *)
Definition Unmarshal_raw_map (data : text) : err + gmap string value :=
  match data with
  | None => inl SyntaxError
  | Some (Object members) => inr (members_map members)
  | Some Null => inr ∅
  | Some v => inl (UnmarshalTypeError (kind v) "map[string]json.RawMessage")
  end.

Definition is_array (v : value) : bool :=
  match v with Array _ => true | _ => false end.
Definition is_object (v : value) : bool :=
  match v with Object _ => true | _ => false end.
Definition is_null (v : value) : bool :=
  match v with Null => true | _ => false end.

End json.

(* ===================================================================== *)
(** * Package code *)
(* ===================================================================== *)

Module code.

(** Modelled from the spec: package [code] is not under src/.  A code is
    an int32, here the integer it is written as; the code only compares
    and prints codes, so no arithmetic on them needs its wrap-around.  The
    spec gives the taxonomy: Parse, InvalidRequest, MethodNotFound,
    InvalidParams, Internal, the framework codes Cancelled,
    DeadlineExceeded and SystemError, and every other integer for
    applications.  [NoError] is the code of a nil error.  The spec gives
    the numbers of the five standard codes; those of the framework codes
    are the ones of the upstream package. *)
Definition Code : Type := Z.

#[global] Instance Code_eq_dec : EqDecision Code := Z.eq_dec.

Definition NoError : Code := -32099.
Definition ParseError : Code := -32700.
Definition InvalidRequest : Code := -32600.
Definition MethodNotFound : Code := -32601.
Definition InvalidParams : Code := -32602.
Definition InternalError : Code := -32603.
Definition Cancelled : Code := -32097.
Definition DeadlineExceeded : Code := -32096.
Definition SystemError : Code := -32098.

(** The number a code is written as. *)
Definition number (c : Code) : Z := c.

End code.

(* ===================================================================== *)
(** * Package jrpc2: errors (error.go) *)
(* ===================================================================== *)

Module jrpc2.

(** [type Error struct { Message; Code; Data }] *)
Record Error : Type := mkError {
  Message : string;
  Code : code.Code;
  Data : string;
}.

(** Values of the interface type [error] that reach the code: the
    sentinels of the standard library and of this package, errors made on
    the spot, [*Error] values, decoder errors, and errors of collaborators
    (channel, context encoder, user functions), known by their text. *)
Inductive error : Type :=
| EOF
| Canceled
| DeadlineExceeded
| errServerStopped
| errClientStopped
| ErrConnClosed
| New (msg : string)
| Wrap (msg : string) (inner : error)
| RPC (e : Error)
| JSON (e : json.err)
| Foreign (msg : string).

#[global] Instance Error_eq_dec : EqDecision Error.
Proof. solve_decision. Defined.
#[global] Instance json_err_eq_dec : EqDecision json.err.
Proof. solve_decision. Defined.
#[global] Instance error_eq_dec : EqDecision error.
Proof. solve_decision. Defined.

(** [func (e Error) Error() string] *)
Definition Error_text (e : Error) : string :=
  Go.Sprintf "[%d] %s" [Go.FormatInt (code.number (Code e)); Message e].

Definition json_err_text (e : json.err) : string :=
  match e with
  | json.SyntaxError => "invalid character"
  | json.UnmarshalTypeError got want =>
      Go.Sprintf "json: cannot unmarshal %s into Go value of type %s" [got; want]
  | json.InvalidUnmarshalError => "json: Unmarshal(non-pointer)"
  | json.UnsupportedTypeError => "json: unsupported type"
  end.

(** The method [Error()] of an error value. *)
Definition text (e : error) : string :=
  match e with
  | EOF => "EOF"
  | Canceled => "context canceled"
  | DeadlineExceeded => "context deadline exceeded"
  | errServerStopped => "the server has been stopped"
  | errClientStopped => "the client has been stopped"
  | ErrConnClosed => "client connection is closed"
  | New msg => msg
  | Wrap msg _ => msg
  | RPC e => Error_text e
  | JSON e => json_err_text e
  | Foreign msg => msg
  end.

(** [fmt.Errorf(format, ..., err)] with [%v] for the error. *)
Definition Errorf_v (format : string) (args : list string) (e : error) : error :=
  New (Go.Sprintf format (args ++ [text e])).

(** [fmt.Errorf(format, ..., err)] with [%w] for the error. *)
Definition Errorf_w (format : string) (args : list string) (e : error) : error :=
  Wrap (Go.Sprintf format (args ++ [text e])) e.

(** [var errEmptyMethod], [errChannelClosed], [errEmptyBatch] *)
Definition errEmptyMethod : Error :=
  {| Code := code.InvalidRequest; Message := "empty method name"; Data := "" |}.
Definition errEmptyBatch : Error :=
  {| Code := code.InvalidRequest; Message := "empty request batch"; Data := "" |}.

(** [func Errorf(code code.Code, msg string, args ...interface{}) *Error] *)
Definition Errorf (c : code.Code) (msg : string) (args : list string) : Error :=
  {| Code := c; Message := Go.Sprintf msg args; Data := "" |}.

(** Modelled from the spec: [code.FromError] is not under src/.  The spec
    has a cancelled context coded Cancelled, an expired one
    DeadlineExceeded, a coded error keep its code, and other failures
    SystemError. *)
Fixpoint code_FromError (e : error) : code.Code :=
  match e with
  | Canceled => code.Cancelled
  | DeadlineExceeded => code.DeadlineExceeded
  | RPC e => Code e
  | Wrap _ inner => code_FromError inner
  | _ => code.SystemError
  end.

(** A Go result pair [(value, error)] with exactly one side set. *)
Inductive result (A : Type) : Type :=
| Ok (a : A)
| Err (e : error).
Arguments Ok {A} a.
Arguments Err {A} e.

(* ------------------------------------------------------------------- *)
(** ** Wire records

    The declarations are in a file that is not under src/; the fields are
    the ones the client reads and writes.  A [json.RawMessage] that is
    absent (an ID of a notification) is the empty string. *)
(* ------------------------------------------------------------------- *)

Definition Version : string := "2.0".

Record jrequest : Type := mkRequest {
  V : string;
  ID : string;
  M : string;
  P : string;
}.

Record jerror : Type := mkJerror {
  E_C : code.Code;
  E_M : string;
  E_D : string;
}.

Record jresponse : Type := mkResponse {
  rsp_V : string;
  rsp_ID : string;
  rsp_E : option jerror;
  rsp_R : string;
  rsp_M : string;
  rsp_P : string;
}.

(** [jerrorf(code, msg, args...)] *)
Definition jerrorf (c : code.Code) (msg : string) (args : list string) : jerror :=
  {| E_C := c; E_M := Go.Sprintf msg args; E_D := "" |}.

(** Modelled from the spec: [jerror.toError] is not under src/; the spec
    has the caller see the server's error with its code, message and data. *)
Definition toError (e : option jerror) : option Error :=
  match e with
  | Some j => Some {| Code := E_C j; Message := E_M j; Data := E_D j |}
  | None => None
  end.

(** The value handed over as [params interface{}], as far as the client
    looks at it: nil, or what [json.Marshal] makes of it. *)
Inductive params : Type :=
| NoParams
| Marshals (bits : string)
| Unmarshalable (e : error).

Definition json_Marshal (p : params) : result string :=
  match p with
  | NoParams => Ok "null"
  | Marshals bits => Ok bits
  | Unmarshalable e => Err e
  end.

(** A value whose encoding is the document [v]. *)
Definition of_value (v : json.value) : params := Marshals (json.encode v).

(** [func (e Error) ErrCode() code.Code] *)
Definition ErrCode (e : Error) : code.Code := Code e.

(** [func (e *Error) WithData(v interface{}) *Error]; the value [v] is
    looked at as the parameters of a request are: nil, or what
    [json.Marshal] makes of it. *)
Definition WithData (e : Error) (v : params) : Error :=
  match v with
  | NoParams => e
  | _ =>
      match json_Marshal v with
      | Ok data => {| Code := Code e; Message := Message e; Data := data |}
      | Err _ => e
      end
  end.

(* ------------------------------------------------------------------- *)
(** ** Pending responses

    [type Response struct { ch chan *jresponse; id string; cancel func();
    err *Error; result json.RawMessage }].  The channel has capacity 1.
    [ctx_err] is [Err()] of the context [newPending] derives for the
    request: [None] until it ends, through [cancel] or through the
    caller's context. *)
(* ------------------------------------------------------------------- *)

Inductive chan_state : Type :=
| Open (buffer : option jresponse)
| Closed.

Record Response : Type := mkPending {
  rch : chan_state;
  id : string;
  ctx_err : option error;
  r_err : option Error;
  r_result : string;
}.

(** [p.cancel()]: ends the context with [context.Canceled] unless it has
    ended already. *)
Definition cancel (p : Response) : Response :=
  {| rch := rch p; id := id p;
     ctx_err := Some (default Canceled (ctx_err p));
     r_err := r_err p; r_result := r_result p |}.

(** The caller's context ends with [e] (deadline, cancellation). *)
Definition ctx_done (e : error) (p : Response) : Response :=
  {| rch := rch p; id := id p;
     ctx_err := Some (default e (ctx_err p));
     r_err := r_err p; r_result := r_result p |}.

(** [p.ch <- msg] *)
Definition put (msg : jresponse) (p : Response) : Go.outcome Response :=
  match rch p with
  | Open None =>
      Done {| rch := Open (Some msg); id := id p; ctx_err := ctx_err p;
              r_err := r_err p; r_result := r_result p |}
  | Open (Some _) => Blocked
  | Closed => Panic
  end.

(** Modelled from the spec: [Response.wait] is not under src/.  It
    takes the response out of the channel, records error and result,
    closes the channel and releases the context; on a channel already
    closed it does nothing. *)
Definition wait (p : Response) : Go.outcome Response :=
  match rch p with
  | Open (Some raw) =>
      Done (cancel {| rch := Closed; id := id p; ctx_err := ctx_err p;
                      r_err := toError (rsp_E raw); r_result := rsp_R raw |})
  | Open None => Blocked
  | Closed => Done p
  end.

(** [func newPending(ctx, id) (context.Context, *Response)]; [parent] is
    [ctx.Err()], which the derived context inherits. *)
Definition newPending (parent : option error) (id : string) : Response :=
  {| rch := Open None; id := id; ctx_err := parent; r_err := None;
     r_result := "" |}.

(* ------------------------------------------------------------------- *)
(** ** The client (client.go) *)
(* ------------------------------------------------------------------- *)

(** The collaborators of a client: the channel, the contexts of its
    callers, the options, and the codecs of the wire records, which are not
    under src/.  [snote] is what [opts.handleNotification()] gives: it runs
    the handler of the caller, which may not return. *)
Record Env : Type := mkEnv {
  Chan : Type;
  chan_Send : Chan → string → Chan * option error;
  chan_Close : Chan → Chan;
  IsErrClosing : error → bool;
  Context : Type;
  Background : Context;
  ctx_Err : Context → option error;
  enctx : Context → string → option string → result string;
  snote : jresponse → Go.outcome bool;
  Marshal_reqs : list jrequest → result string;
  Unmarshal_rsps : string → result (list jresponse);
  fixID : string → string;
}.

Section Client.

Variable env : Env.

(** [type Client struct].  [channel] is the channel object the client
    was made with, which its reader shares; [ch] tells whether the field
    [c.ch] still refers to it (it is nil once the client has stopped).
    [pending] maps an ID to the address of its [Response] in [heap].
    [sends] lists the frames [Send] was called with, oldest first. *)
Record Client : Type := mkClient {
  allow1 : bool;
  allowC : bool;
  channel : Chan env;
  ch : bool;
  err : option error;
  pending : gmap string nat;
  nextID : Z;
  heap : list Response;
  sends : list string;
}.

Definition set_nextID (c : Client) (n : Z) : Client :=
  {| allow1 := allow1 c; allowC := allowC c; channel := channel c;
     ch := ch c; err := err c; pending := pending c; nextID := n;
     heap := heap c; sends := sends c |}.

Definition set_pending (c : Client) (m : gmap string nat) : Client :=
  {| allow1 := allow1 c; allowC := allowC c; channel := channel c;
     ch := ch c; err := err c; pending := m; nextID := nextID c;
     heap := heap c; sends := sends c |}.

Definition set_heap (c : Client) (h : list Response) : Client :=
  {| allow1 := allow1 c; allowC := allowC c; channel := channel c;
     ch := ch c; err := err c; pending := pending c; nextID := nextID c;
     heap := h; sends := sends c |}.

Definition sent (c : Client) (chn : Chan env) (b : string) : Client :=
  {| allow1 := allow1 c; allowC := allowC c; channel := chn;
     ch := ch c; err := err c; pending := pending c; nextID := nextID c;
     heap := heap c; sends := sends c ++ [b] |}.

Definition stopped (c : Client) (chn : Chan env) (h : list Response)
    (e : error) : Client :=
  {| allow1 := allow1 c; allowC := allowC c; channel := chn;
     ch := false; err := Some e; pending := pending c; nextID := nextID c;
     heap := h; sends := sends c |}.

(** [func NewClient(ch channel.Channel, opts *ClientOptions) *Client];
    the two flags are what the options give. *)
Definition NewClient (chn : Chan env) (v1 cancel_ok : bool) : Client :=
  {| allow1 := v1; allowC := cancel_ok; channel := chn; ch := true;
     err := None; pending := ∅; nextID := 1; heap := []; sends := [] |}.

(** [func (c *Client) versionOK(v string) bool] *)
Definition versionOK (c : Client) (v : string) : bool :=
  if bool_decide (v = "") then allow1 c else bool_decide (v = Version).

(** The test
    [len(pbits) == 0 || (pbits[0] != '[' && pbits[0] != '{' && string(pbits) != "null")] *)
Definition bad_params (pbits : string) : bool :=
  match pbits with
  | EmptyString => true
  | String b _ =>
      negb (bool_decide (b = "["%char)) && negb (bool_decide (b = "{"%char))
      && negb (bool_decide (pbits = "null"))
  end.

(** [func (c *Client) marshalParams(ctx, method, params) (json.RawMessage, error)] *)
Definition marshalParams (ctx : Context env) (method : string) (p : params)
  : result string :=
  match p with
  | NoParams => enctx env ctx method None
  | _ =>
      match json_Marshal p with
      | Err e => Err e
      | Ok pbits =>
          if bad_params pbits then
            Err (RPC (Errorf code.InvalidRequest
                        "invalid parameters: array or object required" []))
          else
            match enctx env ctx method (Some pbits) with
            | Err e => Err e
            | Ok bits => Ok bits
            end
      end
  end.

(** [func (c *Client) req(ctx, method, params) (req *jrequest, err error)] *)
Definition req (c : Client) (ctx : Context env) (method : string) (p : params)
  : Client * result jrequest :=
  match marshalParams ctx method p with
  | Err e => (c, Err e)
  | Ok bits =>
      let id := Go.FormatInt (nextID c) in
      (set_nextID c (Go.add64 (nextID c) 1),
       Ok {| V := Version; ID := id; M := method; P := bits |})
  end.

(** [func (c *Client) note(ctx, method, params) (req *jrequest, err error)] *)
Definition note (ctx : Context env) (method : string) (p : params)
  : result jrequest :=
  match marshalParams ctx method p with
  | Err e => Err e
  | Ok bits => Ok {| V := Version; ID := ""; M := method; P := bits |}
  end.

(** The first loop of [send]: the ID of the first request of the batch
    that is pending already. *)
Fixpoint duplicate (pend : gmap string nat) (reqs : list jrequest)
  : option string :=
  match reqs with
  | [] => None
  | r :: rest =>
      if negb (bool_decide (ID r = "")) && bool_decide (is_Some (pend !! ID r))
      then Some (ID r)
      else duplicate pend rest
  end.

(** The second loop of [send]: a pending response for every request that
    has an ID.  Each is allocated at the end of the heap; the watcher
    started for it is the step [waitComplete] below. *)
Fixpoint record_pending (c : Client) (parent : option error)
    (reqs : list jrequest) (pends : list nat) : Client * list nat :=
  match reqs with
  | [] => (c, pends)
  | r :: rest =>
      if negb (bool_decide (ID r = "")) then
        let p := length (heap c) in
        let c1 := set_heap c (heap c ++ [newPending parent (ID r)]) in
        let c2 := set_pending c1 (<[ID r := p]> (pending c1)) in
        record_pending c2 parent rest (pends ++ [p])
      else record_pending c parent rest pends
  end.

(** [func (c *Client) send(ctx, reqs jrequests) ([]*Response, error)] *)
Definition send (c : Client) (ctx : Context env) (reqs : list jrequest)
  : Go.outcome (Client * result (list nat)) :=
  if bool_decide (length reqs = 0%nat) then
    Done (c, Err (New "empty request batch"))
  else
    match err c with
    | Some e => Done (c, Err e)
    | None =>
        match duplicate (pending c) reqs with
        | Some dup =>
            Done (c, Err (New (Go.Sprintf "duplicate request ID %q" [dup])))
        | None =>
            match Marshal_reqs env reqs with
            | Err e =>
                Done (c, Err (Errorf_v "marshaling request failed: %v" [] e))
            | Ok b =>
                if ch c then
                  let (chn, failure) := chan_Send env (channel c) b in
                  let c1 := sent c chn b in
                  match failure with
                  | Some e => Done (c1, Err e)
                  | None =>
                      let (c2, pends) :=
                        record_pending c1 (ctx_Err env ctx) reqs [] in
                      Done (c2, Ok pends)
                  end
                else Panic
            end
        end
    end.

(** [func (c *Client) Notify(ctx, method, params) error] *)
Definition Notify (c : Client) (ctx : Context env) (method : string)
    (p : params) : Go.outcome (Client * option error) :=
  match note ctx method p with
  | Err e => Done (c, Some e)
  | Ok r =>
      Go.bind (send c ctx [r]) (λ cr,
        Done (fst cr, match snd cr with Err e => Some e | Ok _ => None end))
  end.

(** [p.ch <- msg] for the response at address [p]. *)
Definition heap_put (c : Client) (p : nat) (msg : jresponse)
  : Go.outcome Client :=
  match heap c !! p with
  | Some r => Go.bind (put msg r) (λ r', Done (set_heap c (<[p := r']> (heap c))))
  | None => Panic
  end.

(** [func (c *Client) deliver(rsp *jresponse)].  A response without an
    ID goes to the notification handler, which runs while the mutex is
    held; what it returns only decides whether a line is logged. *)
Definition deliver (c : Client) (rsp : jresponse) : Go.outcome Client :=
  let id := fixID env (rsp_ID rsp) in
  if bool_decide (id = "") then Go.bind (snote env rsp) (λ _, Done c)
  else
    match pending c !! id with
    | None => Done c
    | Some p =>
        let c1 := set_pending c (delete id (pending c)) in
        if negb (versionOK c (rsp_V rsp)) then
          heap_put c1 p
            {| rsp_V := ""; rsp_ID := rsp_ID rsp;
               rsp_E := Some (jerrorf code.InvalidRequest
                                "incorrect version marker %q" [rsp_V rsp]);
               rsp_R := ""; rsp_M := ""; rsp_P := "" |}
        else heap_put c1 p rsp
    end.

(** [func (c *Client) stop(err error)] *)
Definition stop (c : Client) (e : error) : Client :=
  if ch c then
    let chn := chan_Close env (channel c) in
    let h := foldr (λ p h, alter cancel p h) (heap c)
                   (snd <$> map_to_list (pending c)) in
    stopped c chn h e
  else c.

(** [for _, rsp := range in { c.deliver(rsp) }] *)
Fixpoint deliver_all (c : Client) (rsps : list jresponse) : Go.outcome Client :=
  match rsps with
  | [] => Done c
  | rsp :: rest => Go.bind (deliver c rsp) (λ c', deliver_all c' rest)
  end.

(** [func (c *Client) accept(ch channel.Receiver) error]; [recv] is what
    [ch.Recv()] returned. *)
Definition accept (c : Client) (recv : result string)
  : Go.outcome (Client * option error) :=
  let decoded :=
    match recv with
    | Ok bits => Unmarshal_rsps env bits
    | Err e => Err e
    end in
  match decoded with
  | Err e => Done (stop c e, Some e)
  | Ok rsps => Go.bind (deliver_all c rsps) (λ c', Done (c', None))
  end.

(** [func (c *Client) waitComplete(pctx, id, p)]: blocks until the
    context of [p] has ended; the deferred [cleanup] runs last. *)
Definition waitComplete (c : Client) (id : string) (p : nat)
  : Go.outcome Client :=
  match heap c !! p with
  | None => Panic
  | Some r =>
      match ctx_err r with
      | None => Blocked
      | Some cause =>
          if bool_decide (is_Some (pending c !! id)) then
            let c1 := set_pending c (delete id (pending c)) in
            Go.bind
              (heap_put c1 p
                 {| rsp_V := ""; rsp_ID := id;
                    rsp_E := Some (jerrorf (code_FromError cause) (text cause) []);
                    rsp_R := ""; rsp_M := ""; rsp_P := "" |})
              (λ c2,
                 if allowC c2 then
                   Go.bind (Notify c2 (Background env) "rpc.cancel"
                              (Marshals ("[" +:+ id +:+ "]")))
                           (λ cr, Done (fst cr))
                 else Done c2)
          else Done c
      end
  end.

(** [func (c *Client) Close() error].  Between [stop] and the test of
    [c.err] it waits for the reader to end; the reader's own [stop] finds
    the client stopped and changes nothing. *)
Definition Close (c : Client) : Client * option error :=
  let c1 := stop c errClientStopped in
  (c1,
   match err c1 with
   | Some e =>
       if bool_decide (e = EOF) || IsErrClosing env e
          || bool_decide (e = errClientStopped)
       then None else Some e
   | None => None
   end).

(** The part of [Call] up to the point where it blocks in [wait]:
    [req], then [send] of the one-request batch; the result is [rsp[0]]. *)
Definition Call_send (c : Client) (ctx : Context env) (method : string)
    (p : params) : Go.outcome (Client * result nat) :=
  match req c ctx method p with
  | (c1, Err e) => Done (c1, Err e)
  | (c1, Ok r) =>
      Go.bind (send c1 ctx [r]) (λ cr,
        match snd cr with
        | Err e => Done (fst cr, Err e)
        | Ok pends =>
            match pends with
            | p0 :: _ => Done (fst cr, Ok p0)
            | [] => Panic
            end
        end)
  end.

(** The [switch] that ends [Call], on [rsp[0].Error()]. *)
Definition Call_result (r : Response) : result Response :=
  match r_err r with
  | Some e =>
      if bool_decide (Code e = code.Cancelled) then Err Canceled
      else if bool_decide (Code e = code.DeadlineExceeded)
      then Err DeadlineExceeded
      else Err (RPC e)
  | None => Ok r
  end.

(** The rest of [Call]: [rsp[0].wait()] and the switch. *)
Definition Call_wait (c : Client) (p : nat)
  : Go.outcome (Client * result Response) :=
  match heap c !! p with
  | None => Panic
  | Some r =>
      Go.bind (wait r) (λ r',
        Done (set_heap c (<[p := r']> (heap c)), Call_result r'))
  end.


(** [type Spec struct { Method string; Params interface{}; Notify bool }] *)
Record Spec : Type := mkSpec {
  Method : string;
  Params : params;
  IsNotify : bool;
}.

(** The first loop of [Batch]: one request per spec, in order; the first
    failure ends it. *)
Fixpoint Batch_reqs (c : Client) (ctx : Context env) (specs : list Spec)
  : Client * result (list jrequest) :=
  match specs with
  | [] => (c, Ok [])
  | sp :: rest =>
      let step :=
        if IsNotify sp
        then (c, note ctx (Method sp) (Params sp))
        else req c ctx (Method sp) (Params sp) in
      match step with
      | (c1, Err e) => (c1, Err e)
      | (c1, Ok r) =>
          match Batch_reqs c1 ctx rest with
          | (c2, Err e) => (c2, Err e)
          | (c2, Ok rs) => (c2, Ok (r :: rs))
          end
      end
  end.

(** [Batch] up to the point where it starts to wait. *)
Definition Batch_send (c : Client) (ctx : Context env) (specs : list Spec)
  : Go.outcome (Client * result (list nat)) :=
  match Batch_reqs c ctx specs with
  | (c1, Err e) => Done (c1, Err e)
  | (c1, Ok reqs) => send c1 ctx reqs
  end.

(** The last loop of [Batch]: [for _, rsp := range rsps { rsp.wait() }]. *)
Fixpoint Batch_wait (c : Client) (rsps : list nat) : Go.outcome Client :=
  match rsps with
  | [] => Done c
  | p :: rest =>
      match heap c !! p with
      | None => Panic
      | Some r =>
          Go.bind (wait r) (λ r',
            Batch_wait (set_heap c (<[p := r']> (heap c))) rest)
      end
  end.

(** *** The life of a client

    Every method body runs under the mutex of the client, so a run of the
    client is a sequence of the steps below, taken by its callers, its
    reader and its watchers, and by the contexts of its callers ending. *)

(** Steps that construct no request. *)
Inductive step (c : Client) : Client → Prop :=
| step_req_fails ctx method p e :
    snd (req c ctx method p) = Err e →
    step c (fst (req c ctx method p))
| step_send ctx reqs c' res :
    send c ctx reqs = Done (c', res) → step c c'
| step_accept recv c' failure :
    accept c recv = Done (c', failure) → step c c'
| step_waitComplete i p c' :
    waitComplete c i p = Done c' → step c c'
| step_ctx_done p e :
    step c (set_heap c (alter (ctx_done e) p (heap c)))
| step_wait p c' res :
    Call_wait c p = Done (c', res) → step c c'
| step_Close :
    step c (fst (Close c)).

(** [made c n]: the client [c] has been made by [NewClient] and has
    constructed [n] requests since. *)
Inductive made : Client → N → Prop :=
| made_new chn v1 cancel_ok :
    made (NewClient chn v1 cancel_ok) 0
| made_req c n ctx method p r :
    made c n →
    snd (req c ctx method p) = Ok r →
    made (fst (req c ctx method p)) (N.succ n)
| made_step c c' n :
    made c n → step c c' → made c' n.

End Client.

End jrpc2.

(* ===================================================================== *)
(** * Package handler (handler.go) *)
(* ===================================================================== *)

Module handler.

Import jrpc2.

(** Modelled from the spec: [jrpc2.Request] and its methods are not under
    src/.  The spec has a request expose its method name, its raw
    parameter bytes and a [HasParams] predicate; parameters that are absent
    are the empty byte string. *)
Record Request : Type := mkReq {
  method : string;
  req_params : string;
}.

Definition HasParams (r : Request) : bool :=
  negb (bool_decide (req_params r = "")).

(* ------------------------------------------------------------------- *)
(** ** Assigners *)
(* ------------------------------------------------------------------- *)

(** [strings.SplitN(s, sep, 2)] for a one-byte separator. *)
Fixpoint cut (sep : ascii) (s : string) : option (string * string) :=
  match s with
  | EmptyString => None
  | String a rest =>
      if bool_decide (a = sep) then Some (EmptyString, rest)
      else
        match cut sep rest with
        | Some (before, after) => Some (String a before, after)
        | None => None
        end
  end.

Definition SplitN2 (s : string) (sep : ascii) : list string :=
  match cut sep s with
  | Some (before, after) => [before; after]
  | None => [s]
  end.

Section Assigners.

(** [jrpc2.Handler] values; a nil handler is [None]. *)
Variable Handler : Type.

(** The interface [jrpc2.Assigner], by its method [Assign].  The context
    is passed along untouched and is left out. *)
Record Assigner : Type := mkAssigner {
  Assign : string → Go.outcome (option Handler);
}.

(** [type Map map[string]jrpc2.Handler]; a value of the map is [None]
    when it is the nil handler, which is also what [m[method]] gives for a
    key that is not in the map. *)
Definition Map_Assign (m : gmap string (option Handler)) (method : string)
  : Go.outcome (option Handler) :=
  Done (default None (m !! method)).

(** [type ServiceMap map[string]jrpc2.Assigner]; a value of the map is
    [None] when it is the nil interface. *)
Definition ServiceMap_Assign (m : gmap string (option Assigner))
    (method : string) : Go.outcome (option Handler) :=
  match SplitN2 method "."%char with
  | [_] => Done None
  | parts =>
      match parts !! 0%nat, parts !! 1%nat with
      | Some svc, Some rest =>
          match m !! svc with
          | Some (Some ass) => Assign ass rest
          | Some None => Panic
          | None => Done None
          end
      | _, _ => Panic
      end
  end.

(** [func (m Map) Assigner()] and [func (m ServiceMap) Assigner()]:
    the map itself, as an assigner. *)
Definition Map_Assigner (m : gmap string (option Handler)) : Assigner :=
  {| Assign := Map_Assign m |}.

Definition ServiceMap_Assigner (m : gmap string (option Assigner)) : Assigner :=
  {| Assign := ServiceMap_Assign m |}.

End Assigners.

(** The order of Go on strings, byte by byte, and [sort.Strings]: the
    names in increasing order.  Equal strings cannot be told apart, so the
    sorted list does not depend on the sorting algorithm. *)
Definition string_le (a b : string) : Prop := String.leb a b = true.

#[global] Instance string_le_dec : RelDecision string_le.
Proof. intros a b. unfold string_le. apply _. Defined.

Definition sort_Strings (l : list string) : list string :=
  merge_sort string_le l.

Section Naming.

Variable Handler : Type.

(** The interface [jrpc2.Assigner] with both its methods: the lookup
    above, and what [Names] returns. *)
Record Service : Type := mkService {
  assigner : Assigner Handler;
  Names : Go.outcome (list string);
}.

(** [func (m Map) Names() []string]; [order] is the order in which
    [range] visits the map. *)
Definition Map_Names
    (order : gmap string (option Handler) → list (string * option Handler))
    (m : gmap string (option Handler)) : list string :=
  sort_Strings (foldl (λ names entry, names ++ [fst entry]) [] (order m)).

(** The loops of [ServiceMap.Names]: the names of each service, in the
    order its assigner lists them, behind the name of the service and a
    dot. *)
Fixpoint ServiceMap_range (entries : list (string * option Service))
    (all : list string) : Go.outcome (list string) :=
  match entries with
  | [] => Done all
  | (svc, ass) :: rest =>
      match ass with
      | None => Panic
      | Some a =>
          Go.bind (Names a) (λ names,
            ServiceMap_range rest
              (foldl (λ all name, all ++ [svc +:+ "." +:+ name]) all names))
      end
  end.

(** [func (m ServiceMap) Names() []string] *)
Definition ServiceMap_Names
    (order : gmap string (option Service) → list (string * option Service))
    (m : gmap string (option Service)) : Go.outcome (list string) :=
  Go.bind (ServiceMap_range (order m) []) (λ all, Done (sort_Strings all)).

(** [func (m Map) Assigner()]: the map itself, as a service. *)
Definition Map_Service
    (order : gmap string (option Handler) → list (string * option Handler))
    (m : gmap string (option Handler)) : Service :=
  {| assigner := Map_Assigner Handler m; Names := Done (Map_Names order m) |}.

End Naming.

(* ------------------------------------------------------------------- *)
(** ** The adapter *)
(* ------------------------------------------------------------------- *)

(** [reflect.Type], as far as the adapter tells types apart: the three
    types it compares with ([reqType] is the pointer type [*jrpc2.Request]),
    the empty interface, other pointers, slices, and named types. *)
Inductive rtype : Type :=
| ctxType
| errType
| reqType
| anyType
| Ptr (elem : rtype)
| Slice (elem : rtype)
| Named (name : string).

#[global] Instance rtype_eq_dec : EqDecision rtype.
Proof. solve_decision. Defined.

(** [t.Kind() == reflect.Ptr] *)
Definition is_Ptr (t : rtype) : bool :=
  match t with
  | Ptr _ | reqType => true
  | _ => false
  end.

(** The type of a function: its name when it is a defined type (as
    [handler.Func] is), [None] for a function type literal; the parameters
    ahead of a variadic one, the element type of the variadic one if there
    is one, and the results. *)
Record FuncType : Type := mkFuncType {
  TypeName : option string;
  Params : list rtype;
  Rest : option rtype;
  Out : list rtype;
}.

#[global] Instance FuncType_eq_dec : EqDecision FuncType.
Proof. solve_decision. Defined.

(** [t.In(i)] ranges over [In t]: a variadic parameter [...X] is the last
    one and has the type [[]X]; [t.IsVariadic()]. *)
Definition In (ty : FuncType) : list rtype :=
  Params ty ++ match Rest ty with Some e => [Slice e] | None => [] end.

Definition Variadic (ty : FuncType) : bool :=
  match Rest ty with Some _ => true | None => false end.

(** [reflect.Value]s that travel between the adapter and the function it
    wraps: the context, the request, a nil interface, an error, a value of
    some type that stands for the parameters decoded into it, and the slice
    reflection packs variadic arguments into. *)
#[warnings="-register-all"]
Inductive rvalue : Type :=
| VCtx
| VReq (r : Request)
| VNil
| VErr (e : error)
| VData (t : rtype) (content : string)
| VSlice (elem : rtype) (elems : list rvalue).

Definition type_of (v : rvalue) : option rtype :=
  match v with
  | VCtx => Some ctxType
  | VReq _ => Some reqType
  | VNil => None
  | VErr _ => Some errType
  | VData t _ => Some t
  | VSlice e _ => Some (Slice e)
  end.

(** The argument [fn interface{}] of [New]: nil, a value that is not a
    function, or a function of some type. *)
Inductive fn_value : Type :=
| NilFn
| NotFunc
| Fn (ty : FuncType) (impl : list rvalue → list rvalue).

(** [type funcInfo struct] *)
Record funcInfo : Type := mkInfo {
  Type_ : FuncType;
  Argument : option rtype;
  IsVariadic : bool;
  Result : option rtype;
  ReportsError : bool;
}.

(** [func checkFunctionType(fn interface{}) (info *funcInfo, err error)];
    [reflect.TypeOf(nil)] is nil, and asking it for its kind faults. *)
Definition checkFunctionType (fn : fn_value) : Go.outcome (result funcInfo) :=
  match fn with
  | NilFn => Panic
  | NotFunc => Done (Err (New "not a function"))
  | Fn ty _ =>
      let np := length (In ty) in
      if bool_decide (np = 0 ∨ 2 < np)%nat then
        Done (Err (New "wrong number of parameters"))
      else
        let arg := if bool_decide (np = 2%nat) then In ty !! 1%nat else None in
        let var := if bool_decide (np = 2%nat) then Variadic ty else false in
        let no := length (Out ty) in
        if bool_decide (no < 1 ∨ 2 < no)%nat then
          Done (Err (New "wrong number of results"))
        else if negb (bool_decide (In ty !! 0%nat = Some ctxType)) then
          Done (Err (New "first parameter is not context.Context"))
        else if bool_decide (no = 2%nat)
                && negb (bool_decide (Out ty !! 1%nat = Some errType)) then
          Done (Err (New "result is not of type error"))
        else
          let reports := bool_decide (Out ty !! (no - 1)%nat = Some errType) in
          let res := if bool_decide (no = 2%nat) || negb reports
                     then Out ty !! 0%nat else None in
          Done (Ok {| Type_ := ty; Argument := arg; IsVariadic := var;
                      Result := res; ReportsError := reports |})
  end.

(** What a handler does when invoked: the calls it made to the wrapped
    function, oldest first, each with the arguments the function received,
    and the pair it returns. *)
Record reply : Type := mkReply {
  calls : list (list rvalue);
  value : rvalue;
  failure : option error;
}.

(** [type Func func(context.Context, *jrpc2.Request) (interface{}, error)] *)
Definition Func : Type := Request → Go.outcome reply.

Section Adapter.

(** Modelled from the spec: [Request.UnmarshalParams] is not under src/.
    It decodes the parameters of the request into a fresh value of the
    given type and reports what the decoder reports. *)
Variable UnmarshalParams : Request → rtype → result string.

(** The signature of [Handle], as a function type literal. *)
Definition handleType : FuncType :=
  {| TypeName := None; Params := [ctxType; reqType]; Rest := None;
     Out := [anyType; errType] |}.

(** [oerr.(error)] on a result that may be nil. *)
Definition as_error (v : rvalue) : Go.outcome (option error) :=
  match v with
  | VNil => Done None
  | VErr e => Done (Some e)
  | _ => Panic
  end.

(** [newinput], for the four shapes of the argument.  In both cases 3a and
    3b the parameters are decoded into [reflect.New(info.Argument)], a
    pointer to a fresh value of the argument type; case 3a passes that
    pointer on, case 3b what it points to. *)
Definition newinput (info : funcInfo) (r : Request) : result (list rvalue) :=
  match Argument info with
  | None =>
      if HasParams r
      then Err (RPC (Errorf code.InvalidParams "no parameters accepted" []))
      else Ok []
  | Some t =>
      if bool_decide (t = reqType) then Ok [VReq r]
      else
        match UnmarshalParams r t with
        | Err e =>
            Err (RPC (Errorf code.InvalidParams "invalid parameters: %v" [text e]))
        | Ok content =>
            if is_Ptr t then Ok [VData (Ptr t) content]
            else Ok [VData t content]
        end
  end.

(** [decodeOut], for the three shapes of the results. *)
Definition decodeOut (info : funcInfo) (vals : list rvalue)
  : Go.outcome (rvalue * option error) :=
  match Result info with
  | None =>
      match vals !! 0%nat with
      | Some oerr => Go.bind (as_error oerr) (λ e, Done (VNil, e))
      | None => Panic
      end
  | Some _ =>
      if negb (ReportsError info) then
        match vals !! 0%nat with
        | Some out => Done (out, None)
        | None => Panic
        end
      else
        match vals !! 0%nat, vals !! 1%nat with
        | Some out, Some oerr =>
            Go.bind (as_error oerr) (λ e,
              match e with
              | Some e' => Done (VNil, Some e')
              | None => Done (out, None)
              end)
        | _, _ => Panic
        end
  end.

(** A value can be passed for a parameter of type [t]. *)
Definition fits (v : rvalue) (t : rtype) : bool :=
  match type_of v with
  | Some t' => bool_decide (t' = t)
  | None => bool_decide (t = anyType)
  end.

Definition well_typed (args : list rvalue) (types : list rtype) : bool :=
  bool_decide (length args = length types)
  && forallb (λ vt, fits (fst vt) (snd vt)) (zip args types).

(** [f.Call(args)]: faults when the value is not a function or an argument
    does not have the type of its parameter; the arguments from the
    variadic position on are packed into a slice. *)
Definition reflect_Call (fn : fn_value) (args : list rvalue)
  : Go.outcome (list rvalue * list rvalue) :=
  match fn with
  | Fn ty impl =>
      match Rest ty with
      | None =>
          if well_typed args (Params ty) then Done (args, impl args) else Panic
      | Some e =>
          let n := length (Params ty) in
          let fixed := take n args in
          let rest := drop n args in
          if well_typed fixed (Params ty) && forallb (λ v, fits v e) rest
          then let packed := fixed ++ [VSlice e rest] in
               Done (packed, impl packed)
          else Panic
      end
  | _ => Panic
  end.

(** [f.CallSlice(args)]: for a variadic function only; the last argument
    is the slice itself. *)
Definition reflect_CallSlice (fn : fn_value) (args : list rvalue)
  : Go.outcome (list rvalue * list rvalue) :=
  match fn with
  | Fn ty impl =>
      if Variadic ty && well_typed args (In ty)
      then Done (args, impl args) else Panic
  | _ => Panic
  end.

(** The type assertion
    [fn.(func(context.Context, *jrpc2.Request) (interface{}, error))]: it
    holds for a value whose type is that literal; a value of a defined
    function type with the same signature, as a [handler.Func] is, fails
    it. *)
Definition as_handle (fn : fn_value) : option Func :=
  match fn with
  | Fn ty impl =>
      if bool_decide (ty = handleType) then
        Some (λ r,
                let vals := impl [VCtx; VReq r] in
                match vals !! 0%nat, vals !! 1%nat with
                | Some out, Some oerr =>
                    Go.bind (as_error oerr) (λ e,
                      Done {| calls := [[VCtx; VReq r]]; value := out;
                              failure := e |})
                | _, _ => Panic
                end)
      else None
  | _ => None
  end.

(** [func newHandler(fn interface{}) (Func, error)] *)
Definition newHandler (fn : fn_value) : Go.outcome (result Func) :=
  match fn with
  | NilFn => Done (Err (New "nil method"))
  | _ =>
      match as_handle fn with
      | Some f => Done (Ok f)
      | None =>
          Go.bind (checkFunctionType fn) (λ checked,
            match checked with
            | Err e => Done (Err e)
            | Ok info =>
                let call := if IsVariadic info then reflect_CallSlice
                            else reflect_Call in
                Done (Ok (λ r,
                  match newinput info r with
                  | Err ierr =>
                      Done {| calls := []; value := VNil;
                              failure := Some ierr |}
                  | Ok rest =>
                      let args := VCtx :: rest in
                      Go.bind (call fn args) (λ received_vals,
                      Go.bind (decodeOut info (snd received_vals)) (λ oe,
                        Done {| calls := [fst received_vals]; value := fst oe;
                                failure := snd oe |}))
                  end))
            end)
      end
  end.

(** [func New(fn interface{}) Func]: panics where [newHandler] reports an
    error. *)
Definition New (fn : fn_value) : Go.outcome Func :=
  Go.bind (newHandler fn) (λ made,
    match made with
    | Ok m => Done m
    | Err _ => Panic
    end).

End Adapter.

(* ------------------------------------------------------------------- *)
(** ** Positional and keyed wrappers *)
(* ------------------------------------------------------------------- *)

Section Wrappers.

(** The destinations a wrapper holds are pointers into the caller's
    memory.  [Unmarshal_into v d m] is [json.Unmarshal(v, d)] run on the
    memory [m]: the memory afterwards, and the error if there is one.
    [Marshal_of d m] is [json.Marshal] of the value [d] points to. *)
Variable Dest : Type.
Variable Mem : Type.
Variable Unmarshal_into : json.value → Dest → Mem → Mem * option error.
Variable Marshal_of : Dest → Mem → result json.value.

(** [json.Unmarshal(v, arg)] for an [arg interface{}] that may be nil. *)
Definition Unmarshal (v : json.value) (arg : option Dest) (m : Mem)
  : Mem * option error :=
  match arg with
  | Some d => Unmarshal_into v d m
  | None => (m, Some (JSON json.InvalidUnmarshalError))
  end.

(** The loop of [Args.UnmarshalJSON], from index [i] on. *)
Fixpoint Args_range (a : list (option Dest)) (i : nat) (elts : list json.value)
    (m : Mem) : Go.outcome (Mem * option error) :=
  match elts with
  | [] => Done (m, None)
  | elt :: rest =>
      match a !! i with
      | None => Panic
      | Some None => Args_range a (S i) rest m
      | Some (Some d) =>
          match Unmarshal_into elt d m with
          | (m', Some e) =>
              Done (m', Some (Errorf_w "decoding argument %d: %w"
                                [Go.FormatInt (Z.of_nat i + 1)] e))
          | (m', None) => Args_range a (S i) rest m'
          end
      end
  end.

(** [func (a Args) UnmarshalJSON(data []byte) error] *)
Definition Args_UnmarshalJSON (a : list (option Dest)) (data : json.text)
    (m : Mem) : Go.outcome (Mem * option error) :=
  match json.Unmarshal_raw_slice data with
  | inl e => Done (m, Some (Errorf_w "decoding args: %w" [] (JSON e)))
  | inr elts =>
      if negb (bool_decide (length elts = length a)) then
        Done (m, Some (jrpc2.New (Go.Sprintf "wrong number of args (got %d, want %d)"
                              [Go.FormatInt (Z.of_nat (length elts));
                               Go.FormatInt (Z.of_nat (length a))])))
      else Args_range a 0 elts m
  end.

(** [json.Marshal([]interface{}(a))]: the array of the elements'
    encodings, a nil element being [null]. *)
Fixpoint Marshal_elems (a : list (option Dest)) (m : Mem)
  : result (list json.value) :=
  match a with
  | [] => Ok []
  | d :: rest =>
      let first :=
        match d with
        | Some d' => Marshal_of d' m
        | None => Ok json.Null
        end in
      match first with
      | Err e => Err e
      | Ok v =>
          match Marshal_elems rest m with
          | Err e => Err e
          | Ok vs => Ok (v :: vs)
          end
      end
  end.

(** [func (a Args) MarshalJSON() (bits []byte, err error)] *)
Definition Args_MarshalJSON (a : list (option Dest)) (m : Mem) : result string :=
  if bool_decide (length a = 0%nat) then Ok "[]"
  else
    match Marshal_elems a m with
    | Err e => Err e
    | Ok vs => Ok (json.encode (json.Array vs))
    end.

(** The loop of [Obj.UnmarshalJSON] over the members of [base] in the
    order the run time picks. *)
Fixpoint Obj_range (o : gmap string (option Dest))
    (members : list (string * json.value)) (m : Mem) : Mem * option error :=
  match members with
  | [] => (m, None)
  | (key, val) :: rest =>
      match o !! key with
      | None => Obj_range o rest m
      | Some arg =>
          match Unmarshal val arg m with
          | (m', Some e) =>
              (m', Some (Errorf_v "decoding %q: %v" [key] e))
          | (m', None) => Obj_range o rest m'
          end
      end
  end.

(** [func (o Obj) UnmarshalJSON(data []byte) error]; [order] is the order
    in which [range] visits a map. *)
Definition Obj_UnmarshalJSON
    (order : gmap string json.value → list (string * json.value))
    (o : gmap string (option Dest)) (data : json.text) (m : Mem)
  : Mem * option error :=
  match json.Unmarshal_raw_map data with
  | inl e => (m, Some (Errorf_v "decoding object: %v" [] (JSON e)))
  | inr base => Obj_range o (order base) m
  end.

End Wrappers.

End handler.

(* ===================================================================== *)
(** * Concrete collaborators and vocabulary of the statements *)
(* ===================================================================== *)

Module fixtures.

Import jrpc2.

(** [sep] occurs in [s]. *)
Fixpoint occurs (sep : ascii) (s : string) : bool :=
  match s with
  | EmptyString => false
  | String a rest => bool_decide (a = sep) || occurs sep rest
  end.

Definition add_request : jrequest :=
  {| V := "2.0"; ID := "1"; M := "Add"; P := "[2,3]" |}.

(** The text of one request, members in the order of the record. *)
Definition request_text (r : jrequest) : string :=
  "{" +:+ json.quote "jsonrpc" +:+ ":" +:+ json.quote (V r)
  +:+ (if bool_decide (ID r = "") then "" else "," +:+ json.quote "id" +:+ ":" +:+ ID r)
  +:+ "," +:+ json.quote "method" +:+ ":" +:+ json.quote (M r)
  +:+ (if bool_decide (P r = "") then "" else "," +:+ json.quote "params" +:+ ":" +:+ P r)
  +:+ "}".

(** A batch of one request is written as the request, a longer one as an
    array. *)
Definition batch_text (reqs : list jrequest) : result string :=
  match reqs with
  | [r] => Ok (request_text r)
  | _ => Ok ("[" +:+ json.join "," (map request_text reqs) +:+ "]")
  end.

(** A client environment with default options ([EncodeContext] unset:
    parameters pass unchanged; [OnNotify] unset) over a channel that keeps
    the frames it was sent, and whose [Send] fails with [broken] when that
    is set. *)
Definition pipe (broken : option error) : Env :=
  {| Chan := list string;
     chan_Send := λ frames b,
       match broken with
       | Some e => (frames, Some e)
       | None => (frames ++ [b], None)
       end;
     chan_Close := λ frames, frames;
     IsErrClosing := λ e,
       bool_decide (e = Foreign "use of closed network connection");
     Context := unit;
     Background := tt;
     ctx_Err := λ _, None;
     enctx := λ _ _ p, Ok (default "" p);
     snote := λ _, Done false;
     Marshal_reqs := batch_text;
     Unmarshal_rsps := λ _, Err (JSON json.SyntaxError);
     fixID := λ i, if bool_decide (i = "null") then "" else i |}.

(** A client over [pipe None] with one call in flight, the request
    [sleep_request], whose context has ended with [cause] when that is
    set. *)
Definition sleep_request : jrequest :=
  {| V := "2.0"; ID := "1"; M := "Sleep"; P := "" |}.

Definition in_flight (cancel_ok : bool) (cause : option error)
  : Client (pipe None) :=
  mkClient (pipe None) false cancel_ok
    [request_text sleep_request] true None
    {[ "1" := 0%nat ]} 2
    [{| rch := Open None; id := "1"; ctx_err := cause;
        r_err := None; r_result := "" |}]
    [request_text sleep_request].

(** The result of the call in flight, and a notification of the server. *)
Definition result_five : jresponse :=
  {| rsp_V := "2.0"; rsp_ID := "1"; rsp_E := None; rsp_R := "5";
     rsp_M := ""; rsp_P := "" |}.

Definition progress_note : jresponse :=
  {| rsp_V := "2.0"; rsp_ID := ""; rsp_E := None; rsp_R := "";
     rsp_M := "progress"; rsp_P := "[50]" |}.




(** Memory for the wrappers: cells addressed by number, each of a fixed
    type (an [int], a [string] or a [chan int]); a cell takes a document
    of its type, and [null] leaves it as it is.  No document fits a
    channel, and [json.Marshal] refuses one. *)
Inductive cell : Type :=
| IntCell (z : Z)
| StrCell (s : string)
| ChanCell.

Definition store_cell (v : json.value) (d : nat) (m : list cell)
  : list cell * option error :=
  match m !! d, v with
  | Some _, json.Null => (m, None)
  | Some (IntCell _), json.Number z => (<[d := IntCell z]> m, None)
  | Some (StrCell _), json.Str s => (<[d := StrCell s]> m, None)
  | Some (IntCell _), _ =>
      (m, Some (JSON (json.UnmarshalTypeError (json.kind v) "int")))
  | Some (StrCell _), _ =>
      (m, Some (JSON (json.UnmarshalTypeError (json.kind v) "string")))
  | Some ChanCell, _ =>
      (m, Some (JSON (json.UnmarshalTypeError (json.kind v) "chan int")))
  | None, _ => (m, Some (JSON json.InvalidUnmarshalError))
  end.

Definition load_cell (d : nat) (m : list cell) : result json.value :=
  match m !! d with
  | Some (IntCell z) => Ok (json.Number z)
  | Some (StrCell s) => Ok (json.Str s)
  | Some ChanCell => Err (JSON json.UnsupportedTypeError)
  | None => Err (JSON json.UnsupportedTypeError)
  end.

Section Positional.

Variable Dest : Type.
Variable Mem : Type.
Variable Unmarshal_into : json.value → Dest → Mem → Mem * option error.

(** Element [i] unmarshals into destination [i], in order, a nil
    destination discarding its element; the memory is threaded through. *)
Inductive positional : list (option Dest) → list json.value → Mem → Mem → Prop :=
| positional_nil m :
    positional [] [] m m
| positional_discard a elt elts m m' :
    positional a elts m m' →
    positional (None :: a) (elt :: elts) m m'
| positional_store a d elt elts m m1 m' :
    Unmarshal_into elt d m = (m1, None) →
    positional a elts m1 m' →
    positional (Some d :: a) (elt :: elts) m m'.

(** For each key present in both the JSON and the mapping, the value
    unmarshals into the mapped destination; other keys are passed over. *)
Inductive keyed (o : gmap string (option Dest))
  : list (string * json.value) → Mem → Mem → Prop :=
| keyed_nil m :
    keyed o [] m m
| keyed_ignore key val rest m m' :
    o !! key = None →
    keyed o rest m m' →
    keyed o ((key, val) :: rest) m m'
| keyed_store key val d rest m m1 m' :
    o !! key = Some (Some d) →
    Unmarshal_into val d m = (m1, None) →
    keyed o rest m1 m' →
    keyed o ((key, val) :: rest) m m'.

End Positional.

End fixtures.

(* ===================================================================== *)
(** * Vocabulary of the further properties *)
(* ===================================================================== *)

Module notions.


Section ClientNotions.

Variable env : jrpc2.Env.

(** The state of a client is sound when every entry of its registry is
    under an ID that is not empty and points to a response whose channel is
    open and empty, no two entries point to the same response, and a client
    without a channel has an error recorded. *)
Definition sound (c : jrpc2.Client env) : Prop :=
  (∀ i p, jrpc2.pending env c !! i = Some p →
          i ≠ ""
          ∧ ∃ r, jrpc2.heap env c !! p = Some r
                 ∧ jrpc2.rch r = jrpc2.Open None)
  ∧ (∀ i j p, jrpc2.pending env c !! i = Some p →
              jrpc2.pending env c !! j = Some p → i = j)
  ∧ (jrpc2.ch env c = false → is_Some (jrpc2.err env c)).

(** The message the reader hands over for a response: the response, or
    an error in its place when its version marker is not accepted. *)
Definition handed (c : jrpc2.Client env) (rsp : jrpc2.jresponse)
  : jrpc2.jresponse :=
  if jrpc2.versionOK env c (jrpc2.rsp_V rsp) then rsp
  else {| jrpc2.rsp_V := ""; jrpc2.rsp_ID := jrpc2.rsp_ID rsp;
          jrpc2.rsp_E :=
            Some {| jrpc2.E_C := code.InvalidRequest;
                    jrpc2.E_M := Go.Sprintf "incorrect version marker %q"
                                            [jrpc2.rsp_V rsp];
                    jrpc2.E_D := "" |};
          jrpc2.rsp_R := ""; jrpc2.rsp_M := ""; jrpc2.rsp_P := "" |}.

End ClientNotions.

(** The function types the adapter takes: the context first, at most one
    parameter more, and one result, or two of which the second is an
    error. *)
Definition accepted (ty : handler.FuncType) : Prop :=
  (handler.In ty = [handler.ctxType]
   ∨ ∃ t, handler.In ty = [handler.ctxType; t])
  ∧ ∃ y, handler.Out ty = [y] ∨ handler.Out ty = [y; handler.errType].

(** The signature information of a function type that is taken. *)
Definition info_of (ty : handler.FuncType) : handler.funcInfo :=
  {| handler.Type_ := ty;
     handler.Argument := handler.In ty !! 1%nat;
     handler.IsVariadic := handler.Variadic ty;
     handler.Result :=
       if bool_decide (handler.Out ty = [handler.errType]) then None
       else handler.Out ty !! 0%nat;
     handler.ReportsError :=
       bool_decide (last (handler.Out ty) = Some handler.errType) |}.

(** The name a service map lists a method of a service under. *)
Definition dotted (svc name : string) : string := svc +:+ "." +:+ name.

(** The names an entry of a service map contributes to the list of the
    map: those its service lists, each behind the key and a dot. *)
Definition listed {Handler : Type}
    (entry : string * option (handler.Service Handler)) : list string :=
  match snd entry with
  | Some a =>
      match handler.Names Handler a with
      | Done names => dotted (fst entry) <$> names
      | _ => []
      end
  | None => []
  end.

(** The IDs of the requests of a batch that are not notifications, in the
    order of the batch. *)
Definition ids_of (reqs : list jrpc2.jrequest) : list string :=
  filter (λ i, i ≠ "") (jrpc2.ID <$> reqs).

End notions.

(* ===================================================================== *)
(** * Properties of the metrics collector *)
(* ===================================================================== *)

Module MetricsSpec.

Import metrics.

(** A collector made by [New] does record: the nil case below is not how
    every collector behaves. *)
Lemma Count_New name n :
  Count New name n
  = Done (Some {| counter := Some {[ name := Go.wrap64 n ]};
                  maxVal := Some ∅; label := Some ∅ |}).
Proof.
  unfold Count, New, bump, assign, index; simpl.
  rewrite lookup_empty; simpl. unfold Go.add64.
  by rewrite Z.add_0_l, insert_empty.
Qed.

(** A zero [M], whose maps are nil, faults on its first write. *)
Lemma Count_zero_M name n :
  Count (Some {| counter := None; maxVal := None; label := None |}) name n
  = Panic.
Proof. reflexivity. Qed.

(** C10.  Every method of the collector, called on a nil collector,
    returns without a fault and leaves everything as it was: the collector
    is still nil, the maps of the caller's snapshot are untouched, and the
    edit function is not called (a nil one would fault). *)
Theorem nil_collector_discards :
  ∀ (name : string) (n : Z) (value : option any)
    (edit : option (option any → option any)) (snap : Snap),
    Count None name n = Done None
    ∧ SetMaxValue None name n = Done None
    ∧ CountAndSetMax None name n = Done None
    ∧ SetLabel None name value = Done None
    ∧ EditLabel None name edit = Done None
    ∧ Snapshot None snap = Done snap.
Proof. intros. repeat split. Qed.

End MetricsSpec.

(* ===================================================================== *)
(** * Properties of the assigners *)
(* ===================================================================== *)

Module AssignerSpec.

Import handler fixtures.

Lemma cut_absent sep s : occurs sep s = false → cut sep s = None.
Proof.
  induction s as [|a s IH]; simpl; [done|].
  case_bool_decide; simpl; [done|].
  intros Hs. by rewrite IH.
Qed.

Lemma cut_first sep before after :
  occurs sep before = false →
  cut sep (before +:+ String sep after) = Some (before, after).
Proof.
  induction before as [|a s IH]; simpl.
  - intros _. by rewrite bool_decide_true.
  - case_bool_decide; simpl; [done|].
    intros Hs. by rewrite IH.
Qed.

Lemma SplitN2_absent sep s : occurs sep s = false → SplitN2 s sep = [s].
Proof. intros H. unfold SplitN2. by rewrite cut_absent. Qed.

Lemma SplitN2_first sep before after :
  occurs sep before = false →
  SplitN2 (before +:+ String sep after) sep = [before; after].
Proof. intros H. unfold SplitN2. by rewrite cut_first. Qed.

(** Every non-empty method name either has no separator or splits in one
    way at its first one: the two cases of the lookup cover all names. *)
Lemma cut_cases sep s :
  occurs sep s = false
  ∨ ∃ before after,
      s = before +:+ String sep after ∧ occurs sep before = false.
Proof.
  induction s as [|a s IH]; simpl; [by left|].
  case_bool_decide as Ha; simpl.
  - right. exists EmptyString, s. by subst.
  - destruct IH as [IH|(b & c & -> & Hb)]; [by left|].
    right. exists (String a b), c. split; [done|].
    simpl. by rewrite bool_decide_false.
Qed.

Section WithHandler.

Variable Handler : Type.

Lemma ServiceMap_Assign_nodot (m : gmap string (option (Assigner Handler)))
    (method : string) :
  occurs "." method = false →
  ServiceMap_Assign Handler m method = Done None.
Proof.
  intros H. unfold ServiceMap_Assign. by rewrite SplitN2_absent.
Qed.

Lemma ServiceMap_Assign_dot (m : gmap string (option (Assigner Handler)))
    (svc rest : string) :
  occurs "." svc = false →
  ServiceMap_Assign Handler m (svc +:+ String "." rest)
  = match m !! svc with
    | Some (Some ass) => Assign Handler ass rest
    | Some None => Panic
    | None => Done None
    end.
Proof.
  intros H. unfold ServiceMap_Assign. by rewrite SplitN2_first.
Qed.

(** C9.  Lookup in a [ServiceMap]: a name without a dot gets the nil
    handler; a name [svc.rest], [svc] running up to the first dot, gets
    what the assigner registered under exactly [svc] assigns to the whole
    of [rest], and the nil handler when nothing is registered under
    [svc].  So one dot is used up per level and a registered name that
    is only a prefix of [svc] does not match. *)
Theorem ServiceMap_Assign_spec
    (m : gmap string (option (Assigner Handler))) (method : string) :
  (occurs "." method = false →
     ServiceMap_Assign Handler m method = Done None)
  ∧ (∀ svc rest ass,
       occurs "." svc = false →
       method = svc +:+ String "." rest →
       m !! svc = Some (Some ass) →
       ServiceMap_Assign Handler m method = Assign Handler ass rest)
  ∧ (∀ svc rest,
       occurs "." svc = false →
       method = svc +:+ String "." rest →
       m !! svc = None →
       ServiceMap_Assign Handler m method = Done None).
Proof.
  split; [apply ServiceMap_Assign_nodot|].
  split.
  - intros svc rest ass Hsvc -> Hm.
    by rewrite ServiceMap_Assign_dot, Hm.
  - intros svc rest Hsvc -> Hm.
    by rewrite ServiceMap_Assign_dot, Hm.
Qed.

(** A nil interface registered under [svc] is no assigner: the call
    through it faults. *)
Lemma ServiceMap_Assign_nil (m : gmap string (option (Assigner Handler)))
    (svc rest : string) :
  occurs "." svc = false →
  m !! svc = Some None →
  ServiceMap_Assign Handler m (svc +:+ String "." rest) = Panic.
Proof. intros H Hm. by rewrite ServiceMap_Assign_dot, Hm. Qed.

(** Two levels: the outer map takes the first dot, the inner one the
    second. *)
Lemma ServiceMap_two_levels
    (outer : gmap string (option (Assigner Handler)))
    (inner : gmap string (option (Assigner Handler)))
    (leaf : gmap string (option Handler)) (a b name : string) :
  occurs "." a = false →
  occurs "." b = false →
  outer !! a = Some (Some (ServiceMap_Assigner Handler inner)) →
  inner !! b = Some (Some (Map_Assigner Handler leaf)) →
  ServiceMap_Assign Handler outer (a +:+ String "." (b +:+ String "." name))
  = Done (default None (leaf !! name)).
Proof.
  intros Ha Hb Ho Hi.
  rewrite ServiceMap_Assign_dot, Ho by done. simpl.
  by rewrite ServiceMap_Assign_dot, Hi.
Qed.

End WithHandler.

(** The services of the witness: [math] holds [add] and [sub]. *)
Lemma ServiceMap_Assign_spec_witness :
  let math : gmap string (option nat) :=
    {[ "add" := Some 1%nat; "sub" := Some 2%nat ]} in
  let m : gmap string (option (Assigner nat)) :=
    {[ "math" := Some (Map_Assigner nat math) ]} in
  ServiceMap_Assign nat m "math" = Done None
  ∧ ServiceMap_Assign nat m "math.add" = Done (Some 1%nat)
  ∧ ServiceMap_Assign nat m "mat.add" = Done None.
Proof.
  intros math m. split; [|split].
  - apply (proj1 (ServiceMap_Assign_spec nat m "math")). reflexivity.
  - apply (proj1 (proj2 (ServiceMap_Assign_spec nat m "math.add"))
             "math" "add" (Map_Assigner nat math)); reflexivity.
  - apply (proj2 (proj2 (ServiceMap_Assign_spec nat m "mat.add"))
             "mat" "add"); reflexivity.
Defined.

End AssignerSpec.

(* ===================================================================== *)
(** * Properties of the adapter and the wrappers *)
(* ===================================================================== *)

Module HandlerSpec.

Import jrpc2 handler fixtures.

(** ** The adapter *)

Section Adapter.

Variable UnmarshalParams : Request → rtype → result string.

(** A function whose only parameter is the context is not variadic. *)
Lemma context_only_type ty :
  In ty = [ctxType] → Params ty = [ctxType] ∧ Rest ty = None.
Proof.
  unfold In. destruct (Rest ty) as [e|].
  - intros H. apply (f_equal (@rev rtype)) in H.
    rewrite rev_app_distr in H. simpl in H. discriminate H.
  - by rewrite app_nil_r.
Qed.

Lemma context_only_info ty impl :
  In ty = [ctxType] →
  ∀ info, checkFunctionType (Fn ty impl) = Done (Ok info) →
          Argument info = None ∧ IsVariadic info = false.
Proof.
  intros Hin info. unfold checkFunctionType. rewrite Hin. simpl.
  repeat (case_bool_decide; simpl; try lia; try done);
    repeat (case_match; simpl; try done);
    by intros [= <-].
Qed.

(** C6.  A handler the adapter builds from a function of a context alone
    fails a request that carries parameters with InvalidParams, without
    calling the function; on a request without parameters it calls the
    function, once, with the context, and returns what the results of that
    call decode to. *)
Theorem context_only_handler ty impl f :
  In ty = [ctxType] →
  newHandler UnmarshalParams (Fn ty impl) = Done (Ok f) →
  ∃ info,
    checkFunctionType (Fn ty impl) = Done (Ok info)
    ∧ ∀ r,
        (HasParams r = true →
           f r = Done {| calls := []; value := VNil;
                         failure := Some (RPC {| Message := "no parameters accepted";
                                                 Code := code.InvalidParams;
                                                 Data := "" |}) |})
        ∧ (HasParams r = false →
             f r = Go.bind (decodeOut info (impl [VCtx])) (λ oe,
                     Done {| calls := [[VCtx]]; value := fst oe;
                             failure := snd oe |})).
Proof.
  intros Hin Hnew. unfold newHandler in Hnew.
  destruct (context_only_type ty Hin) as [Hparams Hrest].
  assert (as_handle (Fn ty impl) = None) as Hno.
  { unfold as_handle. rewrite bool_decide_false; [done|].
    intros ->. discriminate Hparams. }
  rewrite Hno in Hnew.
  destruct (checkFunctionType (Fn ty impl)) as [[info|e]| |] eqn:Hcheck;
    try done.
  simpl in Hnew. injection Hnew as <-. exists info. split; [done|].
  destruct (context_only_info ty impl Hin info Hcheck) as [Harg Hvar].
  intros r. unfold newinput. rewrite Harg, Hvar.
  split; intros Hp; rewrite Hp.
  - reflexivity.
  - unfold reflect_Call. rewrite Hrest, Hparams. reflexivity.
Qed.

End Adapter.

(** The witness: [func(context.Context) (int, error)] returning 42. *)
Lemma context_only_handler_witness :
  let up : Request → rtype → result string := λ _ _, Ok "" in
  let ty := {| TypeName := None; Params := [ctxType]; Rest := None; Out := [Named "int"; errType] |} in
  let impl : list rvalue → list rvalue := λ _, [VData (Named "int") "42"; VNil] in
  ∃ f, newHandler up (Fn ty impl) = Done (Ok f)
       ∧ f {| method := "answer"; req_params := "[1]" |}
         = Done {| calls := []; value := VNil;
                   failure := Some (RPC (Errorf code.InvalidParams
                                           "no parameters accepted" [])) |}
       ∧ f {| method := "answer"; req_params := "" |}
         = Done {| calls := [[VCtx]]; value := VData (Named "int") "42";
                   failure := None |}.
Proof.
  intros up ty impl. eexists. split; [reflexivity|].
  destruct (context_only_handler up ty impl _ eq_refl eq_refl)
    as (info & Hinfo & Hf).
  vm_compute in Hinfo. injection Hinfo as <-.
  split.
  - exact (proj1 (Hf {| method := "answer"; req_params := "[1]" |}) eq_refl).
  - exact (proj2 (Hf {| method := "answer"; req_params := "" |}) eq_refl).
Defined.

(** ** The positional wrapper *)

Section Wrappers.

Variable Dest : Type.
Variable Mem : Type.
Variable Unmarshal_into : json.value → Dest → Mem → Mem * option error.
Variable Marshal_of : Dest → Mem → result json.value.

Local Abbreviation Args_range := (Args_range Dest Mem Unmarshal_into).
Local Abbreviation Args_UnmarshalJSON := (Args_UnmarshalJSON Dest Mem Unmarshal_into).
Local Abbreviation Args_MarshalJSON := (Args_MarshalJSON Dest Mem Marshal_of).
Local Abbreviation Marshal_elems := (Marshal_elems Dest Mem Marshal_of).
Local Abbreviation Obj_range := (Obj_range Dest Mem Unmarshal_into).
Local Abbreviation Obj_UnmarshalJSON := (Obj_UnmarshalJSON Dest Mem Unmarshal_into).
Local Abbreviation positional := (positional Dest Mem Unmarshal_into).
Local Abbreviation keyed := (keyed Dest Mem Unmarshal_into).

Lemma shift_middle {A} (done : list A) (d : A) (todo : list A) :
  done ++ d :: todo = (done ++ [d]) ++ todo
  ∧ S (length done) = length (done ++ [d]).
Proof.
  split; [by rewrite <- app_assoc|].
  rewrite length_app. simpl. lia.
Qed.

(** The loop, started behind the destinations [done] it has dealt with,
    ends without an error exactly when the remaining elements unmarshal
    into the remaining destinations. *)
Lemma Args_range_positional elts :
  ∀ done a m m',
    length elts = length a →
    Args_range (done ++ a) (length done) elts m = Done (m', None)
    ↔ positional a elts m m'.
Proof.
  induction elts as [|elt elts IH]; intros done a m m' Hlen.
  - destruct a; [|done]. simpl. split.
    + intros [= <-]. constructor.
    + inversion 1. done.
  - destruct a as [|d a]; [done|]. simpl in Hlen.
    simpl. rewrite list_lookup_middle by done.
    destruct (shift_middle done d a) as [-> ->].
    destruct d as [d|].
    + destruct (Unmarshal_into elt d m) as [m1 [e|]] eqn:Hd.
      * split; [done|]. inversion 1; subst. congruence.
      * rewrite IH by lia. split.
        -- intros H. by eapply positional_store.
        -- inversion 1; subst. congruence.
    + rewrite IH by lia. split.
      * intros H. by constructor.
      * by inversion 1.
Qed.

(** The loop never indexes outside the destinations. *)
Lemma Args_range_returns elts :
  ∀ done a m,
    length elts = length a →
    ∃ m' e, Args_range (done ++ a) (length done) elts m = Done (m', e).
Proof.
  induction elts as [|elt elts IH]; intros done a m Hlen.
  - simpl. eauto.
  - destruct a as [|d a]; [done|]. simpl in Hlen.
    simpl. rewrite list_lookup_middle by done.
    destruct (shift_middle done d a) as [-> ->].
    destruct d as [d|].
    + destruct (Unmarshal_into elt d m) as [m1 [e|]]; [eauto|].
      apply IH. lia.
    + apply IH. lia.
Qed.

Lemma Args_UnmarshalJSON_returns a data m :
  ∃ m' e, Args_UnmarshalJSON a data m = Done (m', e).
Proof.
  unfold Args_UnmarshalJSON.
  destruct (json.Unmarshal_raw_slice data) as [e|elts]; [eauto|].
  case_bool_decide as Hlen; simpl; [|eauto].
  apply (Args_range_returns elts [] a m Hlen).
Qed.

Lemma Unmarshal_raw_slice_inr data elts :
  json.Unmarshal_raw_slice data = inr elts
  ↔ data = Some (json.Array elts) ∨ (data = Some json.Null ∧ elts = []).
Proof.
  unfold json.Unmarshal_raw_slice.
  destruct data as [[]|]; split; intros H; try done;
    try (destruct H as [H|[H1 H2]]; congruence);
    try (injection H as <-; auto).
Qed.

Lemma Args_UnmarshalJSON_ok a data m m' :
  Args_UnmarshalJSON a data m = Done (m', None)
  ↔ ∃ elts,
      (data = Some (json.Array elts) ∨ (data = Some json.Null ∧ elts = []))
      ∧ length elts = length a
      ∧ positional a elts m m'.
Proof.
  unfold Args_UnmarshalJSON.
  destruct (json.Unmarshal_raw_slice data) as [e|elts] eqn:Hdata.
  - split; [done|]. intros (elts & Hd & _).
    apply Unmarshal_raw_slice_inr in Hd. congruence.
  - case_bool_decide as Hlen; simpl.
    + rewrite (Args_range_positional elts [] a m m' Hlen). split.
      * intros H. exists elts. by rewrite <- Unmarshal_raw_slice_inr.
      * intros (elts' & Hd & _ & H).
        apply Unmarshal_raw_slice_inr in Hd. congruence.
    + split; [done|]. intros (elts' & Hd & Hl & _).
      apply Unmarshal_raw_slice_inr in Hd. congruence.
Qed.

Lemma Marshal_elems_length a m vs :
  Marshal_elems a m = Ok vs → length vs = length a.
Proof.
  revert vs. induction a as [|d a IH]; intros vs; simpl.
  - by intros [= <-].
  - destruct (match d with Some d' => Marshal_of d' m | None => Ok json.Null end);
      [|done].
    destruct (Marshal_elems a m) as [vs'|]; [|done].
    intros [= <-]. simpl. f_equal. by apply IH.
Qed.

(** Marshaling the elements gives the values of the elements, in order. *)
Lemma Marshal_elems_Ok m a :
  ∀ vs, Marshal_elems a m = Ok vs
        ↔ Forall2 (λ d v, match d with
                          | Some d' => Marshal_of d' m = Ok v
                          | None => v = json.Null
                          end) a vs.
Proof.
  induction a as [|d a IH]; intros vs; simpl.
  - split.
    + intros [= <-]. constructor.
    + by inversion 1.
  - split.
    + destruct d as [d'|].
      * destruct (Marshal_of d' m) as [v|] eqn:Hv; [|done].
        destruct (Marshal_elems a m) as [vs'|] eqn:Hvs; [|done].
        intros [= <-]. constructor; [done|]. by apply IH.
      * destruct (Marshal_elems a m) as [vs'|] eqn:Hvs; [|done].
        intros [= <-]. constructor; [done|]. by apply IH.
    + inversion 1 as [|? v ? vs' Hd Hrest]; subst.
      apply IH in Hrest. rewrite Hrest.
      destruct d as [d'|]; [by rewrite Hd|by subst].
Qed.

(** It fails with the error of the first element that does not marshal. *)
Lemma Marshal_elems_Err m a :
  ∀ e, Marshal_elems a m = Err e
       ↔ ∃ k d, a !! k = Some (Some d) ∧ Marshal_of d m = Err e
                ∧ ∀ j d', (j < k)%nat → a !! j = Some (Some d') →
                          ∃ v, Marshal_of d' m = Ok v.
Proof.
  induction a as [|x a IH]; intros e; simpl.
  - split; [done|]. by intros (k & d & Hk & _).
  - split.
    + destruct x as [d|].
      * destruct (Marshal_of d m) as [v|e'] eqn:Hv.
        -- destruct (Marshal_elems a m) as [vs|e'] eqn:Hvs; [done|].
           intros [= ->]. destruct (proj1 (IH e) eq_refl) as (k & d0 & Hk & He & Hj).
           exists (S k), d0. split; [done|]. split; [done|].
           intros [|j] d' Hlt Hd'; simpl in Hd'.
           ++ injection Hd' as <-. eauto.
           ++ apply (Hj j d'); [lia|done].
        -- intros [= ->]. exists 0%nat, d. split; [done|]. split; [done|].
           intros j d' Hlt. lia.
      * destruct (Marshal_elems a m) as [vs|e'] eqn:Hvs; [done|].
        intros [= ->]. destruct (proj1 (IH e) eq_refl) as (k & d0 & Hk & He & Hj).
        exists (S k), d0. split; [done|]. split; [done|].
        intros [|j] d' Hlt Hd'; simpl in Hd'; [done|].
        apply (Hj j d'); [lia|done].
    + intros ([|k] & d & Hk & He & Hj); simpl in Hk.
      * injection Hk as ->. by rewrite He.
      * assert (Marshal_elems a m = Err e) as ->.
        { apply IH. exists k, d. split; [done|]. split; [done|].
          intros j d' Hlt Hd'. apply (Hj (S j) d'); [lia|done]. }
        destruct x as [d0|]; [|done].
        destruct (Hj 0%nat d0) as [v ->]; [lia|done|done].
Qed.

(** C7, as the code has it.  Unmarshaling into an [Args] of length L
    never faults, and succeeds exactly when the JSON is an array of L
    elements that unmarshal, in order, into the destinations (a nil
    destination discarding its element), or L is 0 and the JSON is
    [null]; an array of another length is an error that leaves the
    memory alone.  Marshaling succeeds exactly when every element that is
    not nil marshals, and then gives the text of the array of the L
    values in order, [null] standing for a nil element; it fails exactly
    when some element does not marshal, with the error of the first such
    element; for L = 0 it gives the text [[]]. *)
Theorem Args_JSON_spec (a : list (option Dest)) (m : Mem) :
  (∀ data, ∃ m' e, Args_UnmarshalJSON a data m = Done (m', e))
  ∧ (∀ data m',
       Args_UnmarshalJSON a data m = Done (m', None)
       ↔ ∃ elts,
           (data = Some (json.Array elts)
            ∨ (data = Some json.Null ∧ elts = []))
           ∧ length elts = length a
           ∧ positional a elts m m')
  ∧ (∀ elts,
       length elts ≠ length a →
       ∃ e, Args_UnmarshalJSON a (Some (json.Array elts)) m = Done (m, Some e))
  ∧ (∀ bits,
       Args_MarshalJSON a m = Ok bits
       ↔ ∃ vs, Forall2 (λ d v, match d with
                               | Some d' => Marshal_of d' m = Ok v
                               | None => v = json.Null
                               end) a vs
               ∧ length vs = length a
               ∧ bits = json.encode (json.Array vs))
  ∧ (∀ e,
       Args_MarshalJSON a m = Err e
       ↔ ∃ k d, a !! k = Some (Some d) ∧ Marshal_of d m = Err e
                ∧ ∀ j d', (j < k)%nat → a !! j = Some (Some d') →
                          ∃ v, Marshal_of d' m = Ok v)
  ∧ (length a = 0%nat → Args_MarshalJSON a m = Ok "[]").
Proof.
  split; [intros; apply Args_UnmarshalJSON_returns|].
  split; [intros; apply Args_UnmarshalJSON_ok|].
  split; [|split; [|split]].
  - intros elts Hlen. unfold Args_UnmarshalJSON. simpl.
    rewrite bool_decide_false by done. simpl. eauto.
  - intros bits. unfold Args_MarshalJSON.
    case_bool_decide as Hlen.
    + destruct a; [|done]. split.
      * intros [= <-]. exists []. split; [constructor|done].
      * intros (vs & Hvs & _ & ->). by inversion Hvs.
    + split.
      * destruct (Marshal_elems a m) as [vs|] eqn:Hvs; [|done].
        intros [= <-]. exists vs. split; [by apply Marshal_elems_Ok|].
        split; [by eapply Marshal_elems_length|done].
      * intros (vs & Hvs & _ & ->). apply Marshal_elems_Ok in Hvs.
        by rewrite Hvs.
  - intros e. rewrite <- Marshal_elems_Err. unfold Args_MarshalJSON.
    case_bool_decide as Hlen.
    + by destruct a.
    + destruct (Marshal_elems a m) as [vs|e']; [done|].
      split; by intros [= ->].
  - intros Hlen. unfold Args_MarshalJSON. by rewrite bool_decide_true.
Qed.

(** ** The keyed wrapper *)

Lemma Obj_range_keyed o members :
  ∀ m m', Obj_range o members m = (m', None) ↔ keyed o members m m'.
Proof.
  induction members as [|[key val] rest IH]; intros m m'; simpl.
  - split.
    + intros [= <-]. constructor.
    + by inversion 1.
  - destruct (o !! key) as [arg|] eqn:Hkey.
    + destruct arg as [d|]; simpl.
      * destruct (Unmarshal_into val d m) as [m1 [e|]] eqn:Hd.
        -- split; [done|]. inversion 1; subst; congruence.
        -- rewrite IH. split.
           ++ intros H. by eapply keyed_store.
           ++ inversion 1; subst; congruence.
      * split; [done|]. inversion 1; subst; congruence.
    + rewrite IH. split.
      * intros H. by constructor.
      * inversion 1; subst; [done|congruence].
Qed.

Lemma Obj_range_ignored o members m :
  (∀ key val, (key, val) ∈ members → o !! key = None) →
  Obj_range o members m = (m, None).
Proof.
  induction members as [|[key val] rest IH]; intros H; simpl; [done|].
  rewrite (H key val) by apply list_elem_of_here.
  apply IH. intros k v Hin. apply (H k v). by apply list_elem_of_further.
Qed.

Lemma Unmarshal_raw_map_inr data base :
  json.Unmarshal_raw_map data = inr base
  ↔ (∃ members, data = Some (json.Object members)
                ∧ base = json.members_map members)
    ∨ (data = Some json.Null ∧ base = ∅).
Proof.
  unfold json.Unmarshal_raw_map.
  destruct data as [[]|]; split; intros H; try done;
    try (destruct H as [(? & ? & ?)|[H1 H2]]; congruence);
    try (injection H as <-; eauto).
Qed.

(** C8, as the code has it.  Whatever order the run time visits the map
    in, unmarshaling into an [Obj] succeeds exactly when the JSON is
    [null], or is an object and, for each key it shares with the [Obj],
    the value unmarshals into the mapped destination; keys of the JSON
    that the [Obj] does not have are passed over without an error. *)
Theorem Obj_UnmarshalJSON_spec
    (order : gmap string json.value → list (string * json.value))
    (o : gmap string (option Dest)) (m : Mem) :
  (∀ base, order base ≡ₚ map_to_list base) →
  (∀ data m',
     Obj_UnmarshalJSON order o data m = (m', None)
     ↔ (data = Some json.Null ∧ m' = m)
       ∨ ∃ members,
           data = Some (json.Object members)
           ∧ keyed o (order (json.members_map members)) m m')
  ∧ (∀ members,
       (∀ key, is_Some (json.members_map members !! key) → o !! key = None) →
       Obj_UnmarshalJSON order o (Some (json.Object members)) m = (m, None)).
Proof.
  intros Horder. split.
  - intros data m'. unfold Obj_UnmarshalJSON.
    destruct (json.Unmarshal_raw_map data) as [e|base] eqn:Hdata.
    + split; [done|].
      intros [[-> _]|(members & -> & _)]; discriminate Hdata.
    + apply Unmarshal_raw_map_inr in Hdata
        as [(members & -> & ->)|[-> ->]].
      * rewrite Obj_range_keyed. split.
        -- intros H. right. eauto.
        -- intros [[? _]|(members' & [= <-] & H)]; done.
      * assert (order ∅ = []) as ->.
        { apply Permutation_nil_r. by rewrite Horder, map_to_list_empty. }
        simpl. split.
        -- intros [= <-]. by left.
        -- intros [[_ ->]|(? & ? & _)]; done.
  - intros members Hnone. unfold Obj_UnmarshalJSON. simpl.
    apply Obj_range_ignored. intros key val Hin.
    apply Hnone. exists val.
    apply elem_of_map_to_list. by rewrite <- Horder.
Qed.

End Wrappers.

End HandlerSpec.

(* ===================================================================== *)
(** * The wrappers on concrete memory *)
(* ===================================================================== *)

Module WrapperCases.

Import jrpc2 handler fixtures.

(** C7, as stated, fails twice.  For L = 0, [null] is not an array, yet
    it unmarshals into the empty [Args]; and marshaling an [Args] that
    holds a channel produces no array, it fails. *)
Lemma Args_JSON_counterexample :
  ¬ (Args_UnmarshalJSON nat (list cell) store_cell [] (Some json.Null) []
       = Done ([], None)
     ↔ ∃ elts,
         Some json.Null = Some (json.Array elts)
         ∧ length elts = length (@nil (option nat))
         ∧ positional nat (list cell) store_cell [] elts [] [])
  ∧ ¬ (∃ vs, length vs = 1%nat
             ∧ Args_MarshalJSON nat (list cell) load_cell [Some 0%nat]
                 [ChanCell]
               = Ok (json.encode (json.Array vs)))
  ∧ Args_MarshalJSON nat (list cell) load_cell [Some 0%nat] [ChanCell]
    = Err (JSON json.UnsupportedTypeError).
Proof.
  split; [|split].
  - intros [Hsucc _].
    destruct (Hsucc eq_refl) as (elts & Harr & _). discriminate Harr.
  - intros (vs & _ & Hvs). discriminate Hvs.
  - reflexivity.
Qed.

(** Three positions, the middle one discarded; marshaled, the nil
    element is [null]; with a channel in the second cell marshaling
    fails. *)
Lemma Args_JSON_spec_witness :
  let a := [Some 0%nat; None; Some 1%nat] in
  let m := [IntCell 0; StrCell ""] in
  Args_UnmarshalJSON nat (list cell) store_cell a
    (Some (json.Array [json.Number 7; json.Bool true; json.Str "x"])) m
  = Done ([IntCell 7; StrCell "x"], None)
  ∧ (∃ e, Args_UnmarshalJSON nat (list cell) store_cell a
            (Some (json.Array [json.Number 1; json.Number 2])) m
          = Done (m, Some e))
  ∧ Args_MarshalJSON nat (list cell) load_cell a [IntCell 7; StrCell "x"]
    = Ok (json.encode (json.Array [json.Number 7; json.Null; json.Str "x"]))
  ∧ Args_MarshalJSON nat (list cell) load_cell a [IntCell 7; ChanCell]
    = Err (JSON json.UnsupportedTypeError).
Proof.
  intros a m.
  pose proof (HandlerSpec.Args_JSON_spec nat (list cell) store_cell load_cell a m)
    as (_ & Hok & Hlen & _).
  split; [|split; [|split]].
  - apply Hok. eexists. split; [by left|]. split; [reflexivity|].
    eapply positional_store; [reflexivity|].
    apply positional_discard.
    eapply positional_store; [reflexivity|].
    apply positional_nil.
  - apply Hlen. simpl. lia.
  - apply (proj1 (proj2 (proj2 (proj2
             (HandlerSpec.Args_JSON_spec nat (list cell) store_cell load_cell
                a [IntCell 7; StrCell "x"]))))).
    exists [json.Number 7; json.Null; json.Str "x"].
    split; [repeat constructor|]. split; reflexivity.
  - apply (proj1 (proj2 (proj2 (proj2 (proj2
             (HandlerSpec.Args_JSON_spec nat (list cell) store_cell load_cell
                a [IntCell 7; ChanCell])))))).
    exists 2%nat, 1%nat. split; [reflexivity|]. split; [reflexivity|].
    intros [|[|j]] d' Hlt Hd'; [|done|lia].
    injection Hd' as <-. eexists. reflexivity.
Defined.

(** C8, as stated, fails: [null] is not an object, yet it unmarshals into
    any [Obj]. *)
Lemma Obj_null_counterexample :
  ¬ (Obj_UnmarshalJSON nat (list cell) store_cell map_to_list
       {[ "x" := Some 0%nat ]} (Some json.Null) [IntCell 0]
       = ([IntCell 0], None)
     ↔ ∃ members,
         Some json.Null = Some (json.Object members)
         ∧ keyed nat (list cell) store_cell {[ "x" := Some 0%nat ]}
             (map_to_list (json.members_map members)) [IntCell 0] [IntCell 0]).
Proof.
  intros [Hsucc _].
  destruct (Hsucc eq_refl) as (members & Hobj & _). discriminate Hobj.
Qed.

(** One key of the JSON is mapped, the other is not. *)
Lemma Obj_UnmarshalJSON_spec_witness :
  let o : gmap string (option nat) := {[ "x" := Some 0%nat ]} in
  Obj_UnmarshalJSON nat (list cell) store_cell map_to_list o
    (Some (json.Object [("x", json.Number 5); ("y", json.Str "extra")]))
    [IntCell 0]
  = ([IntCell 5], None)
  ∧ Obj_UnmarshalJSON nat (list cell) store_cell map_to_list o
      (Some (json.Object [("y", json.Str "extra")])) [IntCell 0]
    = ([IntCell 0], None).
Proof.
  intros o.
  pose proof (HandlerSpec.Obj_UnmarshalJSON_spec nat (list cell) store_cell map_to_list o
                [IntCell 0] (λ base, reflexivity (map_to_list base)))
    as [Hok Hignore].
  split.
  - apply Hok. right. eexists. split; [reflexivity|].
    vm_compute (map_to_list _).
    repeat (first [ apply keyed_nil
                  | eapply keyed_store; [reflexivity|reflexivity|]
                  | apply keyed_ignore; [reflexivity|] ]).
  - apply Hignore. intros key [val Hkey].
    unfold json.members_map in Hkey. simpl in Hkey.
    apply lookup_insert_Some in Hkey as [[<- _]|[_ Hkey]]; [reflexivity|].
    by rewrite lookup_empty in Hkey.
Defined.

End WrapperCases.

(* ===================================================================== *)
(** * Properties of the client *)
(* ===================================================================== *)

Module ClientSpec.

Import jrpc2 fixtures.

Section WithEnv.

Variable env : Env.

Local Abbreviation Client := (Client env).
Local Abbreviation pending := (pending env).
Local Abbreviation heap := (heap env).
Local Abbreviation sends := (sends env).
Local Abbreviation channel := (channel env).
Local Abbreviation nextID := (nextID env).
Local Abbreviation send := (send env).
Local Abbreviation record_pending := (record_pending env).

(** *** The registry and [send] *)

Lemma duplicate_None pend reqs :
  duplicate pend reqs = None
  ↔ ∀ r, r ∈ reqs → ID r ≠ "" → pend !! ID r = None.
Proof.
  induction reqs as [|r reqs IH]; simpl.
  - split; [|done]. intros _ r Hr. by apply elem_of_nil in Hr.
  - split.
    + intros H r' Hr' Hid.
      destruct (negb (bool_decide (ID r = ""))
                && bool_decide (is_Some (pend !! ID r))) eqn:Hdup; [done|].
      apply elem_of_cons in Hr' as [->|Hr'].
      * apply andb_false_iff in Hdup as [Hdup|Hdup].
        -- apply negb_false_iff, bool_decide_eq_true in Hdup. done.
        -- apply bool_decide_eq_false in Hdup.
           by apply eq_None_not_Some.
      * by apply IH.
    + intros H.
      destruct (negb (bool_decide (ID r = ""))
                && bool_decide (is_Some (pend !! ID r))) eqn:Hdup.
      * apply andb_true_iff in Hdup as [Hne Hsome].
        apply negb_true_iff, bool_decide_eq_false in Hne.
        apply bool_decide_eq_true in Hsome.
        rewrite (H r) in Hsome; [by destruct Hsome| |done].
        apply list_elem_of_here.
      * apply IH. intros r' Hr'. apply H. by apply list_elem_of_further.
Qed.

Lemma duplicate_Some pend reqs r :
  r ∈ reqs → ID r ≠ "" → is_Some (pend !! ID r) →
  is_Some (duplicate pend reqs).
Proof.
  intros Hr Hid Hp.
  destruct (duplicate pend reqs) eqn:Hd; [done|].
  rewrite duplicate_None in Hd. rewrite (Hd r Hr Hid) in Hp.
  by destruct Hp.
Qed.

(** What the second loop of [send] leaves: only registry and heap
    change, the heap grows at its end, and the registry has an entry for
    exactly the IDs it had and the IDs of the batch. *)
Lemma record_pending_frame reqs :
  ∀ (c : Client) parent pends c' pends',
    record_pending c parent reqs pends = (c', pends') →
    sends c' = sends c ∧ channel c' = channel c
    ∧ nextID c' = nextID c ∧ err env c' = err env c ∧ ch env c' = ch env c
    ∧ (∃ fresh, heap c' = heap c ++ fresh)
    ∧ ∀ i, is_Some (pending c' !! i)
           ↔ is_Some (pending c !! i) ∨ (i ≠ "" ∧ ∃ r, r ∈ reqs ∧ ID r = i).
Proof.
  induction reqs as [|r reqs IH]; intros c parent pends c' pends' H; simpl in H.
  - injection H as <- <-. repeat split; try done.
    + exists []. by rewrite app_nil_r.
    + by left.
    + intros [?|(_ & r & Hr & _)]; [done|]. by apply elem_of_nil in Hr.
  - destruct (bool_decide (ID r = "")) eqn:Hid; simpl in H.
    + apply bool_decide_eq_true in Hid.
      apply IH in H as (? & ? & ? & ? & ? & ? & Hp).
      repeat split; try done.
      * intros Hi. apply Hp in Hi as [?|(? & r' & ? & ?)]; [by left|].
        right. split; [done|]. exists r'. split; [|done].
        by apply list_elem_of_further.
      * intros [?|(Hne & r' & Hr' & <-)]; apply Hp; [by left|].
        apply elem_of_cons in Hr' as [->|Hr']; [done|].
        right. eauto.
    + apply bool_decide_eq_false in Hid.
      apply IH in H as (-> & -> & -> & -> & -> & [fresh ->] & Hp). simpl.
      repeat split; try done.
      * eexists. by rewrite <- app_assoc.
      * intros Hi. apply Hp in Hi as [Hi|(? & r' & ? & ?)].
        -- simpl in Hi. apply lookup_insert_is_Some in Hi as [<-|[_ Hi]].
           ++ right. split; [done|]. exists r. split; [|done].
              apply list_elem_of_here.
           ++ by left.
        -- right. split; [done|]. exists r'. split; [|done].
           by apply list_elem_of_further.
      * intros Hi. apply Hp. simpl.
        destruct Hi as [Hi|(Hne & r' & Hr' & <-)].
        -- left. apply lookup_insert_is_Some.
           destruct (decide (ID r = i)); [by left|by right].
        -- apply elem_of_cons in Hr' as [->|Hr'].
           ++ left. apply lookup_insert_is_Some. by left.
           ++ right. eauto.
Qed.

(** Every way [send] has of returning an error leaves registry and heap
    as they were. *)
Lemma send_error_frame (c : Client) ctx reqs c' e :
  send c ctx reqs = Done (c', Err e) →
  pending c' = pending c ∧ heap c' = heap c ∧ nextID c' = nextID c.
Proof.
  unfold send. case_bool_decide; [by intros [= <- _]|].
  destruct (err env c); [by intros [= <- _]|].
  destruct (duplicate _ reqs); [by intros [= <- _]|].
  destruct (Marshal_reqs env reqs); [|by intros [= <- _]].
  destruct (ch env c); [|done].
  destruct (chan_Send env _ _) as [chn [e'|]]; [by intros [= <- _]|].
  by destruct (record_pending _ _ _ _).
Qed.

(** A change of the registry means the frame has been handed to the
    channel and [Send] has returned nil. *)
Lemma send_registers_after_Send (c : Client) ctx reqs c' res :
  send c ctx reqs = Done (c', res) →
  pending c' ≠ pending c →
  ∃ b chn, Marshal_reqs env reqs = Ok b
           ∧ chan_Send env (channel c) b = (chn, None)
           ∧ sends c' = sends c ++ [b].
Proof.
  unfold send. case_bool_decide; [by intros [= <- _]|].
  destruct (err env c); [by intros [= <- _]|].
  destruct (duplicate _ reqs); [by intros [= <- _]|].
  destruct (Marshal_reqs env reqs) as [b|]; [|by intros [= <- _]].
  destruct (ch env c); [|done].
  destruct (chan_Send env _ _) as [chn [e'|]] eqn:Hsend; [by intros [= <- _]|].
  destruct (record_pending _ _ _ _) as [c2 pends] eqn:Hrec.
  intros [= <- _] _. exists b, chn. repeat split; try done.
  by apply record_pending_frame in Hrec as (-> & _).
Qed.

(** C1.  When marshaling the batch fails, or [Send] fails, [send]
    returns the error with registry and heap as they were, so that no
    request of the batch has an entry; the registry changes only in a
    call in which [Send] has returned nil, and then every request with
    an ID has its entry. *)
Theorem send_failure_leaves_no_entry (c : Client) ctx reqs :
  reqs ≠ [] →
  err env c = None →
  duplicate (pending c) reqs = None →
  (∀ e, Marshal_reqs env reqs = Err e →
        ∃ e', send c ctx reqs = Done (c, Err e')
              ∧ ∀ r, r ∈ reqs → ID r ≠ "" → pending c !! ID r = None)
  ∧ (∀ b chn e,
       ch env c = true →
       Marshal_reqs env reqs = Ok b →
       chan_Send env (channel c) b = (chn, Some e) →
       ∃ c', send c ctx reqs = Done (c', Err e)
             ∧ pending c' = pending c ∧ heap c' = heap c
             ∧ ∀ r, r ∈ reqs → ID r ≠ "" → pending c' !! ID r = None)
  ∧ (∀ c' res,
       send c ctx reqs = Done (c', res) →
       pending c' ≠ pending c →
       ∃ b chn pends,
         Marshal_reqs env reqs = Ok b
         ∧ chan_Send env (channel c) b = (chn, None)
         ∧ res = Ok pends
         ∧ ∀ r, r ∈ reqs → ID r ≠ "" → is_Some (pending c' !! ID r)).
Proof.
  intros Hne Herr Hdup.
  pose proof (proj1 (duplicate_None _ _) Hdup) as Hfree.
  assert (bool_decide (length reqs = 0%nat) = false) as Hlen.
  { apply bool_decide_eq_false. by destruct reqs. }
  split; [|split].
  - intros e He. unfold send. rewrite Hlen, Herr, Hdup, He. eauto.
  - intros b chn e Hch Hb Hsend. unfold send.
    rewrite Hlen, Herr, Hdup, Hb, Hch, Hsend. eexists. split; [done|].
    simpl. repeat split; done.
  - intros c' res Hs Hchg.
    destruct (send_registers_after_Send c ctx reqs c' res Hs Hchg)
      as (b & chn & Hb & Hsend & _).
    unfold send in Hs. rewrite Hlen, Herr, Hdup, Hb in Hs.
    destruct (ch env c); [|done]. rewrite Hsend in Hs.
    destruct (record_pending _ _ _ _) as [c2 pends] eqn:Hrec.
    injection Hs as <- <-. exists b, chn, pends. repeat split; try done.
    intros r Hr Hid.
    apply record_pending_frame in Hrec as (_ & _ & _ & _ & _ & _ & Hp).
    apply Hp. right. eauto.
Qed.

(** *** ID allocation *)

Lemma wrap64_succ z : Go.wrap64 (Go.wrap64 z + 1) = Go.wrap64 (z + 1).
Proof.
  unfold Go.wrap64. f_equal.
  replace ((z + 2 ^ 63) mod 2 ^ 64 - 2 ^ 63 + 1 + 2 ^ 63)
    with ((z + 2 ^ 63) mod 2 ^ 64 + 1) by lia.
  replace (z + 1 + 2 ^ 63) with (z + 2 ^ 63 + 1) by lia.
  by rewrite Zplus_mod_idemp_l.
Qed.

Lemma wrap64_idem z : Go.wrap64 (Go.wrap64 z) = Go.wrap64 z.
Proof.
  unfold Go.wrap64. f_equal.
  replace ((z + 2 ^ 63) mod 2 ^ 64 - 2 ^ 63 + 2 ^ 63)
    with ((z + 2 ^ 63) mod 2 ^ 64) by lia.
  by rewrite Zmod_mod.
Qed.

Lemma wrap64_small z : Go.is_int64 z → Go.wrap64 z = z.
Proof.
  unfold Go.is_int64, Go.min_int64, Go.max_int64, Go.wrap64. intros H.
  rewrite Z.mod_small; lia.
Qed.

Lemma wrap64_nonzero z : 0 < z < 2 ^ 64 → Go.wrap64 z ≠ 0.
Proof.
  unfold Go.wrap64. intros Hz H.
  pose proof (Z.div_mod (z + 2 ^ 63) (2 ^ 64) ltac:(lia)) as Hdm.
  assert ((z + 2 ^ 63) mod 2 ^ 64 = 2 ^ 63) as Hm by lia.
  rewrite Hm in Hdm.
  assert (z = 2 ^ 64 * ((z + 2 ^ 63) / 2 ^ 64)) as Hq by lia.
  assert (0 < (z + 2 ^ 63) / 2 ^ 64 < 1); [|lia].
  split; [apply Z.div_str_pos; lia|].
  apply Z.div_lt_upper_bound; lia.
Qed.

Lemma wrap64_inj a b :
  Go.wrap64 a = Go.wrap64 b → - 2 ^ 64 < a - b < 2 ^ 64 → a = b.
Proof.
  unfold Go.wrap64. intros H Hd.
  pose proof (Z.div_mod (a + 2 ^ 63) (2 ^ 64) ltac:(lia)) as Ha.
  pose proof (Z.div_mod (b + 2 ^ 63) (2 ^ 64) ltac:(lia)) as Hb.
  assert ((a + 2 ^ 63) mod 2 ^ 64 = (b + 2 ^ 63) mod 2 ^ 64) as Hm by lia.
  rewrite Hm in Ha.
  change (2 ^ 64) with 18446744073709551616 in *.
  change (2 ^ 63) with 9223372036854775808 in *.
  lia.
Qed.

Lemma to_int_proper z :
  Z.to_int z ≠ Decimal.Pos Decimal.Nil ∧ Z.to_int z ≠ Decimal.Neg Decimal.Nil.
Proof.
  destruct z as [|p|p]; simpl; split; try done;
    intros [= H]; by apply Unsigned.to_uint_nonnil in H.
Qed.

(** [FormatInt] writes different numbers differently. *)
Lemma FormatInt_inj a b : Go.FormatInt a = Go.FormatInt b → a = b.
Proof.
  unfold Go.FormatInt. intros H.
  destruct (to_int_proper a) as [Ha1 Ha2], (to_int_proper b) as [Hb1 Hb2].
  pose proof (NilZero.isi _ Ha1 Ha2) as Hia.
  pose proof (NilZero.isi _ Hb1 Hb2) as Hib.
  rewrite H, Hib in Hia. injection Hia as Hab.
  by rewrite <- (DecimalZ.of_to a), <- (DecimalZ.of_to b), Hab.
Qed.

Lemma req_ok (c : Client) ctx method p bits :
  marshalParams env ctx method p = Ok bits →
  req env c ctx method p
  = (set_nextID env c (Go.wrap64 (nextID c + 1)),
     Ok {| V := Version; ID := Go.FormatInt (nextID c); M := method;
           P := bits |}).
Proof. intros H. unfold req. by rewrite H. Qed.

(** *** Steps that leave the counter alone *)

Lemma heap_put_nextID (c c' : Client) p msg :
  heap_put env c p msg = Done c' → nextID c' = nextID c.
Proof.
  unfold heap_put. destruct (heap c !! p) as [r|]; [|done].
  destruct (put msg r); [|done..]. by intros [= <-].
Qed.

Lemma deliver_nextID (c c' : Client) rsp :
  deliver env c rsp = Done c' → nextID c' = nextID c.
Proof.
  unfold deliver. case_bool_decide.
  { destruct (snote env rsp); [|done..]. by intros [= <-]. }
  destruct (pending c !! _); [|by intros [= <-]].
  destruct (negb _); intros Hput; by apply heap_put_nextID in Hput.
Qed.

Lemma deliver_all_nextID rsps :
  ∀ c c' : Client, deliver_all env c rsps = Done c' → nextID c' = nextID c.
Proof.
  induction rsps as [|rsp rsps IH]; intros c c'; simpl.
  - by intros [= <-].
  - destruct (deliver env c rsp) as [c1| |] eqn:Hd; [|done..]. simpl.
    intros H. apply IH in H. apply deliver_nextID in Hd. congruence.
Qed.

Lemma stop_nextID (c : Client) e : nextID (stop env c e) = nextID c.
Proof. unfold stop. by destruct (ch env c). Qed.

Lemma send_nextID (c c' : Client) ctx reqs res :
  send c ctx reqs = Done (c', res) → nextID c' = nextID c.
Proof.
  destruct res as [pends|e].
  - unfold send. case_bool_decide; [done|].
    destruct (err env c); [done|].
    destruct (duplicate _ reqs); [done|].
    destruct (Marshal_reqs env reqs); [|done].
    destruct (ch env c); [|done].
    destruct (chan_Send env _ _) as [chn [e'|]]; [done|].
    destruct (record_pending _ _ _ _) as [c2 pends2] eqn:Hrec.
    intros [= <- _].
    by apply record_pending_frame in Hrec as (_ & _ & -> & _).
  - intros H. by apply send_error_frame in H as (_ & _ & ->).
Qed.

Lemma Notify_nextID (c c' : Client) ctx method p oe :
  Notify env c ctx method p = Done (c', oe) → nextID c' = nextID c.
Proof.
  unfold Notify. destruct (note env ctx method p); [|by intros [= <- _]].
  destruct (send c ctx _) as [[c1 res]| |] eqn:Hs; [|done..]. simpl.
  intros [= <- _]. by apply send_nextID in Hs.
Qed.

Lemma waitComplete_nextID (c c' : Client) i p :
  waitComplete env c i p = Done c' → nextID c' = nextID c.
Proof.
  unfold waitComplete. destruct (heap c !! p) as [r|]; [|done].
  destruct (ctx_err r); [|done].
  case_bool_decide; [|by intros [= <-]].
  destruct (heap_put env _ p _) as [c2| |] eqn:Hput; [|done..]. simpl.
  apply heap_put_nextID in Hput. simpl in Hput.
  destruct (allowC env c2); [|intros [= <-]; congruence].
  destruct (Notify env c2 _ _ _) as [[c3 oe]| |] eqn:Hn; [|done..]. simpl.
  intros [= <-]. apply Notify_nextID in Hn. congruence.
Qed.

Lemma step_nextID (c c' : Client) : step env c c' → nextID c' = nextID c.
Proof.
  destruct 1 as [ctx method p e Hreq|ctx reqs c' res Hs|recv c' f Ha
                |i p c' Hw| |p c' res Hw|].
  - unfold req in *. by destruct (marshalParams env ctx method p).
  - by eapply send_nextID.
  - unfold accept in Ha.
    destruct (match recv with Ok bits => _ | Err e => _ end) as [rsps|e].
    + destruct (deliver_all env c rsps) as [c1| |] eqn:Hd; [|done..].
      injection Ha as <- _. by eapply deliver_all_nextID.
    + injection Ha as <- _. apply stop_nextID.
  - by eapply waitComplete_nextID.
  - done.
  - unfold Call_wait in Hw. destruct (heap c !! p) as [r|]; [|done].
    destruct (wait r); [|done..]. by injection Hw as <- _.
  - apply stop_nextID.
Qed.

(** The counter of a client that has constructed [n] requests. *)
Lemma made_nextID (c : Client) n :
  made env c n → nextID c = Go.wrap64 (1 + Z.of_N n).
Proof.
  induction 1 as [| c n ctx method p r Hmade IH Hreq | c c' n Hmade IH Hstep].
  - reflexivity.
  - unfold req in *. destruct (marshalParams env ctx method p); [|done].
    simpl. unfold Go.add64. rewrite IH, wrap64_succ. f_equal. lia.
  - apply step_nextID in Hstep. congruence.
Qed.

Lemma FormatInt_head z :
  ∃ b s, Go.FormatInt z = String b s
         ∧ b ≠ "["%char ∧ b ≠ "{"%char ∧ b ≠ "n"%char.
Proof.
  unfold Go.FormatInt. destruct z as [|p|p]; simpl.
  - by eexists _, _.
  - pose proof (Unsigned.to_uint_nonnil p) as Hp.
    destruct (Pos.to_uint p); [done|..]; simpl; by eexists _, _.
  - by eexists _, _.
Qed.

Lemma ids_of_cons r reqs :
  notions.ids_of (r :: reqs)
  = if bool_decide (ID r = "") then notions.ids_of reqs
    else ID r :: notions.ids_of reqs.
Proof.
  unfold notions.ids_of. simpl. rewrite filter_cons.
  case_bool_decide; by case_decide.
Qed.

(** The requests [Batch] constructs for a batch: the one with the
    [j]-th ID of the batch has been given the counter moved on [j] times. *)
Lemma Batch_reqs_ids ctx specs :
  ∀ (c c' : Client) reqs z,
    nextID c = Go.wrap64 z →
    Batch_reqs env c ctx specs = (c', Ok reqs) →
    (length (notions.ids_of reqs) ≤ length specs)%nat
    ∧ ∀ (j : nat) i,
        notions.ids_of reqs !! j = Some i →
        i = Go.FormatInt (Go.wrap64 (z + Z.of_nat j)).
Proof.
  induction specs as [|sp specs IH]; intros c c' reqs z Hz; simpl.
  - intros [= _ <-]. split; [done|]. by intros j i Hj.
  - destruct (IsNotify sp).
    + unfold note. destruct (marshalParams env ctx _ _) as [bits|]; [|done].
      destruct (Batch_reqs env c ctx specs) as [c2 [rs|e]] eqn:Hrest; [|done].
      intros [= _ <-].
      destruct (IH c c2 rs z Hz Hrest) as [Hlen Hids].
      rewrite ids_of_cons. simpl. split; [lia|done].
    + unfold req. destruct (marshalParams env ctx _ _) as [bits|]; [|done].
      destruct (Batch_reqs env _ ctx specs) as [c2 [rs|e]] eqn:Hrest; [|done].
      intros [= _ <-].
      apply (IH _ c2 rs (z + 1)) in Hrest as [Hlen Hids];
        [|simpl; unfold Go.add64; by rewrite Hz, wrap64_succ].
      rewrite ids_of_cons. simpl. case_bool_decide as Hid.
      * destruct (FormatInt_head (nextID c)) as (b & t & Hb & _).
        by rewrite Hb in Hid.
      * split; [simpl; lia|]. intros [|j] i Hj; simpl in Hj.
        -- injection Hj as <-. by rewrite Hz, Z.add_0_r.
        -- apply Hids in Hj. rewrite Hj. do 2 f_equal. lia.
Qed.

(** C2.  The counter of a new client is 1; a request that is
    constructed gets the counter as its ID and moves it on by 1 (as an
    int64), and no other step of a run touches the counter.  So in every
    run the request constructed after [n] others has the ID [n + 1] while
    that fits an int64, and never the ID 0 while fewer than 2^64 - 1
    requests have been constructed, which is every run there can be; and
    two requests constructed after different numbers of others have
    different IDs, so no ID is issued again.  [send] turns down a batch
    with a request whose ID has an entry, leaving the client as it is; a
    batch it accepts had no entry for any of its IDs and has one for each
    afterwards.  The requests [Batch] constructs for one batch have IDs
    that differ from each other, so none of them takes the entry of
    another. *)
Theorem ID_allocation :
  (∀ chn v1 cancel_ok, nextID (NewClient env chn v1 cancel_ok) = 1)
  ∧ (∀ (c : Client) ctx method p bits,
       marshalParams env ctx method p = Ok bits →
       req env c ctx method p
       = (set_nextID env c (Go.wrap64 (nextID c + 1)),
          Ok {| V := Version; ID := Go.FormatInt (nextID c); M := method;
                P := bits |}))
  ∧ (∀ (c : Client) (n : N) ctx method p r,
       made env c n →
       (n < 2 ^ 64 - 1)%N →
       snd (req env c ctx method p) = Ok r →
       ID r = Go.FormatInt (Go.wrap64 (Z.of_N n + 1))
       ∧ ID r ≠ "0"
       ∧ (Z.of_N n + 1 <= Go.max_int64 → ID r = Go.FormatInt (Z.of_N n + 1)))
  ∧ (∀ (c c' : Client) (n n' : N) ctx method p ctx' method' p' r r',
       made env c n → made env c' n' →
       n ≠ n' → (n < 2 ^ 64)%N → (n' < 2 ^ 64)%N →
       snd (req env c ctx method p) = Ok r →
       snd (req env c' ctx' method' p') = Ok r' →
       ID r ≠ ID r')
  ∧ (∀ (c : Client) ctx reqs r,
       r ∈ reqs → ID r ≠ "" → is_Some (pending c !! ID r) →
       ∃ e, send c ctx reqs = Done (c, Err e))
  ∧ (∀ (c : Client) ctx reqs c' pends r,
       send c ctx reqs = Done (c', Ok pends) →
       r ∈ reqs → ID r ≠ "" →
       pending c !! ID r = None ∧ is_Some (pending c' !! ID r))
  ∧ (∀ (c : Client) (n : N) ctx specs c' reqs,
       made env c n →
       (N.of_nat (length specs) < 2 ^ 64)%N →
       Batch_reqs env c ctx specs = (c', Ok reqs) →
       NoDup (notions.ids_of reqs)).
Proof.
  split; [done|]. split; [apply req_ok|].
  split; [|split; [|split; [|split]]].
  - intros c n ctx method p r Hmade Hn Hreq.
    unfold req in Hreq. destruct (marshalParams env ctx method p); [|done].
    injection Hreq as <-. simpl.
    rewrite (made_nextID c n Hmade), (Z.add_comm 1).
    assert (0 < Z.of_N n + 1 < 2 ^ 64) as Hrange.
    { change (2 ^ 64) with 18446744073709551616.
      change (2 ^ 64 - 1)%N with 18446744073709551615%N in Hn. lia. }
    split; [done|]. split.
    + intros H0. change "0" with (Go.FormatInt 0) in H0.
      apply FormatInt_inj in H0. by apply wrap64_nonzero in H0.
    + intros Hfit. rewrite wrap64_small; [done|].
      unfold Go.is_int64, Go.min_int64 in *. lia.
  - intros c c' n n' ctx method p ctx' method' p' r r' Hm Hm' Hne Hn Hn' Hr Hr'.
    unfold req in Hr, Hr'.
    destruct (marshalParams env ctx method p); [|done].
    destruct (marshalParams env ctx' method' p'); [|done].
    injection Hr as <-. injection Hr' as <-. simpl.
    rewrite (made_nextID c n Hm), (made_nextID c' n' Hm').
    intros H. apply FormatInt_inj, wrap64_inj in H.
    + lia.
    + change (2 ^ 64)%N with 18446744073709551616%N in *.
      change (2 ^ 64) with 18446744073709551616. lia.
  - intros c ctx reqs r Hr Hid Hp. unfold send.
    rewrite bool_decide_false by (intros Hl; by destruct reqs; [apply elem_of_nil in Hr|]).
    destruct (err env c); [eauto|].
    destruct (duplicate_Some _ _ _ Hr Hid Hp) as [dup ->]. eauto.
  - intros c ctx reqs c' pends r Hs Hr Hid.
    unfold send in Hs. case_bool_decide; [done|].
    destruct (err env c); [done|].
    destruct (duplicate _ reqs) eqn:Hdup; [done|].
    destruct (Marshal_reqs env reqs) as [b|]; [|done].
    destruct (ch env c); [|done].
    destruct (chan_Send env _ _) as [chn [e'|]]; [done|].
    destruct (record_pending _ _ _ _) as [c2 pends2] eqn:Hrec.
    injection Hs as <- <-. split.
    + by apply (proj1 (duplicate_None _ _) Hdup).
    + apply record_pending_frame in Hrec as (_ & _ & _ & _ & _ & _ & Hpend).
      apply Hpend. right. eauto.
  - intros c n ctx specs c' reqs Hmade Hlen Hb.
    destruct (Batch_reqs_ids ctx specs c c' reqs _ (made_nextID c n Hmade) Hb)
      as [Hk Hids].
    apply NoDup_alt. intros j j' i Hj Hj'.
    pose proof (lookup_lt_Some _ _ _ Hj) as Hlt.
    pose proof (lookup_lt_Some _ _ _ Hj') as Hlt'.
    apply Hids in Hj, Hj'. rewrite Hj in Hj'.
    apply FormatInt_inj, wrap64_inj in Hj'; [lia|].
    change (2 ^ 64)%N with 18446744073709551616%N in Hlen.
    change (2 ^ 64) with 18446744073709551616. lia.
Qed.

(** *** Validation of the parameters *)

Lemma bad_params_head b s :
  b ≠ "["%char → b ≠ "{"%char → b ≠ "n"%char →
  bad_params (String b s) = true.
Proof.
  intros H1 H2 H3. unfold bad_params.
  rewrite !bool_decide_false; [done|congruence|done|done].
Qed.

(** The test of [marshalParams] lets through the encodings of arrays,
    objects and [null], and no other. *)
Lemma bad_params_encode v :
  bad_params (json.encode v)
  = negb (json.is_array v || json.is_object v || json.is_null v).
Proof.
  destruct v as [|[]|z|s|elts|members]; try reflexivity.
  - destruct (FormatInt_head z) as (b & s & Hz & ? & ? & ?).
    simpl. rewrite Hz. by apply bad_params_head.
Qed.

Lemma marshalParams_Marshals ctx method bits :
  marshalParams env ctx method (Marshals bits)
  = if bad_params bits
    then Err (RPC {| Message := "invalid parameters: array or object required";
                     Code := code.InvalidRequest; Data := "" |})
    else enctx env ctx method (Some bits).
Proof.
  unfold marshalParams. simpl. destruct (bad_params bits); [done|].
  by destruct (enctx env ctx method (Some bits)).
Qed.

Lemma Batch_reqs_frame ctx specs :
  ∀ (c c' : Client) res,
    Batch_reqs env c ctx specs = (c', res) →
    sends c' = sends c ∧ channel c' = channel c ∧ pending c' = pending c
    ∧ heap c' = heap c.
Proof.
  induction specs as [|sp specs IH]; intros c c' res; simpl.
  - by intros [= <- _].
  - destruct (if IsNotify sp then _ else _) as [c1 [r|e]] eqn:Hstep.
    + assert (sends c1 = sends c ∧ channel c1 = channel c
              ∧ pending c1 = pending c ∧ heap c1 = heap c)
        as (Hs & Hc & Hp & Hh).
      { destruct (IsNotify sp).
        - by injection Hstep as <- _.
        - unfold req in Hstep. destruct (marshalParams _ _ _ _);
            by injection Hstep as <- _. }
      destruct (Batch_reqs env c1 ctx specs) as [c2 [rs|e]] eqn:Hrest;
        intros [= <- _]; apply IH in Hrest as (-> & -> & -> & ->); done.
    + intros [= <- _].
      destruct (IsNotify sp).
      * by injection Hstep as <- _.
      * unfold req in Hstep. destruct (marshalParams _ _ _ _);
          by injection Hstep as <- _.
Qed.

Lemma Batch_reqs_error ctx specs :
  ∀ (c : Client) sp e,
    sp ∈ specs →
    marshalParams env ctx (Method sp) (Params sp) = Err e →
    ∃ c' e', Batch_reqs env c ctx specs = (c', Err e').
Proof.
  induction specs as [|sp0 specs IH]; intros c sp e Hin He.
  - by apply elem_of_nil in Hin.
  - simpl. apply elem_of_cons in Hin as [<-|Hin].
    + unfold note, req. rewrite He. destruct (IsNotify sp); eauto.
    + destruct (if IsNotify sp0 then _ else _) as [c1 [r|e0]]; [|eauto].
      destruct (IH c1 sp e Hin He) as (c' & e' & ->). eauto.
Qed.

(** C4.  Parameters whose encoding is none of an array, an object and
    [null] make [marshalParams] fail with an InvalidRequest error;
    arrays, objects, [null] and nil parameters go on to the context
    encoder.  A call, a notification or a batch with parameters that
    [marshalParams] refuses returns the error without a frame handed to
    the channel. *)
Theorem params_validation ctx method :
  (∀ v, json.is_array v || json.is_object v || json.is_null v = false →
        marshalParams env ctx method (of_value v)
        = Err (RPC {| Message := "invalid parameters: array or object required";
                      Code := code.InvalidRequest; Data := "" |}))
  ∧ (∀ v, json.is_array v || json.is_object v || json.is_null v = true →
          marshalParams env ctx method (of_value v)
          = enctx env ctx method (Some (json.encode v)))
  ∧ marshalParams env ctx method NoParams = enctx env ctx method None
  ∧ (∀ (c : Client) p e,
       marshalParams env ctx method p = Err e →
       Call_send env c ctx method p = Done (c, Err e)
       ∧ Notify env c ctx method p = Done (c, Some e))
  ∧ (∀ (c : Client) specs sp e,
       sp ∈ specs →
       marshalParams env ctx (Method sp) (Params sp) = Err e →
       ∃ c' e', Batch_send env c ctx specs = Done (c', Err e')
                ∧ sends c' = sends c ∧ channel c' = channel c
                ∧ pending c' = pending c).
Proof.
  split; [|split; [|split; [|split]]].
  - intros v Hv. unfold of_value.
    by rewrite marshalParams_Marshals, bad_params_encode, Hv.
  - intros v Hv. unfold of_value.
    by rewrite marshalParams_Marshals, bad_params_encode, Hv.
  - reflexivity.
  - intros c p e He. unfold Call_send, Notify, req, note. by rewrite He.
  - intros c specs sp e Hin He.
    destruct (Batch_reqs_error ctx specs c sp e Hin He) as (c' & e' & Hb).
    exists c', e'. unfold Batch_send. rewrite Hb. split; [done|].
    by apply Batch_reqs_frame in Hb as (? & ? & ? & _).
Qed.

(** *** The end of a call *)





(** *** Shutdown *)

Lemma cancel_idem r : cancel (cancel r) = cancel r.
Proof. by destruct r as [? ? []]. Qed.

Lemma cancel_all_lookup (ps : list nat) (h : list Response) (p : nat) :
  foldr (λ q h', alter cancel q h') h ps !! p
  = if bool_decide (p ∈ ps) then cancel <$> h !! p else h !! p.
Proof.
  induction ps as [|q ps IH]; simpl; [done|].
  rewrite list_lookup_alter.
  destruct (decide (q = p)) as [->|Hne]; rewrite IH.
  - rewrite (bool_decide_true (p ∈ p :: ps)) by apply list_elem_of_here.
    case_bool_decide; [|done].
    destruct (h !! p); simpl; [|done]. by rewrite cancel_idem.
  - rewrite (bool_decide_ext (p ∈ q :: ps) (p ∈ ps)); [done|].
    rewrite elem_of_cons. split; [|by right].
    intros [->|Hin]; [by destruct Hne|done].
Qed.

(** [stop] on a running client closes the channel, records the error,
    forgets the channel, and cancels the context of every pending
    response; the registry keeps its entries. *)
Lemma stop_running (c : Client) e :
  ch env c = true →
  channel (stop env c e) = chan_Close env (channel c)
  ∧ ch env (stop env c e) = false
  ∧ err env (stop env c e) = Some e
  ∧ pending (stop env c e) = pending c
  ∧ sends (stop env c e) = sends c
  ∧ allowC env (stop env c e) = allowC env c
  ∧ ∀ i p r, pending c !! i = Some p → heap c !! p = Some r →
             heap (stop env c e) !! p = Some (cancel r).
Proof.
  intros Hch. unfold stop. rewrite Hch. simpl. repeat split; try done.
  intros i p r Hi Hp. rewrite cancel_all_lookup, Hp.
  rewrite bool_decide_true; [done|].
  apply list_elem_of_fmap. exists (i, p). split; [done|].
  by apply elem_of_map_to_list.
Qed.

Lemma stop_stopped (c : Client) e : ch env c = false → stop env c e = c.
Proof. intros Hch. unfold stop. by rewrite Hch. Qed.

(** What [Close] returns: nil when it stops a running client itself, and
    for a client that had stopped before, nil when the recorded error is
    EOF, a channel-closing error or the client-stopped sentinel, and the
    recorded error otherwise. *)
Lemma Close_returns (c : Client) :
  (ch env c = true → snd (Close env c) = None)
  ∧ (∀ e, ch env c = false → err env c = Some e →
          snd (Close env c)
          = if bool_decide (e = EOF ∨ IsErrClosing env e = true
                            ∨ e = errClientStopped)
            then None else Some e).
Proof.
  split.
  - intros Hch. unfold Close. simpl.
    destruct (stop_running c errClientStopped Hch) as (_ & _ & -> & _).
    rewrite (bool_decide_true (errClientStopped = errClientStopped)) by done.
    by rewrite orb_true_r.
  - intros e Hch He. unfold Close. simpl.
    rewrite stop_stopped, He by done.
    destruct (bool_decide (e = EOF)) eqn:H1, (IsErrClosing env e) eqn:H2,
      (bool_decide (e = errClientStopped)) eqn:H3; simpl;
      try (rewrite bool_decide_true; [done|]);
      try (apply bool_decide_eq_true in H1; by left);
      try (by right; left);
      try (apply bool_decide_eq_true in H3; by right; right).
    apply bool_decide_eq_false in H1, H3.
    rewrite bool_decide_false; [done|].
    intros [?|[?|?]]; congruence.
Qed.




End WithEnv.

End ClientSpec.

(* ===================================================================== *)
(** * The client on a concrete channel *)
(* ===================================================================== *)

Module ClientCases.

Import jrpc2 fixtures.

(** A channel whose [Send] fails: the request gets no entry. *)
Lemma send_failure_leaves_no_entry_witness :
  let env := pipe (Some (Foreign "broken pipe")) in
  let c := NewClient env [] false false in
  ∃ c', send env c tt [add_request] = Done (c', Err (Foreign "broken pipe"))
        ∧ pending env c' = ∅
        ∧ pending env c' !! "1" = None.
Proof.
  intros env c.
  destruct (ClientSpec.send_failure_leaves_no_entry env c tt [add_request]
              ltac:(discriminate) eq_refl eq_refl) as (_ & Hsend & _).
  destruct (Hsend (request_text add_request) [] (Foreign "broken pipe")
              eq_refl eq_refl eq_refl) as (c' & Hs & Hp & _ & Hfree).
  exists c'. split; [exact Hs|]. split; [exact Hp|].
  apply (Hfree add_request); [apply list_elem_of_here|discriminate].
Defined.

(** The first request of a new client has the ID 1. *)
Lemma ID_allocation_witness :
  let env := pipe None in
  let c := NewClient env [] false false in
  let r := {| V := "2.0"; ID := "1"; M := "Add"; P := "" |} in
  made env c 0
  ∧ snd (req env c tt "Add" NoParams) = Ok r
  ∧ ID r ≠ "0"
  ∧ ID r = Go.FormatInt 1.
Proof.
  intros env c r.
  assert (made env c 0) as Hmade by apply made_new.
  destruct (proj1 (proj2 (proj2 (ClientSpec.ID_allocation env)))
              c 0%N tt "Add" NoParams r Hmade eq_refl eq_refl)
    as (_ & Hnz & Hid).
  split; [exact Hmade|]. split; [reflexivity|]. split; [exact Hnz|].
  apply Hid. discriminate.
Defined.

(** A string as parameters is refused, an array goes through. *)
Lemma params_validation_witness :
  let env := pipe None in
  let c := NewClient env [] false false in
  let refused :=
    RPC {| Message := "invalid parameters: array or object required";
           Code := code.InvalidRequest; Data := "" |} in
  marshalParams env tt "Add" (of_value (json.Str "2,3")) = Err refused
  ∧ marshalParams env tt "Add" (of_value (json.Array [json.Number 2; json.Number 3]))
    = Ok "[2,3]"
  ∧ Call_send env c tt "Add" (of_value (json.Str "2,3")) = Done (c, Err refused)
  ∧ Notify env c tt "Add" (of_value (json.Str "2,3")) = Done (c, Some refused).
Proof.
  intros env c refused.
  destruct (ClientSpec.params_validation env tt "Add")
    as (Hbad & Hgood & _ & Hcall & _).
  assert (marshalParams env tt "Add" (of_value (json.Str "2,3")) = Err refused)
    as Hrefused by (apply Hbad; reflexivity).
  split; [exact Hrefused|]. split; [|split].
  - rewrite Hgood by reflexivity. reflexivity.
  - apply Hcall, Hrefused.
  - apply Hcall, Hrefused.
Defined.





End ClientCases.

(* ===================================================================== *)
(** * Further properties of the metrics collector *)
(* ===================================================================== *)

Module MetricsMore.

Import metrics notions.

Lemma wrap64_add_l a b : Go.wrap64 (Go.wrap64 a + b) = Go.wrap64 (a + b).
Proof.
  unfold Go.wrap64. f_equal.
  replace ((a + 2 ^ 63) mod 2 ^ 64 - 2 ^ 63 + b + 2 ^ 63)
    with ((a + 2 ^ 63) mod 2 ^ 64 + b) by lia.
  replace (a + b + 2 ^ 63) with (a + 2 ^ 63 + b) by lia.
  by rewrite Zplus_mod_idemp_l.
Qed.

Lemma wrap64_add_r a b : Go.wrap64 (a + Go.wrap64 b) = Go.wrap64 (a + b).
Proof. by rewrite Z.add_comm, wrap64_add_l, Z.add_comm. Qed.

(** What [Count] leaves in a counter map that is not nil. *)
Lemma Count_usable s g name n :
  counter s = Some g →
  Count (Some s) name n
  = Done (Some {| counter := Some (<[name := Go.add64 (default 0 (g !! name)) n]> g);
                  maxVal := maxVal s; label := label s |}).
Proof. intros Hg. unfold Count, bump, assign, index. by rewrite Hg. Qed.

(** X1.  Counting [a] and then [b] under a name leaves the collector that
    counting their int64 sum leaves, whatever the collector (nil, with nil
    maps, or in use); and counts under two different names can be made in
    either order. *)
Theorem Count_accumulates (m : option M) (name other : string) (a b : Z) :
  Go.bind (Count m name a) (λ m', Count m' name b)
  = Count m name (Go.add64 a b)
  ∧ (name ≠ other →
     Go.bind (Count m name a) (λ m', Count m' other b)
     = Go.bind (Count m other b) (λ m', Count m' name a)).
Proof.
  destruct m as [s|]; [|done].
  unfold Count, bump, assign, index.
  destruct (counter s) as [g|] eqn:Hg; simpl; [|done].
  split.
  - rewrite lookup_insert_eq, insert_insert_eq. simpl.
    unfold Go.add64. by rewrite wrap64_add_l, wrap64_add_r, Z.add_assoc.
  - intros Hne. rewrite !lookup_insert_ne by done.
    by rewrite insert_insert_ne.
Qed.

(** The witness of X1: two counters of a new collector, counted in either
    order. *)
Lemma Count_accumulates_witness :
  Go.bind (Count New "rpc.requests" 1) (λ m', Count m' "rpc.errors" 2)
  = Go.bind (Count New "rpc.errors" 2) (λ m', Count m' "rpc.requests" 1).
Proof.
  apply (proj2 (Count_accumulates New "rpc.requests" "rpc.errors" 1 2)).
  discriminate.
Defined.

(** What [raise_max] leaves in a map that is not nil: the greater of the
    old value and [n] under [name], and every other entry as it was. *)
Lemma raise_max_lookup g name n :
  ∃ g', raise_max (Some g) name n = Done (Some g')
        ∧ g' !! name = Some (match g !! name with
                             | Some old => Z.max old n
                             | None => n
                             end)
        ∧ ∀ k, k ≠ name → g' !! k = g !! k.
Proof.
  unfold raise_max, assign, index.
  destruct (g !! name) as [old|] eqn:Hold.
  - destruct (n >? old) eqn:Hcmp.
    + eexists. split; [done|]. split.
      * rewrite lookup_insert_eq. f_equal. lia.
      * intros k Hk. by rewrite lookup_insert_ne.
    + exists g. split; [done|]. split; [|done].
      rewrite Hold. f_equal. lia.
  - eexists. split; [done|]. split.
    + by rewrite lookup_insert_eq.
    + intros k Hk. by rewrite lookup_insert_ne.
Qed.

(** X2.  On a collector whose maximum map is not nil, [SetMaxValue] leaves
    under the name the greater of [n] and the value it had ([n] when it had
    none), touches nothing else, and so never lowers a maximum; setting two
    values under a name in either order leaves the same collector. *)
Theorem SetMaxValue_keeps_maximum s g name :
  maxVal s = Some g →
  (∀ n, ∃ g',
      SetMaxValue (Some s) name n
      = Done (Some {| counter := counter s; maxVal := Some g'; label := label s |})
      ∧ g' !! name = Some (match g !! name with
                           | Some old => Z.max old n
                           | None => n
                           end)
      ∧ ∀ k, k ≠ name → g' !! k = g !! k)
  ∧ (∀ a b,
       Go.bind (SetMaxValue (Some s) name a) (λ m', SetMaxValue m' name b)
       = Go.bind (SetMaxValue (Some s) name b) (λ m', SetMaxValue m' name a)).
Proof.
  intros Hg. split.
  - intros n. destruct (raise_max_lookup g name n) as (g' & Hr & Hn & Ho).
    exists g'. unfold SetMaxValue. rewrite Hg, Hr. done.
  - intros a b. unfold SetMaxValue. rewrite Hg.
    destruct (raise_max_lookup g name a) as (ga & -> & Ha & Hao).
    destruct (raise_max_lookup g name b) as (gb & -> & Hb & Hbo). simpl.
    destruct (raise_max_lookup ga name b) as (gab & -> & Hab & Habo).
    destruct (raise_max_lookup gb name a) as (gba & -> & Hba & Hbao). simpl.
    assert (gab = gba) as ->; [|done]. apply map_eq. intros k.
    destruct (decide (k = name)) as [->|Hk].
    + rewrite Hab, Hba, Ha, Hb. f_equal.
      destruct (g !! name); lia.
    + by rewrite Habo, Hbao, Hao, Hbo.
Qed.

(** X3.  [CountAndSetMax] does what [SetMaxValue] followed by [Count]
    does, on every collector, faults included. *)
Theorem CountAndSetMax_composes (m : option M) (name : string) (n : Z) :
  CountAndSetMax m name n
  = Go.bind (SetMaxValue m name n) (λ m', Count m' name n).
Proof.
  destruct m as [s|]; [|done]. unfold CountAndSetMax, SetMaxValue, Count.
  destruct (raise_max (maxVal s) name n) as [v| |]; done.
Qed.

(** The witness of X2: a maximum of 5 stays when 3 is set. *)
Lemma SetMaxValue_keeps_maximum_witness :
  let s := {| counter := Some ∅; maxVal := Some {[ "rpc.batch-size" := 5 ]};
              label := Some ∅ |} in
  SetMaxValue (Some s) "rpc.batch-size" 3 = Done (Some s)
  ∧ Go.bind (SetMaxValue (Some s) "rpc.batch-size" 9)
            (λ m', SetMaxValue m' "rpc.batch-size" 7)
    = Go.bind (SetMaxValue (Some s) "rpc.batch-size" 7)
              (λ m', SetMaxValue m' "rpc.batch-size" 9).
Proof.
  intros s.
  destruct (SetMaxValue_keeps_maximum s {[ "rpc.batch-size" := 5 ]}
              "rpc.batch-size" eq_refl) as [_ Hcomm].
  split; [reflexivity|]. apply Hcomm.
Defined.





(** X6.  On a collector whose label map is not nil: [SetLabel] with a
    value leaves that value under the name, with nil leaves no label under
    it, and either way leaves the other labels alone; [EditLabel] does what
    [SetLabel] does with the result of the function on the current label,
    nil when there is none. *)
Theorem label_updates s l name :
  label s = Some l →
  (∀ v, ∃ l',
      SetLabel (Some s) name (Some v)
      = Done (Some {| counter := counter s; maxVal := maxVal s; label := Some l' |})
      ∧ l' !! name = Some v
      ∧ ∀ k, k ≠ name → l' !! k = l !! k)
  ∧ (∃ l',
       SetLabel (Some s) name None
       = Done (Some {| counter := counter s; maxVal := maxVal s; label := Some l' |})
       ∧ l' !! name = None
       ∧ ∀ k, k ≠ name → l' !! k = l !! k)
  ∧ (∀ f, EditLabel (Some s) name (Some f)
          = SetLabel (Some s) name (f (l !! name))).
Proof.
  intros Hl. split; [|split].
  - intros v. eexists. unfold SetLabel, store_label, assign. rewrite Hl. simpl.
    split; [reflexivity|]. split.
    + by rewrite lookup_insert_eq.
    + intros k Hk. by rewrite lookup_insert_ne.
  - eexists. unfold SetLabel, store_label, remove. rewrite Hl.
    split; [reflexivity|]. split.
    + by rewrite lookup_delete_eq.
    + intros k Hk. by rewrite lookup_delete_ne.
  - intros f. unfold EditLabel, SetLabel, index. by rewrite Hl.
Qed.

(** The witness of X6: a label edited in place. *)
Lemma label_updates_witness :
  let s := {| counter := Some ∅; maxVal := Some ∅;
              label := Some {[ "state" := Plain "starting" ]} |} in
  EditLabel (Some s) "state" (Some (λ _, Some (Plain "running")))
  = SetLabel (Some s) "state" (Some (Plain "running"))
  ∧ EditLabel (Some s) "state" (Some (λ cur, cur)) = Done (Some s).
Proof.
  intros s.
  destruct (label_updates s {[ "state" := Plain "starting" ]} "state" eq_refl)
    as (_ & _ & Hedit).
  split.
  - apply Hedit.
  - rewrite Hedit. reflexivity.
Defined.

End MetricsMore.

(* ===================================================================== *)
(** * Further properties of the client *)
(* ===================================================================== *)

Module ClientMore.

Import jrpc2 notions.

Section WithEnv.

Variable env : Env.

Local Abbreviation Client := (Client env).
Local Abbreviation pending := (pending env).
Local Abbreviation heap := (heap env).
Local Abbreviation sends := (sends env).
Local Abbreviation channel := (channel env).
Local Abbreviation nextID := (nextID env).
Local Abbreviation send := (send env).
Local Abbreviation record_pending := (record_pending env).
Local Abbreviation sound := (sound env).
Local Abbreviation handed := (handed env).

(** *** What a successful [send] records *)

Lemma record_pending_shape reqs :
  ∀ (c : Client) parent pends c' pends',
    record_pending c parent reqs pends = (c', pends') →
    heap c' = heap c ++ (newPending parent <$> ids_of reqs)
    ∧ pends' = pends ++ seq (length (heap c)) (length (ids_of reqs)).
Proof.
  induction reqs as [|r reqs IH]; intros c parent pends c' pends' H;
    simpl in H.
  - injection H as <- <-. by rewrite !app_nil_r.
  - rewrite ClientSpec.ids_of_cons.
    destruct (bool_decide (ID r = "")); simpl in H.
    + by apply IH in H.
    + apply IH in H as [-> ->]. simpl.
      rewrite <- !app_assoc, length_app. simpl.
      by rewrite Nat.add_1_r.
Qed.

Lemma record_pending_other reqs :
  ∀ (c : Client) parent pends c' pends' i,
    record_pending c parent reqs pends = (c', pends') →
    i ∉ ids_of reqs →
    pending c' !! i = pending c !! i.
Proof.
  induction reqs as [|r reqs IH]; intros c parent pends c' pends' i H Hi;
    simpl in H.
  - by injection H as <- _.
  - rewrite ClientSpec.ids_of_cons in Hi.
    destruct (bool_decide (ID r = "")); simpl in H.
    + by eapply IH.
    + apply not_elem_of_cons in Hi as [Hne Hi].
      erewrite IH by done. simpl. by rewrite lookup_insert_ne.
Qed.

Lemma record_pending_last reqs :
  ∀ (c : Client) parent pends c' pends' j i,
    record_pending c parent reqs pends = (c', pends') →
    ids_of reqs !! j = Some i →
    i ∉ drop (S j) (ids_of reqs) →
    pending c' !! i = Some (length (heap c) + j)%nat.
Proof.
  induction reqs as [|r reqs IH]; intros c parent pends c' pends' j i H Hj Hlast;
    simpl in H.
  - done.
  - rewrite ClientSpec.ids_of_cons in Hj, Hlast.
    destruct (bool_decide (ID r = "")); simpl in H.
    + by eapply IH.
    + destruct j as [|j]; simpl in Hj, Hlast.
      * injection Hj as <-. rewrite drop_0 in Hlast.
        erewrite record_pending_other by done. simpl.
        rewrite lookup_insert_eq. f_equal. lia.
      * erewrite IH by done. simpl. rewrite length_app. simpl. f_equal. lia.
Qed.

(** A [send] that succeeds has marshaled the batch, handed it to the
    channel, and recorded the requests. *)
Lemma send_Ok (c c' : Client) ctx reqs pends :
  send c ctx reqs = Done (c', Ok pends) →
  ∃ b chn,
    Marshal_reqs env reqs = Ok b
    ∧ chan_Send env (channel c) b = (chn, None)
    ∧ record_pending (sent env c chn b) (ctx_Err env ctx) reqs []
      = (c', pends).
Proof.
  unfold send. case_bool_decide; [done|].
  destruct (err env c); [done|].
  destruct (duplicate _ reqs); [done|].
  destruct (Marshal_reqs env reqs) as [b|]; [|done].
  destruct (ch env c); [|done].
  destruct (chan_Send env _ _) as [chn [e'|]] eqn:Hsend; [done|].
  destruct (record_pending _ _ _ _) as [c2 pends2] eqn:Hrec.
  intros [= <- <-]. by exists b, chn.
Qed.

(** X7.  A [send] that succeeds has handed the marshaled batch to the
    channel, once, and has made one pending response for each request of
    the batch that has an ID, in the order of the batch and with that ID,
    none for a notification; it returns exactly these responses, and the
    registry leads from each ID of the batch to the response made for its
    last occurrence. *)
Theorem send_records (c c' : Client) ctx reqs pends :
  send c ctx reqs = Done (c', Ok pends) →
  (∃ b chn, Marshal_reqs env reqs = Ok b
            ∧ chan_Send env (channel c) b = (chn, None)
            ∧ channel c' = chn
            ∧ sends c' = sends c ++ [b])
  ∧ heap c' = heap c ++ (newPending (ctx_Err env ctx) <$> ids_of reqs)
  ∧ pends = seq (length (heap c)) (length (ids_of reqs))
  ∧ (∀ j i, ids_of reqs !! j = Some i →
            i ∉ drop (S j) (ids_of reqs) →
            pending c' !! i = Some (length (heap c) + j)%nat)
  ∧ (∀ i, i ∉ ids_of reqs → pending c' !! i = pending c !! i).
Proof.
  intros Hs. destruct (send_Ok _ _ _ _ _ Hs) as (b & chn & Hb & Hsend & Hrec).
  pose proof (ClientSpec.record_pending_frame env _ _ _ _ _ _ Hrec)
    as (Hs' & Hc & _).
  pose proof (record_pending_shape _ _ _ _ _ _ Hrec) as [Hh Hp].
  split; [|split; [|split; [|split]]].
  - exists b, chn. by rewrite Hs', Hc.
  - exact Hh.
  - exact Hp.
  - intros j i Hj Hlast.
    by rewrite (record_pending_last _ _ _ _ _ _ j i Hrec Hj Hlast).
  - intros i Hi. by rewrite (record_pending_other _ _ _ _ _ _ i Hrec Hi).
Qed.

(** *** The registry stays sound *)

Lemma sound_NewClient chn v1 cancel_ok : sound (NewClient env chn v1 cancel_ok).
Proof.
  split; [|split]; simpl.
  - intros i p Hi. by rewrite lookup_empty in Hi.
  - intros i j p Hi. by rewrite lookup_empty in Hi.
  - done.
Qed.

(** A field of the client other than registry and heap may change. *)
Lemma sound_frame (c c' : Client) :
  pending c' = pending c → heap c' = heap c →
  (ch env c' = false → is_Some (err env c')) →
  sound c → sound c'.
Proof.
  intros Hp Hh He (H1 & H2 & _). unfold notions.sound. rewrite Hp, Hh. done.
Qed.

Lemma sound_addresses (c : Client) i p :
  sound c → pending c !! i = Some p → (p < length (heap c))%nat.
Proof.
  intros (H1 & _) Hi. destruct (H1 i p Hi) as (_ & r & Hr & _).
  by eapply lookup_lt_Some.
Qed.

Lemma record_pending_sound reqs :
  ∀ (c : Client) parent pends c' pends',
    record_pending c parent reqs pends = (c', pends') →
    sound c → sound c'.
Proof.
  induction reqs as [|r reqs IH]; intros c parent pends c' pends' H Hc;
    simpl in H.
  - by injection H as <- _.
  - destruct (bool_decide (ID r = "")) eqn:Hid; simpl in H; [by eapply IH|].
    apply bool_decide_eq_false in Hid.
    eapply IH; [exact H|]. clear H IH.
    destruct Hc as (H1 & H2 & H3).
    assert (∀ i p, pending c !! i = Some p → (p < length (heap c))%nat)
      as Hlt.
    { intros i p Hi. destruct (H1 i p Hi) as (_ & r' & Hr' & _).
      by eapply lookup_lt_Some. }
    split; [|split]; simpl.
    + intros i p Hi. apply lookup_insert_Some in Hi as [[<- <-]|[Hne Hi]].
      * split; [done|]. eexists. split; [by apply list_lookup_middle|done].
      * destruct (H1 i p Hi) as (Hi0 & r' & Hr' & Hch).
        split; [done|]. exists r'. split; [|done].
        rewrite lookup_app_l; [done|]. by eapply Hlt.
    + intros i j p Hi Hj.
      apply lookup_insert_Some in Hi as [[<- <-]|[Hni Hi]];
        apply lookup_insert_Some in Hj as [[<- Hp]|[Hnj Hj]]; try done.
      * apply Hlt in Hj. lia.
      * apply Hlt in Hi. lia.
      * by eapply H2.
    + exact H3.
Qed.

Lemma send_sound (c c' : Client) ctx reqs res :
  send c ctx reqs = Done (c', res) → sound c → sound c'.
Proof.
  unfold send. case_bool_decide; [by intros [= <- _]|].
  destruct (err env c) eqn:Herr; [by intros [= <- _]|].
  destruct (duplicate _ reqs); [by intros [= <- _]|].
  destruct (Marshal_reqs env reqs) as [b|]; [|by intros [= <- _]].
  destruct (ch env c) eqn:Hch; [|done].
  destruct (chan_Send env _ _) as [chn [e'|]] eqn:Hsend.
  - intros [= <- _] Hc. eapply sound_frame; [done..| |exact Hc].
    simpl. by rewrite Hch.
  - destruct (record_pending _ _ _ _) as [c2 pends2] eqn:Hrec.
    intros [= <- _] Hc. eapply record_pending_sound; [exact Hrec|].
    eapply sound_frame; [done..| |exact Hc]. simpl. by rewrite Hch.
Qed.

(** Under soundness [send] returns: it faults only on a client that has
    neither a channel nor an error. *)
Lemma send_returns (c : Client) ctx reqs :
  sound c → ∃ c' res, send c ctx reqs = Done (c', res).
Proof.
  intros (_ & _ & H3). unfold send. case_bool_decide; [eauto|].
  destruct (err env c) eqn:Herr; [eauto|].
  destruct (duplicate _ reqs); [eauto|].
  destruct (Marshal_reqs env reqs) as [b|]; [|eauto].
  destruct (ch env c) eqn:Hch.
  - destruct (chan_Send env _ _) as [chn [e'|]]; [eauto|].
    destruct (record_pending _ _ _ _); eauto.
  - destruct (H3 eq_refl) as [? ?]. congruence.
Qed.

(** Putting a message into the channel of the response an entry pointed
    to, after the entry has been taken out. *)
Lemma put_removed_sound (c : Client) i p msg :
  sound c →
  pending c !! i = Some p →
  ∃ c' r,
    heap_put env (set_pending env c (delete i (pending c))) p msg = Done c'
    ∧ heap c !! p = Some r
    ∧ pending c' = delete i (pending c)
    ∧ heap c' = <[p := {| rch := Open (Some msg); id := id r;
                           ctx_err := ctx_err r; r_err := r_err r;
                           r_result := r_result r |}]> (heap c)
    ∧ sends c' = sends c ∧ channel c' = channel c
    ∧ err env c' = err env c ∧ ch env c' = ch env c
    ∧ allowC env c' = allowC env c
    ∧ sound c'.
Proof.
  intros (H1 & H2 & H3) Hi.
  destruct (H1 i p Hi) as (_ & r & Hr & Hch).
  unfold heap_put. simpl. rewrite Hr. unfold put. rewrite Hch. simpl.
  eexists _, r. split; [reflexivity|]. simpl.
  repeat (split; [done|]).
  split; [|split]; simpl.
  - intros j q Hj. apply lookup_delete_Some in Hj as [Hne Hj].
    destruct (H1 j q Hj) as (Hj0 & r' & Hr' & Hch').
    split; [done|]. exists r'. split; [|done].
    rewrite list_lookup_insert_ne; [done|].
    intros <-. apply Hne. by eapply H2.
  - intros j k q Hj Hk.
    apply lookup_delete_Some in Hj as [_ Hj].
    apply lookup_delete_Some in Hk as [_ Hk]. by eapply H2.
  - exact H3.
Qed.



Lemma cancel_rch r : rch (cancel r) = rch r.
Proof. done. Qed.



(** *** Delivery and cancellation *)

Lemma versionOK_iff (c : Client) v :
  versionOK env c v = true ↔ v = "2.0" ∨ (v = "" ∧ allow1 env c = true).
Proof.
  unfold versionOK, Version. case_bool_decide as Hv.
  - subst v. split; [by right|]. by intros [?|[_ ?]].
  - rewrite bool_decide_eq_true. split; [by left|]. by intros [?|[? _]].
Qed.

Lemma deliver_discards (c : Client) rsp :
  fixID env (rsp_ID rsp) ≠ "" →
  pending c !! fixID env (rsp_ID rsp) = None →
  deliver env c rsp = Done c.
Proof.
  intros Hi H. unfold deliver. rewrite bool_decide_false by done.
  by rewrite H.
Qed.

Lemma waitComplete_too_late (c : Client) i p r cause :
  pending c !! i = None →
  heap c !! p = Some r →
  ctx_err r = Some cause →
  waitComplete env c i p = Done c.
Proof.
  intros Hi Hp Hc. unfold waitComplete. rewrite Hp, Hc, Hi.
  by rewrite bool_decide_false by (by intros [? ?]).
Qed.

(** X9.  A response without an ID goes to the notification handler, and
    the client stays as it is when the handler returns; a response with
    an ID that has no entry is dropped.  A response whose ID has an entry
    takes the entry out and is put into the channel of its pending
    response, replaced by an InvalidRequest error when its version marker
    is not accepted (only "2.0" is, and the empty marker with [allow1]);
    after that a second response with the ID and a cancellation of the
    request change nothing. *)
Theorem deliver_once (c : Client) rsp :
  let i := fixID env (rsp_ID rsp) in
  (i = "" → deliver env c rsp = Go.bind (snote env rsp) (λ _, Done c))
  ∧ (i ≠ "" → pending c !! i = None → deliver env c rsp = Done c)
  ∧ (∀ p, sound c → pending c !! i = Some p →
       ∃ c' r,
         deliver env c rsp = Done c'
         ∧ heap c !! p = Some r
         ∧ pending c' = delete i (pending c)
         ∧ heap c' = <[p := {| rch := Open (Some (handed c rsp)); id := id r;
                                ctx_err := ctx_err r; r_err := r_err r;
                                r_result := r_result r |}]> (heap c)
         ∧ sound c'
         ∧ (∀ rsp', fixID env (rsp_ID rsp') = i → deliver env c' rsp' = Done c')
         ∧ (is_Some (ctx_err r) → waitComplete env c' i p = Done c')).
Proof.
  intros i. split; [|split; [apply deliver_discards|]].
  { intros Hi. unfold deliver. fold i. by rewrite bool_decide_true. }
  intros p Hc Hp.
  assert (i ≠ "") as Hi by (by destruct (proj1 Hc i p Hp)).
  destruct (put_removed_sound c i p (handed c rsp) Hc Hp)
    as (c' & r & Hput & Hr & Hpend & Hheap & _ & _ & _ & _ & _ & Hs).
  exists c', r.
  assert (deliver env c rsp = Done c') as Hd.
  { unfold deliver. fold i. rewrite bool_decide_false by done. rewrite Hp.
    rewrite <- Hput. unfold notions.handed, jerrorf.
    by destruct (versionOK env c (rsp_V rsp)). }
  assert (pending c' !! i = None) as Hgone.
  { rewrite Hpend. apply lookup_delete_eq. }
  repeat (split; [done|]). split.
  - intros rsp' Hi'. apply deliver_discards; by rewrite Hi'.
  - intros [cause Hcause]. eapply waitComplete_too_late; [done| |].
    + rewrite Hheap. apply list_lookup_insert_eq. by eapply lookup_lt_Some.
    + exact Hcause.
Qed.

(** [send] leaves the error, the channel field and the options alone. *)
Lemma send_keeps (c c' : Client) ctx reqs res :
  send c ctx reqs = Done (c', res) →
  err env c' = err env c ∧ ch env c' = ch env c
  ∧ allowC env c' = allowC env c ∧ allow1 env c' = allow1 env c.
Proof.
  assert (∀ reqs (c0 c1 : Client) parent pends pends',
            record_pending c0 parent reqs pends = (c1, pends') →
            err env c1 = err env c0 ∧ ch env c1 = ch env c0
            ∧ allowC env c1 = allowC env c0 ∧ allow1 env c1 = allow1 env c0)
    as Hloop.
  { clear. induction reqs as [|r reqs IH]; intros c0 c1 parent pends pends' Hrec;
      simpl in Hrec.
    - by injection Hrec as <- _.
    - destruct (bool_decide (ID r = "")); simpl in Hrec.
      + by eapply IH.
      + by apply IH in Hrec. }
  unfold send. case_bool_decide; [by intros [= <- _]|].
  destruct (err env c) eqn:He; [by intros [= <- _]|].
  destruct (duplicate _ _); [by intros [= <- _]|].
  destruct (Marshal_reqs env _); [|by intros [= <- _]].
  destruct (ch env c) eqn:Hch; [|done].
  destruct (chan_Send env _ _) as [chn [e'|]]; [by intros [= <- _]|].
  destruct (record_pending _ _ _ _) as [c2 pends2] eqn:Hrec.
  intros [= <- _]. apply Hloop in Hrec. simpl in Hrec.
  by rewrite He, Hch in Hrec.
Qed.

(** [Notify] on a sound client returns and leaves registry and heap. *)
Lemma Notify_sound (c : Client) ctx method p :
  sound c →
  ∃ c' oe, Notify env c ctx method p = Done (c', oe)
           ∧ pending c' = pending c ∧ heap c' = heap c ∧ sound c'
           ∧ err env c' = err env c ∧ ch env c' = ch env c.
Proof.
  intros Hc. unfold Notify. destruct (note env ctx method p) as [r|e] eqn:Hn.
  - assert (ID r = "") as Hid.
    { unfold note in Hn. destruct (marshalParams _ _ _ _); [|done].
      by injection Hn as <-. }
    destruct (send_returns c ctx [r] Hc) as (c' & res & Hs).
    rewrite Hs. simpl. exists c'. eexists. split; [done|].
    pose proof (send_sound _ _ _ _ _ Hs Hc) as Hc'.
    destruct res as [pends|e].
    + destruct (send_Ok _ _ _ _ _ Hs) as (b & chn & _ & _ & Hrec).
      pose proof (record_pending_shape _ _ _ _ _ _ Hrec) as [Hh _].
      assert (ids_of [r] = []) as Hids.
      { rewrite ClientSpec.ids_of_cons, Hid. done. }
      rewrite Hids in Hh. simpl in Hh. rewrite app_nil_r in Hh.
      assert (pending c' = pending c) as Hp.
      { apply map_eq. intros k.
        rewrite (record_pending_other _ _ _ _ _ _ k Hrec); [done|].
        rewrite Hids. apply not_elem_of_nil. }
      repeat (split; [done|]).
      by apply send_keeps in Hs as (? & ? & _).
    + destruct (ClientSpec.send_error_frame env _ _ _ _ _ Hs) as (Hp & Hh & _).
      repeat (split; [done|]).
      by apply send_keeps in Hs as (? & ? & _).
  - exists c. eexists. split; [reflexivity|]. by repeat (split; [done|]).
Qed.

(** X10.  When the context of a pending request ends before its response
    has come, the watcher takes the entry out of the registry and hands the
    caller an error with the code and the text of the cause, so that [Call]
    returns [context.Canceled] for a cancelled context and
    [context.DeadlineExceeded] for an expired one; a response that comes
    later is dropped. *)
Theorem cancellation_wins (c : Client) i p r cause :
  sound c →
  pending c !! i = Some p →
  heap c !! p = Some r →
  ctx_err r = Some cause →
  ∃ c' r',
    waitComplete env c i p = Done c'
    ∧ sound c'
    ∧ pending c' = delete i (pending c)
    ∧ heap c' !! p = Some r'
    ∧ rch r' = Open (Some {| rsp_V := ""; rsp_ID := i;
                             rsp_E := Some {| E_C := code_FromError cause;
                                              E_M := Go.Sprintf (text cause) [];
                                              E_D := "" |};
                             rsp_R := ""; rsp_M := ""; rsp_P := "" |})
    ∧ (cause = Canceled ∨ cause = DeadlineExceeded →
       ∃ c'', Call_wait env c' p = Done (c'', Err cause))
    ∧ (∀ rsp, fixID env (rsp_ID rsp) = i → deliver env c' rsp = Done c').
Proof.
  intros Hc Hi Hp Hcause.
  set (msg := {| rsp_V := ""; rsp_ID := i;
                 rsp_E := Some (jerrorf (code_FromError cause) (text cause) []);
                 rsp_R := ""; rsp_M := ""; rsp_P := "" |}).
  destruct (put_removed_sound c i p msg Hc Hi)
    as (c1 & r0 & Hput & Hr0 & Hpend & Hheap & _ & _ & _ & _ & Hallow & Hs1).
  assert (r0 = r) as -> by congruence.
  assert (heap c1 !! p
          = Some {| rch := Open (Some msg); id := id r; ctx_err := ctx_err r;
                    r_err := r_err r; r_result := r_result r |}) as Hp1.
  { rewrite Hheap. apply list_lookup_insert_eq. by eapply lookup_lt_Some. }
  assert (∃ c', waitComplete env c i p = Done c'
                ∧ pending c' = pending c1 ∧ heap c' = heap c1 ∧ sound c')
    as (c' & Hw & Hp' & Hh' & Hs').
  { unfold waitComplete. rewrite Hp, Hcause, Hi.
    rewrite bool_decide_true by done. fold msg. rewrite Hput. simpl.
    destruct (allowC env c1).
    - destruct (Notify_sound c1 (Background env) "rpc.cancel"
                  (Marshals ("[" +:+ i +:+ "]")) Hs1)
        as (c' & oe & -> & ? & ? & ? & _). simpl. eauto.
    - eauto. }
  exists c'. eexists. split; [exact Hw|]. split; [exact Hs'|].
  split; [congruence|]. split; [by rewrite Hh'|]. split; [done|]. split.
  - intros Hsentinel. unfold Call_wait. rewrite Hh', Hp1. unfold wait. simpl.
    eexists. f_equal. f_equal. unfold Call_result. simpl.
    by destruct Hsentinel as [-> | ->].
  - intros rsp Hrsp. apply deliver_discards.
    + rewrite Hrsp. by destruct (proj1 Hc i p Hi).
    + rewrite Hrsp, Hp', Hpend. apply lookup_delete_eq.
Qed.


(** X12.  Of several calls of [stop] only the first has an effect, the
    error it records included; so closing a client twice is closing it
    once, with the same result. *)
Theorem stop_first_wins (c : Client) e1 e2 :
  stop env (stop env c e1) e2 = stop env c e1
  ∧ Close env (fst (Close env c)) = Close env c
  ∧ (ch env c = true → err env (stop env c e1) = Some e1).
Proof.
  assert (∀ e e', stop env (stop env c e) e' = stop env c e) as Hstop.
  { intros e e'. apply ClientSpec.stop_stopped.
    destruct (ch env c) eqn:Hch.
    - by destruct (ClientSpec.stop_running env c e Hch) as (_ & -> & _).
    - by rewrite (ClientSpec.stop_stopped env c e Hch). }
  split; [apply Hstop|]. split.
  - unfold Close. simpl. by rewrite Hstop.
  - intros Hch. by destruct (ClientSpec.stop_running env c e1 Hch) as (_ & _ & -> & _).
Qed.

(** X13.  A client that has an error recorded, as a client that was
    closed or whose reader failed has, turns down every batch with that
    error and hands nothing to the channel; a call on it still uses up an
    ID before it is turned down. *)
Theorem stopped_client_refuses (c : Client) e ctx :
  err env c = Some e →
  (∀ reqs, reqs ≠ [] → send c ctx reqs = Done (c, Err e))
  ∧ (∀ method p bits,
       marshalParams env ctx method p = Ok bits →
       Call_send env c ctx method p
       = Done (set_nextID env c (Go.wrap64 (nextID c + 1)), Err e)
       ∧ Notify env c ctx method p = Done (c, Some e))
  ∧ (∀ specs c' res,
       Batch_send env c ctx specs = Done (c', res) →
       ∃ e', res = Err e' ∧ sends c' = sends c ∧ pending c' = pending c).
Proof.
  intros He.
  assert (∀ (c0 : Client) reqs,
            err env c0 = Some e → reqs ≠ [] → send c0 ctx reqs = Done (c0, Err e))
    as Hsend.
  { intros c0 reqs He0 Hne. unfold send.
    rewrite bool_decide_false by (by destruct reqs). by rewrite He0. }
  split; [intros reqs Hne; by apply Hsend|]. split.
  - intros method p bits Hp. split.
    + unfold Call_send. rewrite (ClientSpec.req_ok env _ _ _ _ _ Hp).
      by rewrite Hsend.
    + unfold Notify, note. rewrite Hp. by rewrite Hsend.
  - intros specs c' res. unfold Batch_send.
    destruct (Batch_reqs env c ctx specs) as [c1 [reqs|e1]] eqn:Hb.
    + pose proof (ClientSpec.Batch_reqs_frame env ctx specs _ _ _ Hb)
        as (Hs & _ & Hp & _).
      assert (err env c1 = Some e) as He1.
      { clear Hs Hp. revert c c1 reqs He Hb.
        induction specs as [|sp specs IH]; intros c c1 reqs He Hb; simpl in Hb.
        - by injection Hb as <- _.
        - destruct (if IsNotify sp then _ else _) as [c2 [r|e2]] eqn:Hstep;
            [|done].
          assert (err env c2 = Some e) as He2.
          { destruct (IsNotify sp); [by injection Hstep as <- _|].
            unfold req in Hstep. destruct (marshalParams _ _ _ _);
              by injection Hstep as <- _. }
          destruct (Batch_reqs env c2 ctx specs) as [c3 [rs|e3]] eqn:Hrest;
            [|done].
          injection Hb as <- _. by eapply IH. }
      destruct reqs as [|r reqs].
      * unfold send. simpl. intros [= <- <-]. eauto.
      * rewrite (Hsend c1 (r :: reqs) He1) by done. intros [= <- <-]. eauto.
    + intros [= <- <-]. exists e1. split; [done|].
      by apply ClientSpec.Batch_reqs_frame in Hb as (? & _ & ? & _).
Qed.

(** X14.  When the channel fails to deliver a message, or delivers one
    that does not decode, [accept] stops the running client with that
    error, cancelling the context of every pending response; [Close] then
    reports that error, unless it is EOF or a channel-closing error. *)
Theorem reader_failure (c : Client) recv e :
  ch env c = true →
  (recv = Err e ∨ ∃ bits, recv = Ok bits ∧ Unmarshal_rsps env bits = Err e) →
  accept env c recv = Done (stop env c e, Some e)
  ∧ err env (stop env c e) = Some e
  ∧ (∀ i p r, pending c !! i = Some p → heap c !! p = Some r →
              heap (stop env c e) !! p = Some (cancel r))
  ∧ Close env (stop env c e)
    = (stop env c e,
       if bool_decide (e = EOF ∨ IsErrClosing env e = true ∨ e = errClientStopped)
       then None else Some e).
Proof.
  intros Hch Hrecv.
  destruct (ClientSpec.stop_running env c e Hch)
    as (_ & Hch' & Herr & _ & _ & _ & Hcancel).
  split; [|split; [done|split; [done|]]].
  - unfold accept. destruct Hrecv as [->|(bits & -> & ->)]; done.
  - pose proof (ClientSpec.Close_returns env (stop env c e)) as [_ Hret].
    specialize (Hret e Hch' Herr).
    unfold Close in *. simpl in *.
    rewrite (ClientSpec.stop_stopped env _ _ Hch') in *. by rewrite Hret.
Qed.

(** *** Batches *)

Lemma FormatInt_nonempty z : Go.FormatInt z ≠ "".
Proof.
  destruct (ClientSpec.FormatInt_head z) as (b & s & -> & _). done.
Qed.

(** How a spec and the request made for it go together. *)
Lemma Batch_reqs_shape ctx specs :
  ∀ (c c' : Client) reqs,
    Batch_reqs env c ctx specs = (c', Ok reqs) →
    Forall2 (λ sp r, M r = Method sp ∧ V r = Version
                     ∧ (ID r = "" ↔ IsNotify sp = true)
                     ∧ marshalParams env ctx (Method sp) (Params sp)
                       = Ok (P r)) specs reqs.
Proof.
  induction specs as [|sp specs IH]; intros c c' reqs; simpl.
  - intros [= _ <-]. constructor.
  - destruct (if IsNotify sp then _ else _) as [c1 [r|e]] eqn:Hstep; [|done].
    destruct (Batch_reqs env c1 ctx specs) as [c2 [rs|e]] eqn:Hrest; [|done].
    intros [= _ <-]. constructor; [|by eapply IH].
    destruct (IsNotify sp) eqn:Hn.
    + injection Hstep as _ Hnote. unfold note in Hnote.
      destruct (marshalParams _ _ _ _); [|done]. by injection Hnote as <-.
    + unfold req in Hstep. destruct (marshalParams _ _ _ _); [|done].
      injection Hstep as _ <-. simpl. repeat split; [|done].
      intros H. by apply FormatInt_nonempty in H.
Qed.

Lemma ids_of_length ctx specs reqs :
  Forall2 (λ sp r, M r = Method sp ∧ V r = Version
                   ∧ (ID r = "" ↔ IsNotify sp = true)
                   ∧ marshalParams env ctx (Method sp) (Params sp)
                     = Ok (P r)) specs reqs →
  length (ids_of reqs) = length (filter (λ sp, IsNotify sp = false) specs).
Proof.
  induction 1 as [|sp r specs reqs (_ & _ & Hid & _) _ IH]; [done|].
  rewrite ClientSpec.ids_of_cons, filter_cons.
  case_bool_decide as Hr; case_decide as Hn; simpl; try lia.
  - apply Hid in Hr. congruence.
  - destruct (IsNotify sp); [|done]. destruct Hr. by apply Hid.
Qed.

(** X15.  A batch of no specs is turned down with the error of the empty
    batch.  A batch that is sent has handed one frame to the channel, the
    marshaled list of one request for each spec, in the order of the
    specs: each with the method of its spec, the version 2.0, the
    parameters of the spec as [marshalParams] encodes them, and an ID
    exactly when the spec is not a notification.  It returns one pending
    response for each spec that is not a notification, in the order of
    the specs, each with the ID of its request. *)
Theorem Batch_responses (c : Client) ctx :
  Batch_send env c ctx [] = Done (c, Err (New "empty request batch"))
  ∧ ∀ specs c' pends,
      Batch_send env c ctx specs = Done (c', Ok pends) →
      ∃ reqs b,
        Forall2 (λ sp r, M r = Method sp ∧ V r = Version
                         ∧ (ID r = "" ↔ IsNotify sp = true)
                         ∧ marshalParams env ctx (Method sp) (Params sp)
                           = Ok (P r)) specs reqs
        ∧ Marshal_reqs env reqs = Ok b
        ∧ sends c' = sends c ++ [b]
        ∧ length pends = length (filter (λ sp, IsNotify sp = false) specs)
        ∧ ∀ j p, pends !! j = Some p →
                 ∃ i, ids_of reqs !! j = Some i
                      ∧ heap c' !! p = Some (newPending (ctx_Err env ctx) i).
Proof.
  split; [done|].
  intros specs c' pends. unfold Batch_send.
  destruct (Batch_reqs env c ctx specs) as [c1 [reqs|e]] eqn:Hb; [|done].
  intros Hs. exists reqs.
  pose proof (Batch_reqs_shape _ _ _ _ _ Hb) as Hshape.
  pose proof (ClientSpec.Batch_reqs_frame env _ _ _ _ _ Hb)
    as (Hsends & _).
  destruct (send_Ok _ _ _ _ _ Hs) as (b & chn & Hmarshal & _ & Hrec).
  pose proof (record_pending_shape _ _ _ _ _ _ Hrec) as [Hheap Hpends].
  pose proof (ClientSpec.record_pending_frame env _ _ _ _ _ _ Hrec)
    as (Hsent & _).
  simpl in Hheap, Hpends, Hsent.
  exists b. split; [done|]. split; [done|].
  split; [by rewrite Hsent, Hsends|]. split.
  - by rewrite Hpends, length_seq, (ids_of_length ctx specs).
  - intros j p Hj. rewrite Hpends in Hj.
    apply lookup_seq in Hj as [-> Hlt].
    destruct (lookup_lt_is_Some_2 (ids_of reqs) j Hlt) as [i Hi].
    exists i. split; [done|].
    rewrite Hheap, lookup_app_r by lia.
    replace (length (heap c1) + j - length (heap c1))%nat with j by lia.
    by rewrite list_lookup_fmap, Hi.
Qed.

End WithEnv.

End ClientMore.

(* ===================================================================== *)
(** * The further properties of the client on concrete clients *)
(* ===================================================================== *)

Module ClientMoreCases.

Import jrpc2 fixtures notions.

Lemma in_flight_sound cancel_ok cause :
  sound (pipe None) (in_flight cancel_ok cause).
Proof.
  split; [|split]; simpl.
  - intros i p Hi. apply lookup_singleton_Some in Hi as [<- <-].
    split; [done|]. eexists. split; reflexivity.
  - intros i j p Hi Hj.
    apply lookup_singleton_Some in Hi as [<- _].
    by apply lookup_singleton_Some in Hj as [<- _].
  - discriminate.
Qed.


(** The witness of X7: the first request of a new client. *)
Lemma send_records_witness :
  let env := pipe None in
  let c := NewClient env [] false false in
  ∃ c', send env c tt [add_request] = Done (c', Ok [0%nat])
        ∧ heap env c' = [newPending None "1"]
        ∧ pending env c' !! "1" = Some 0%nat
        ∧ pending env c' !! "2" = None.
Proof.
  intros env c. eexists. split; [reflexivity|].
  edestruct (ClientMore.send_records env c _ tt [add_request] [0%nat] eq_refl)
    as (_ & Hheap & _ & Hlast & Hother).
  split; [exact Hheap|]. split.
  - apply (Hlast 0%nat "1"); [reflexivity|]. simpl. apply not_elem_of_nil.
  - rewrite Hother; [reflexivity|].
    intros H. apply list_elem_of_singleton in H. discriminate H.
Defined.


(** The witness of X9: the result of the call in flight comes, twice,
    and then a notification. *)
Lemma deliver_once_witness :
  let env := pipe None in
  ∃ c', deliver env (in_flight false None) result_five = Done c'
        ∧ pending env c' = ∅
        ∧ deliver env c' result_five = Done c'
        ∧ deliver env c' progress_note = Done c'.
Proof.
  intros env.
  destruct (proj2 (proj2 (ClientMore.deliver_once env (in_flight false None)
                            result_five))
              0%nat (in_flight_sound false None) eq_refl)
    as (c' & r & Hd & _ & Hp & _ & _ & Hagain & _).
  exists c'. split; [exact Hd|]. split; [|split].
  - rewrite Hp. reflexivity.
  - apply Hagain. reflexivity.
  - exact (proj1 (ClientMore.deliver_once env c' progress_note) eq_refl).
Defined.

(** The witness of X10: the deadline of the call in flight passes. *)
Lemma cancellation_wins_witness :
  let env := pipe None in
  ∃ c' c'',
    waitComplete env (in_flight false (Some DeadlineExceeded)) "1" 0 = Done c'
    ∧ Call_wait env c' 0 = Done (c'', Err DeadlineExceeded).
Proof.
  intros env.
  destruct (ClientMore.cancellation_wins env
              (in_flight false (Some DeadlineExceeded)) "1" 0%nat _
              DeadlineExceeded
              (in_flight_sound false _)
              eq_refl eq_refl eq_refl)
    as (c' & r' & Hw & _ & _ & _ & _ & Hcall & _).
  destruct (Hcall (or_intror eq_refl)) as [c'' Hc].
  exists c', c''. split; [exact Hw|exact Hc].
Defined.


(** The witness of X12: a reader that meets the end of the input stops a
    new client. *)
Lemma stop_first_wins_witness :
  let env := pipe None in
  err env (stop env (NewClient env [] false false) EOF) = Some EOF.
Proof.
  intros env.
  exact (proj2 (proj2 (ClientMore.stop_first_wins env
                         (NewClient env [] false false) EOF EOF)) eq_refl).
Defined.

(** The witness of X13: a request on a client that was closed. *)
Lemma stopped_client_refuses_witness :
  let env := pipe None in
  let c := fst (Close env (NewClient env [] false false)) in
  send env c tt [add_request] = Done (c, Err errClientStopped).
Proof.
  intros env c.
  apply (proj1 (ClientMore.stopped_client_refuses env c errClientStopped tt
                  eq_refl)).
  discriminate.
Defined.

(** The witness of X14: the connection of a new client is reset. *)
Lemma reader_failure_witness :
  let env := pipe None in
  let c := NewClient env [] false false in
  let e := Foreign "connection reset by peer" in
  accept env c (Err e) = Done (stop env c e, Some e)
  ∧ Close env (stop env c e) = (stop env c e, Some e).
Proof.
  intros env c e.
  destruct (ClientMore.reader_failure env c (Err e) e eq_refl
              (or_introl eq_refl)) as (Ha & _ & _ & Hc).
  split; [exact Ha|]. rewrite Hc. reflexivity.
Defined.

(** The witness of X15: a request and a notification in one batch. *)
Lemma Batch_responses_witness :
  let env := pipe None in
  let c := NewClient env [] false false in
  let specs := [ {| Method := "Add"; Params := Marshals "[2,3]";
                    IsNotify := false |};
                 {| Method := "Log"; Params := NoParams; IsNotify := true |} ] in
  ∃ c', Batch_send env c tt specs = Done (c', Ok [0%nat])
        ∧ length (filter (λ sp, IsNotify sp = false) specs) = 1%nat
        ∧ (∃ reqs b, M <$> reqs = ["Add"; "Log"]
                     ∧ Marshal_reqs env reqs = Ok b
                     ∧ sends env c' = [b])
        ∧ ∃ i, heap env c' !! 0%nat = Some (newPending None i).
Proof.
  intros env c specs. eexists. split; [reflexivity|].
  edestruct (proj2 (ClientMore.Batch_responses env c tt) specs _ [0%nat]
               eq_refl) as (reqs & b & Hshape & Hb & Hsends & Hlen & Hj).
  split; [symmetry; exact Hlen|]. split.
  - exists reqs, b. split; [|split; [exact Hb|exact Hsends]].
    inversion Hshape as [|sp1 r1 ? ? (H1 & _) Hrest]; subst.
    inversion Hrest as [|sp2 r2 ? ? (H2 & _) Hnil]; subst.
    inversion Hnil; subst. simpl. by rewrite H1, H2.
  - destruct (Hj 0%nat 0%nat eq_refl) as (i & _ & Hi).
    exists i. exact Hi.
Defined.

End ClientMoreCases.

(* ===================================================================== *)
(** * Further properties of the assigners *)
(* ===================================================================== *)

Module AssignerMore.

Import jrpc2 handler fixtures notions.

(** ** The order of [sort.Strings] *)

Lemma ascii_compare_refl a : Ascii.compare a a = Eq.
Proof. unfold Ascii.compare. apply N.compare_refl. Qed.

Lemma ascii_compare_trans a b c o :
  Ascii.compare a b = o → Ascii.compare b c = o → Ascii.compare a c = o.
Proof.
  unfold Ascii.compare. destruct o.
  - rewrite !N.compare_eq_iff. congruence.
  - rewrite !N.compare_lt_iff. lia.
  - rewrite !N.compare_gt_iff. lia.
Qed.

Lemma ascii_compare_Eq a b : Ascii.compare a b = Eq → a = b.
Proof. apply Ascii.compare_eq_iff. Qed.

Lemma string_compare_trans s1 :
  ∀ s2 s3 o,
    String.compare s1 s2 = o → String.compare s2 s3 = o →
    String.compare s1 s3 = o.
Proof.
  induction s1 as [|a s1 IH]; intros [|b s2] [|c s3] o; simpl; try congruence.
  destruct (Ascii.compare a b) eqn:Hab.
  - apply ascii_compare_Eq in Hab. subst b.
    destruct (Ascii.compare a c); [apply IH|congruence|congruence].
  - destruct (Ascii.compare b c) eqn:Hbc; [| |congruence].
    + apply ascii_compare_Eq in Hbc. subst c. by rewrite Hab.
    + by rewrite (ascii_compare_trans a b c Lt).
  - destruct (Ascii.compare b c) eqn:Hbc; [|congruence|].
    + apply ascii_compare_Eq in Hbc. subst c. by rewrite Hab.
    + by rewrite (ascii_compare_trans a b c Gt).
Qed.

#[local] Instance string_le_trans : Transitive string_le.
Proof.
  intros s1 s2 s3. unfold string_le, String.leb.
  destruct (String.compare s1 s2) eqn:H12; [| |done];
    destruct (String.compare s2 s3) eqn:H23; try done; intros _ _.
  - by rewrite (string_compare_trans s1 s2 s3 Eq).
  - apply String.compare_eq_iff in H12. subst. by rewrite H23.
  - apply String.compare_eq_iff in H23. subst. by rewrite H12.
  - by rewrite (string_compare_trans s1 s2 s3 Lt).
Qed.

#[local] Instance string_le_total : Total string_le.
Proof. intros s1 s2. apply String.leb_total. Qed.

#[local] Instance string_le_antisym : AntiSymm eq string_le.
Proof. intros s1 s2. apply String.leb_antisym. Qed.

Lemma sort_Strings_sorted l : StronglySorted string_le (sort_Strings l).
Proof. apply StronglySorted_merge_sort; apply _. Qed.

Lemma sort_Strings_perm l : sort_Strings l ≡ₚ l.
Proof. apply merge_sort_Permutation. Qed.

(** The sorted list does not depend on the order the names came in. *)
Lemma sort_Strings_order l1 l2 : l1 ≡ₚ l2 → sort_Strings l1 = sort_Strings l2.
Proof.
  intros H.
  apply (StronglySorted_unique string_le);
    [apply sort_Strings_sorted|apply sort_Strings_sorted|].
  by rewrite !sort_Strings_perm.
Qed.

Lemma collect_names {A} (f : A → string) (l : list A) acc :
  foldl (λ names x, names ++ [f x]) acc l = acc ++ (f <$> l).
Proof.
  revert acc. induction l as [|x l IH]; intros acc; simpl.
  - by rewrite app_nil_r.
  - rewrite IH. by rewrite <- app_assoc.
Qed.

Section WithHandler.

Variable Handler : Type.

Local Abbreviation Service := (Service Handler).

(** The assigners a map of services holds. *)
Local Abbreviation assigners :=
  (fmap (M := gmap string) (λ s : option Service, assigner Handler <$> s)).

(** X16.  An entry of a [ServiceMap] whose key contains a dot is never
    consulted by [Assign]: with or without it, every method name is
    assigned the same. *)
Theorem dotted_service_unreachable
    (m : gmap string (option (Assigner Handler))) svc a method :
  occurs "." svc = true →
  ServiceMap_Assign Handler (<[svc := a]> m) method
  = ServiceMap_Assign Handler m method.
Proof.
  intros Hsvc.
  destruct (AssignerSpec.cut_cases "." method) as [Hno|(b & c & -> & Hb)].
  - by rewrite !AssignerSpec.ServiceMap_Assign_nodot.
  - rewrite !AssignerSpec.ServiceMap_Assign_dot by done.
    rewrite lookup_insert_ne; [done|]. intros <-. congruence.
Qed.

Lemma Map_Names_perm order (m : gmap string (option Handler)) :
  order m ≡ₚ map_to_list m →
  Map_Names Handler order m ≡ₚ (map_to_list m).*1.
Proof.
  intros H. unfold Map_Names. rewrite sort_Strings_perm, collect_names.
  simpl. by rewrite H.
Qed.

Lemma Map_Names_elem order (m : gmap string (option Handler)) name :
  order m ≡ₚ map_to_list m →
  name ∈ Map_Names Handler order m ↔ is_Some (m !! name).
Proof.
  intros H. rewrite (Map_Names_perm order m H).
  rewrite list_elem_of_fmap. split.
  - intros ([k h] & -> & Hin). apply elem_of_map_to_list in Hin. by exists h.
  - intros [h Hh]. exists (name, h). split; [done|].
    by apply elem_of_map_to_list.
Qed.

Lemma Map_Assign_Some (m : gmap string (option Handler)) name h :
  Map_Assign Handler m name = Done (Some h) ↔ m !! name = Some (Some h).
Proof.
  unfold Map_Assign. destruct (m !! name) as [[h'|]|]; simpl; split;
    intros H; try done; by injection H as ->.
Qed.

(** X17.  [Map.Names] lists the keys of the map, each once, in increasing
    byte order, whatever order the map is visited in.  [Assign] finds a
    handler for a name exactly when the map holds one that is not nil
    under it; so a name is listed exactly when [Assign] finds a handler
    for it or the map holds the nil handler under it. *)
Theorem Map_Names_lists_keys order (m : gmap string (option Handler)) :
  order m ≡ₚ map_to_list m →
  StronglySorted string_le (Map_Names Handler order m)
  ∧ NoDup (Map_Names Handler order m)
  ∧ Map_Names Handler order m = Map_Names Handler map_to_list m
  ∧ (∀ name, name ∈ Map_Names Handler order m ↔ is_Some (m !! name))
  ∧ (∀ name h, Map_Assign Handler m name = Done (Some h)
               ↔ m !! name = Some (Some h))
  ∧ (∀ name, name ∈ Map_Names Handler order m
             ↔ (∃ h, Map_Assign Handler m name = Done (Some h))
               ∨ m !! name = Some None).
Proof.
  intros H. split; [apply sort_Strings_sorted|].
  split; [|split; [|split; [|split]]].
  - rewrite (Map_Names_perm order m H). apply NoDup_fst_map_to_list.
  - unfold Map_Names. apply sort_Strings_order.
    rewrite !collect_names. simpl. by rewrite H.
  - intros name. by apply Map_Names_elem.
  - apply Map_Assign_Some.
  - intros name. rewrite (Map_Names_elem order m name H). split.
    + intros [[h|] Hh]; [left|by right]. exists h. by apply Map_Assign_Some.
    + intros [[h Hh]|Hnil]; [|by eexists].
      apply Map_Assign_Some in Hh. by eexists.
Qed.

(** ** The names of a service map *)

Lemma ServiceMap_range_done (entries : list (string * option Service)) :
  ∀ all,
    (∀ svc s, (svc, s) ∈ entries →
              ∃ a names, s = Some a ∧ Names Handler a = Done names) →
    ServiceMap_range Handler entries all = Done (all ++ (entries ≫= listed)).
Proof.
  induction entries as [|[svc s] entries IH]; intros all Hall; simpl.
  - by rewrite app_nil_r.
  - destruct (Hall svc s) as (a & names & -> & Hnames);
      [apply list_elem_of_here|].
    rewrite Hnames. simpl. rewrite IH.
    + rewrite collect_names. unfold listed at 2. simpl. rewrite Hnames.
      by rewrite <- app_assoc.
    + intros svc' s' Hin. apply (Hall svc' s'). by apply list_elem_of_further.
Qed.

Lemma ServiceMap_range_nil (entries : list (string * option Service)) :
  ∀ all,
    (∀ svc a, (svc, Some a) ∈ entries →
              ∃ names, Names Handler a = Done names) →
    (∃ svc, (svc, None) ∈ entries) →
    ServiceMap_range Handler entries all = Panic.
Proof.
  induction entries as [|[svc s] entries IH]; intros all Hall [svc0 Hnil].
  - by apply elem_of_nil in Hnil.
  - simpl. destruct s as [a|]; [|done].
    destruct (Hall svc a) as [names ->]; [apply list_elem_of_here|].
    simpl. apply IH.
    + intros svc' a' Hin. apply (Hall svc' a'). by apply list_elem_of_further.
    + exists svc0. apply elem_of_cons in Hnil as [[= _ ?]|?]; done.
Qed.

Lemma listed_elem (m : gmap string (option Service)) x :
  x ∈ map_to_list m ≫= listed
  ↔ ∃ svc a names name,
      m !! svc = Some (Some a) ∧ Names Handler a = Done names
      ∧ name ∈ names ∧ x = dotted svc name.
Proof.
  rewrite list_elem_of_bind. split.
  - intros ([svc s] & Hx & Hin). apply elem_of_map_to_list in Hin.
    unfold listed in Hx. simpl in Hx.
    destruct s as [a|]; [|by apply elem_of_nil in Hx].
    destruct (Names Handler a) as [names| |] eqn:Hnames;
      try (by apply elem_of_nil in Hx).
    apply list_elem_of_fmap in Hx as (name & -> & Hname).
    by exists svc, a, names, name.
  - intros (svc & a & names & name & Hm & Hnames & Hname & ->).
    exists (svc, Some a). split; [|by apply elem_of_map_to_list].
    unfold listed. simpl. rewrite Hnames.
    apply list_elem_of_fmap. by exists name.
Qed.

(** What [ServiceMap.Names] returns when every service is there and
    lists its names. *)
Lemma ServiceMap_Names_done order (m : gmap string (option Service)) :
  order m ≡ₚ map_to_list m →
  (∀ svc s, m !! svc = Some s →
            ∃ a names, s = Some a ∧ Names Handler a = Done names) →
  ServiceMap_Names Handler order m
  = Done (sort_Strings (map_to_list m ≫= listed)).
Proof.
  intros Horder Hall. unfold ServiceMap_Names.
  rewrite ServiceMap_range_done.
  - simpl. f_equal. apply sort_Strings_order. by rewrite Horder.
  - intros svc s Hin. apply (Hall svc s).
    apply elem_of_map_to_list. by rewrite <- Horder.
Qed.

(** X18.  When every service of a [ServiceMap] lists its names,
    [ServiceMap.Names] returns, in increasing byte order and whatever
    order the map is visited in, exactly the names [svc.name] for a key
    [svc] of the map and a [name] its service lists.  When a nil assigner
    is registered under a key, it faults. *)
Theorem ServiceMap_Names_lists order (m : gmap string (option Service)) :
  order m ≡ₚ map_to_list m →
  ((∀ svc s, m !! svc = Some s →
             ∃ a names, s = Some a ∧ Names Handler a = Done names) →
   ∃ all,
     ServiceMap_Names Handler order m = Done all
     ∧ ServiceMap_Names Handler map_to_list m = Done all
     ∧ StronglySorted string_le all
     ∧ ∀ x, x ∈ all
            ↔ ∃ svc a names name,
                m !! svc = Some (Some a) ∧ Names Handler a = Done names
                ∧ name ∈ names ∧ x = dotted svc name)
  ∧ ((∀ svc a, m !! svc = Some (Some a) →
               ∃ names, Names Handler a = Done names) →
     (∃ svc, m !! svc = Some None) →
     ServiceMap_Names Handler order m = Panic).
Proof.
  intros Horder. split.
  - intros Hall. eexists. split; [by apply ServiceMap_Names_done|].
    split; [by apply ServiceMap_Names_done|].
    split; [apply sort_Strings_sorted|].
    intros x. by rewrite sort_Strings_perm, listed_elem.
  - intros Hall [svc Hnil]. unfold ServiceMap_Names.
    rewrite ServiceMap_range_nil; [done| |].
    + intros svc' a Hin. apply (Hall svc' a).
      apply elem_of_map_to_list. by rewrite <- Horder.
    + exists svc. rewrite Horder. by apply elem_of_map_to_list.
Qed.

(** X19.  In a [ServiceMap] whose keys have no dot and whose services
    are [Map]s, every method name that [Assign] finds a handler for is
    listed by [Names]; the names that are listed without [Assign] finding
    a handler are exactly those under which a [Map] holds the nil
    handler. *)
Theorem Names_cover_Assign order leaf_order
    (m : gmap string (option Service)) :
  order m ≡ₚ map_to_list m →
  (∀ leaf, leaf_order leaf ≡ₚ map_to_list leaf) →
  (∀ svc s, m !! svc = Some s →
            occurs "." svc = false
            ∧ ∃ leaf, s = Some (Map_Service Handler leaf_order leaf)) →
  ∃ all,
    ServiceMap_Names Handler order m = Done all
    ∧ ∀ x, x ∈ all
           ↔ (∃ h, ServiceMap_Assign Handler (assigners m) x = Done (Some h))
             ∨ (∃ svc leaf name,
                  x = dotted svc name
                  ∧ m !! svc = Some (Some (Map_Service Handler leaf_order leaf))
                  ∧ leaf !! name = Some None
                  ∧ ServiceMap_Assign Handler (assigners m) x = Done None).
Proof.
  intros Horder Hleaf Hm. eexists. split.
  { apply ServiceMap_Names_done; [done|].
    intros svc s Hs. destruct (Hm svc s Hs) as (_ & leaf & ->).
    by eexists _, _. }
  assert (∀ svc leaf name,
            m !! svc = Some (Some (Map_Service Handler leaf_order leaf)) →
            ServiceMap_Assign Handler (assigners m) (dotted svc name)
            = Done (default None (leaf !! name))) as Hassign.
  { intros svc leaf name Hsvc. destruct (Hm svc _ Hsvc) as (Hdot & _).
    change (dotted svc name) with (svc +:+ String "." name).
    rewrite AssignerSpec.ServiceMap_Assign_dot by done.
    by rewrite lookup_fmap, Hsvc. }
  intros x. rewrite sort_Strings_perm, listed_elem. split.
  - intros (svc & a & names & name & Hsvc & Hnames & Hname & ->).
    destruct (Hm svc _ Hsvc) as (Hdot & leaf & [= ->]).
    simpl in Hnames. injection Hnames as <-.
    apply (Map_Names_elem leaf_order leaf name (Hleaf leaf)) in Hname
      as [[h|] Hh].
    + left. exists h. by rewrite (Hassign svc leaf name Hsvc), Hh.
    + right. exists svc, leaf, name. repeat split; try done.
      by rewrite (Hassign svc leaf name Hsvc), Hh.
  - intros [[h Hx]|(svc & leaf & name & -> & Hsvc & Hnil & _)].
    + destruct (AssignerSpec.cut_cases "." x) as [Hno|(b & c & -> & Hb)].
      * by rewrite AssignerSpec.ServiceMap_Assign_nodot in Hx.
      * rewrite AssignerSpec.ServiceMap_Assign_dot in Hx by done.
        rewrite lookup_fmap in Hx.
        destruct (m !! b) as [s|] eqn:Hs; simpl in Hx; [|done].
        destruct (Hm b s Hs) as (_ & leaf & ->).
        simpl in Hx. apply Map_Assign_Some in Hx.
        exists b, (Map_Service Handler leaf_order leaf),
          (Map_Names Handler leaf_order leaf), c.
        split; [done|]. split; [reflexivity|]. split; [|done].
        apply (Map_Names_elem leaf_order leaf c (Hleaf leaf)). by eexists.
    + exists svc, (Map_Service Handler leaf_order leaf),
        (Map_Names Handler leaf_order leaf), name.
      split; [done|]. split; [reflexivity|]. split; [|done].
      apply (Map_Names_elem leaf_order leaf name (Hleaf leaf)). by eexists.
Qed.

End WithHandler.

(** The witness of X16: a service registered as [a.b] is not found. *)
Lemma dotted_service_unreachable_witness :
  let math : gmap string (option nat) := {[ "add" := Some 1%nat ]} in
  ServiceMap_Assign nat {[ "a.b" := Some (Map_Assigner nat math) ]} "a.b.add"
  = Done None.
Proof.
  intros math.
  rewrite <- insert_empty.
  rewrite (dotted_service_unreachable nat ∅ "a.b" _ "a.b.add" eq_refl).
  reflexivity.
Defined.

(** The witness of X17: two methods and a name with the nil handler,
    listed in order. *)
Lemma Map_Names_lists_keys_witness :
  let m : gmap string (option nat) :=
    {[ "sub" := Some 2%nat; "add" := Some 1%nat; "mul" := None ]} in
  Map_Names nat map_to_list m = ["add"; "mul"; "sub"]
  ∧ NoDup (Map_Names nat map_to_list m)
  ∧ "mul" ∈ Map_Names nat map_to_list m
  ∧ Map_Assign nat m "mul" = Done None
  ∧ Map_Assign nat m "add" = Done (Some 1%nat).
Proof.
  intros m.
  destruct (Map_Names_lists_keys nat map_to_list m (reflexivity _))
    as (_ & Hnodup & _ & _ & Hfind & Hin).
  split; [vm_compute; reflexivity|]. split; [exact Hnodup|].
  split; [apply Hin; right; reflexivity|].
  split; [reflexivity|]. apply Hfind. reflexivity.
Defined.

(** The witness of X18: the service [math] with two methods. *)
Lemma ServiceMap_Names_lists_witness :
  let math : gmap string (option nat) :=
    {[ "sub" := Some 2%nat; "add" := Some 1%nat ]} in
  let m : gmap string (option (Service nat)) :=
    {[ "math" := Some (Map_Service nat map_to_list math) ]} in
  ∃ all, ServiceMap_Names nat map_to_list m = Done all
         ∧ StronglySorted string_le all
         ∧ "math.add" ∈ all.
Proof.
  intros math m.
  destruct (proj1 (ServiceMap_Names_lists nat map_to_list m (reflexivity _)))
    as (all & Hall & _ & Hsorted & Hin).
  - intros svc s Hs. apply lookup_singleton_Some in Hs as [_ <-].
    eexists _, _. split; reflexivity.
  - exists all. split; [exact Hall|]. split; [exact Hsorted|].
    apply Hin. eexists "math", _, _, "add".
    split; [reflexivity|]. split; [reflexivity|]. split; [|reflexivity].
    vm_compute. apply list_elem_of_here.
Defined.

(** The witness of X19: [math.add] has a handler and is listed,
    [math.mul] is listed with the nil handler. *)
Lemma Names_cover_Assign_witness :
  let math : gmap string (option nat) :=
    {[ "sub" := Some 2%nat; "add" := Some 1%nat; "mul" := None ]} in
  let m : gmap string (option (Service nat)) :=
    {[ "math" := Some (Map_Service nat map_to_list math) ]} in
  ∃ all, ServiceMap_Names nat map_to_list m = Done all
         ∧ "math.add" ∈ all
         ∧ "math.mul" ∈ all
         ∧ ServiceMap_Assign nat
             ((λ s : option (Service nat), assigner nat <$> s) <$> m)
             "math.mul"
           = Done None.
Proof.
  intros math m.
  destruct (Names_cover_Assign nat map_to_list map_to_list m (reflexivity _)
              (λ leaf, reflexivity _))
    as (all & Hall & Hin).
  - intros svc s Hs. apply lookup_singleton_Some in Hs as [<- <-].
    split; [reflexivity|]. eexists. reflexivity.
  - exists all. split; [exact Hall|]. split; [|split].
    + apply Hin. left. exists 1%nat. vm_compute. reflexivity.
    + apply Hin. right. exists "math", math, "mul".
      split; [reflexivity|]. split; [reflexivity|].
      split; vm_compute; reflexivity.
    + vm_compute. reflexivity.
Defined.

End AssignerMore.

(* ===================================================================== *)
(** * Further properties of the adapter and of the wrappers *)
(* ===================================================================== *)

Module HandlerMore.

Import jrpc2 handler fixtures notions.

(** ** The types the adapter takes *)

(** The parameters of a function type with two parameters: either both
    are fixed, or the second is the slice of a variadic one. *)
Lemma two_parameters ty a b :
  In ty = [a; b] →
  (Rest ty = None ∧ Params ty = [a; b])
  ∨ (∃ e, Rest ty = Some e ∧ Params ty = [a] ∧ b = Slice e).
Proof.
  unfold In. destruct (Rest ty) as [e|].
  - intros H. right. exists e.
    destruct (Params ty) as [|x [|y l]]; simpl in H; try done.
    + injection H as -> <-. done.
    + injection H as _ _ H. by destruct l.
  - rewrite app_nil_r. by left.
Qed.

Lemma one_parameter ty a :
  In ty = [a] → Variadic ty = false ∨ ∃ e, a = Slice e.
Proof.
  unfold In, Variadic. destruct (Rest ty) as [e|]; [|by left].
  intros H. right. exists e.
  destruct (Params ty) as [|x l]; simpl in H; [congruence|].
  injection H as _ H. by destruct l.
Qed.

Lemma Ptr_fresh t : Ptr t ≠ t.
Proof. induction t; congruence. Qed.

(** [checkFunctionType] on a function: it returns, with the signature
    information when the type is one the adapter takes, with an error
    when not. *)
Lemma checkFunctionType_cases ty impl :
  (accepted ty ∧ checkFunctionType (Fn ty impl) = Done (Ok (info_of ty)))
  ∨ (¬ accepted ty ∧ ∃ e, checkFunctionType (Fn ty impl) = Done (Err e)).
Proof.
  unfold checkFunctionType, accepted, info_of.
  destruct (In ty) as [|a [|b [|c l]]] eqn:Hin; simpl.
  - right. split; [|eauto]. by intros [[?|[? ?]] _].
  - destruct (Out ty) as [|y [|z [|w l']]] eqn:Hout; simpl.
    + right. split; [|eauto]. by intros [_ [? [?|?]]].
    + case_bool_decide as Ha; simpl.
      * injection Ha as ->. left.
        split; [split; [by left|exists y; by left]|].
        destruct (one_parameter ty ctxType Hin) as [->|[e ?]]; [|done].
        destruct (decide (y = errType)) as [->|Hy];
          [rewrite !bool_decide_true by done
          |rewrite !bool_decide_false by congruence]; done.
      * right. split; [|eauto]. intros [[?|[? ?]] _]; congruence.
    + case_bool_decide as Ha; simpl.
      * injection Ha as ->. case_bool_decide as Hz; simpl.
        -- injection Hz as ->. left.
           split; [split; [by left|exists y; by right]|].
           destruct (one_parameter ty ctxType Hin) as [->|[e ?]]; [|done].
           by rewrite (bool_decide_false ([y; errType] = [errType])).
        -- right. split; [|eauto]. intros [_ [? [?|?]]]; congruence.
      * right. split; [|eauto]. intros [[?|[? ?]] _]; congruence.
    + right. split; [|eauto]. by intros [_ [? [?|?]]].
  - destruct (Out ty) as [|y [|z [|w l']]] eqn:Hout; simpl.
    + right. split; [|eauto]. by intros [_ [? [?|?]]].
    + case_bool_decide as Ha; simpl.
      * injection Ha as ->. left.
        split; [split; [right; by exists b|exists y; by left]|].
        destruct (decide (y = errType)) as [->|Hy];
          [rewrite !bool_decide_true by done
          |rewrite !bool_decide_false by congruence]; done.
      * right. split; [|eauto]. intros [[?|[? ?]] _]; congruence.
    + case_bool_decide as Ha; simpl.
      * injection Ha as ->. case_bool_decide as Hz; simpl.
        -- injection Hz as ->. left.
           split; [split; [right; by exists b|exists y; by right]|].
           by rewrite (bool_decide_false ([y; errType] = [errType])).
        -- right. split; [|eauto]. intros [_ [? [?|?]]]; congruence.
      * right. split; [|eauto]. intros [[?|[? ?]] _]; congruence.
    + right. split; [|eauto]. by intros [_ [? [?|?]]].
  - right. split; [|eauto]. by intros [[?|[? ?]] _].
Qed.

(** X20.  [checkFunctionType] on a function never faults, and takes
    exactly the types whose first parameter is the context, that have at
    most one parameter more, and one result or two of which the second is
    an error.  For such a type the information it returns has the second
    parameter as the argument, if there is one, tells whether the function
    is variadic and whether its last result is an error, and has the first
    result as the result unless the function returns an error alone. *)
Theorem checkFunctionType_accepts ty impl :
  (∃ res, checkFunctionType (Fn ty impl) = Done res)
  ∧ ∀ info, checkFunctionType (Fn ty impl) = Done (Ok info)
            ↔ accepted ty ∧ info = info_of ty.
Proof.
  destruct (checkFunctionType_cases ty impl) as [[Hacc Hc]|[Hno [e Hc]]];
    rewrite Hc.
  - split; [eauto|]. intros info. split.
    + by intros [= <-].
    + by intros [_ ->].
  - split; [eauto|]. intros info. split; [done|]. by intros [? _].
Qed.

Section Adapter.

Variable UnmarshalParams : Request → rtype → result string.

Local Abbreviation newHandler := (newHandler UnmarshalParams).
Local Abbreviation newinput := (newinput UnmarshalParams).

Lemma handleType_accepted : accepted handleType.
Proof.
  split; [right; by exists reqType|]. exists anyType. by right.
Qed.

Lemma as_handle_Some fn f :
  as_handle fn = Some f → ∃ impl, fn = Fn handleType impl.
Proof.
  destruct fn as [| |ty impl]; simpl; try done.
  case_bool_decide as Hty; [|done]. subst ty. eauto.
Qed.

Lemma as_handle_other ty impl :
  ty ≠ handleType → as_handle (Fn ty impl) = None.
Proof. intros H. simpl. by rewrite bool_decide_false. Qed.

(** What [newHandler] makes of a function that does not have the
    signature of [Handle] itself. *)
Lemma newHandler_adapted ty impl f :
  as_handle (Fn ty impl) = None →
  newHandler (Fn ty impl) = Done (Ok f) →
  accepted ty
  ∧ f = λ r,
        match newinput (info_of ty) r with
        | Err ierr =>
            Done {| calls := []; value := VNil; failure := Some ierr |}
        | Ok rest =>
            Go.bind ((if Variadic ty then reflect_CallSlice else reflect_Call)
                       (Fn ty impl) (VCtx :: rest)) (λ received_vals,
            Go.bind (decodeOut (info_of ty) (snd received_vals)) (λ oe,
              Done {| calls := [fst received_vals]; value := fst oe;
                      failure := snd oe |}))
        end.
Proof.
  intros Hno. unfold handler.newHandler. rewrite Hno.
  destruct (checkFunctionType_cases ty impl) as [[Hacc Hc]|[_ [e Hc]]];
    rewrite Hc; simpl; [|done].
  by intros [= <-].
Qed.

(** X21.  [New] returns a handler for a function of a type that is
    taken, and panics for every other value: nil, a value that is not a
    function, a function of another type; [newHandler] reports an error
    for exactly these. *)
Theorem New_takes fn :
  ((∃ ty impl, fn = Fn ty impl ∧ accepted ty) →
   ∃ f, handler.New UnmarshalParams fn = Done f
        ∧ newHandler fn = Done (Ok f))
  ∧ (¬ (∃ ty impl, fn = Fn ty impl ∧ accepted ty) →
     handler.New UnmarshalParams fn = Panic
     ∧ ∃ e, newHandler fn = Done (Err e)).
Proof.
  unfold handler.New, handler.newHandler.
  destruct fn as [| |ty impl].
  - split; [by intros (? & ? & ? & _)|]. intros _. simpl. eauto.
  - split; [by intros (? & ? & ? & _)|]. intros _. simpl. eauto.
  - destruct (as_handle (Fn ty impl)) as [f|] eqn:Hh.
    + split; [intros _; simpl; eauto|].
      intros Hno. destruct Hno.
      apply as_handle_Some in Hh as [impl' [= -> _]].
      exists handleType, impl. split; [done|apply handleType_accepted].
    + destruct (checkFunctionType_cases ty impl)
        as [[Hacc Hc]|[Hno [e Hc]]]; rewrite Hc; simpl.
      * split; [eauto|]. intros Hno. destruct Hno. eauto.
      * split; [|eauto]. intros (ty' & impl' & [= <- _] & Hacc). done.
Qed.

Lemma newinput_error info r ierr :
  newinput info r = Err ierr →
  ∃ e, ierr = RPC e ∧ Code e = code.InvalidParams.
Proof.
  unfold handler.newinput. destruct (Argument info) as [t|].
  - case_bool_decide; [done|].
    destruct (UnmarshalParams r t) as [content|e].
    + by destruct (is_Ptr t).
    + intros [= <-]. eauto.
  - destruct (HasParams r); [|done]. intros [= <-]. eauto.
Qed.

Lemma decodeOut_error info vals v e :
  decodeOut info vals = Done (v, Some e) → v = VNil.
Proof.
  unfold decodeOut. destruct (Result info).
  - destruct (ReportsError info); simpl.
    + destruct (vals !! 0%nat); [|done]. destruct (vals !! 1%nat); [|done].
      destruct (as_error _) as [[e'|]| |]; simpl; try done.
      by intros [= <- _].
    + by destruct (vals !! 0%nat).
  - destruct (vals !! 0%nat); [|done].
    destruct (as_error _) as [e'| |]; simpl; try done.
    by intros [= <- _].
Qed.

(** X22.  A handler the adapter builds by reflection never reports a
    value together with an error: when it fails its value is nil.  It
    calls the function at most once, and when it returns without a call
    it fails with the code InvalidParams. *)
Theorem adapted_reply fn f r rep :
  as_handle fn = None →
  newHandler fn = Done (Ok f) →
  f r = Done rep →
  (is_Some (failure rep) → value rep = VNil)
  ∧ (length (calls rep) ≤ 1)%nat
  ∧ (calls rep = [] →
     ∃ e, failure rep = Some (RPC e) ∧ Code e = code.InvalidParams).
Proof.
  intros Hno Hnew Hf. destruct fn as [| |ty impl]; [done|done|].
  destruct (newHandler_adapted ty impl f Hno Hnew) as [_ ->].
  destruct (newinput (info_of ty) r) as [rest|ierr] eqn:Hin.
  - destruct ((if Variadic ty then reflect_CallSlice else reflect_Call)
                (Fn ty impl) (VCtx :: rest)) as [[received vals]| |];
      simpl in Hf; try done.
    destruct (decodeOut (info_of ty) vals) as [[v e]| |] eqn:Hd;
      simpl in Hf; try done.
    injection Hf as <-. simpl. split; [|split; [lia|done]].
    intros [e' ->]. by eapply decodeOut_error.
  - injection Hf as <-. simpl. split; [done|]. split; [lia|].
    intros _. destruct (newinput_error _ _ _ Hin) as (e & -> & He). eauto.
Qed.

(** X23.  A handler built from a function whose argument is a pointer
    reports InvalidParams, without a call, when the parameters do not
    decode; when they decode it faults, since what it passes is a pointer
    to the pointer the function takes. *)
Theorem pointer_argument_faults ty impl t f :
  In ty = [ctxType; Ptr t] →
  newHandler (Fn ty impl) = Done (Ok f) →
  ∀ r,
    (∀ e, UnmarshalParams r (Ptr t) = Err e →
          f r = Done {| calls := []; value := VNil;
                        failure :=
                          Some (RPC (Errorf code.InvalidParams
                                       "invalid parameters: %v" [text e])) |})
    ∧ (∀ content, UnmarshalParams r (Ptr t) = Ok content → f r = Panic).
Proof.
  intros Hin Hnew.
  destruct (two_parameters ty _ _ Hin) as [[Hrest Hparams]|(e & _ & _ & ?)];
    [|done].
  assert (as_handle (Fn ty impl) = None) as Hno.
  { apply as_handle_other. intros ->. discriminate Hparams. }
  destruct (newHandler_adapted ty impl f Hno Hnew) as [_ ->].
  intros r. unfold handler.newinput, info_of, Variadic. simpl.
  rewrite Hin, Hrest. simpl. rewrite ?Hrest, ?Hparams.
  split.
  - by intros e ->.
  - intros content ->. simpl. unfold well_typed, fits. simpl.
    by rewrite (bool_decide_false (Ptr (Ptr t) = Ptr t))
      by apply Ptr_fresh.
Qed.

(** X24.  A handler built from a function whose argument is not a
    pointer decodes the parameters into a value of the argument type,
    calls the function once with the context and that value, a variadic
    function getting the whole array as its slice, and returns what the
    results decode to; when the parameters do not decode it reports
    InvalidParams without a call. *)
Theorem value_argument_handler ty impl t f :
  In ty = [ctxType; t] →
  is_Ptr t = false →
  newHandler (Fn ty impl) = Done (Ok f) →
  ∀ r,
    f r = match UnmarshalParams r t with
          | Err e =>
              Done {| calls := []; value := VNil;
                      failure :=
                        Some (RPC (Errorf code.InvalidParams
                                     "invalid parameters: %v" [text e])) |}
          | Ok content =>
              Go.bind (decodeOut (info_of ty) (impl [VCtx; VData t content]))
                (λ oe, Done {| calls := [[VCtx; VData t content]];
                               value := fst oe; failure := snd oe |})
          end.
Proof.
  intros Hin Hptr Hnew.
  assert (t ≠ reqType) as Hreq by (by intros ->).
  assert (as_handle (Fn ty impl) = None) as Hno.
  { apply as_handle_other. intros ->. by injection Hin as <-. }
  destruct (newHandler_adapted ty impl f Hno Hnew) as [_ ->].
  intros r.
  assert (newinput (info_of ty) r
          = match UnmarshalParams r t with
            | Err e =>
                Err (RPC (Errorf code.InvalidParams "invalid parameters: %v"
                            [text e]))
            | Ok content => Ok [VData t content]
            end) as ->.
  { unfold handler.newinput, info_of. simpl. rewrite Hin. simpl.
    rewrite bool_decide_false by done.
    destruct (UnmarshalParams r t); [by rewrite Hptr|done]. }
  destruct (UnmarshalParams r t) as [content|e]; [|done].
  assert ((if Variadic ty then reflect_CallSlice else reflect_Call)
            (Fn ty impl) [VCtx; VData t content]
          = Done ([VCtx; VData t content], impl [VCtx; VData t content]))
    as ->; [|done].
  destruct (two_parameters ty _ _ Hin)
    as [[Hrest Hparams]|(e & Hrest & Hparams & ->)].
  - unfold Variadic. rewrite Hrest. unfold reflect_Call.
    rewrite Hrest, Hparams. unfold well_typed, fits. simpl.
    by rewrite (bool_decide_true (t = t)).
  - unfold Variadic. rewrite Hrest. unfold reflect_CallSlice, Variadic.
    rewrite Hrest, Hin. unfold well_typed, fits. simpl.
    by rewrite ?(bool_decide_true (Slice e = Slice e)).
Qed.

(** X25.  A handler built from a function that takes the request itself
    never decodes or checks the parameters: it calls the function once
    with the context and the request.  A function whose type is the
    function type literal of [Handle] is used as it is, and what it
    returns is returned, a value beside an error included.  Every other
    such function goes through the decoding of the adapter; among them is
    a function of a defined type with the signature of [Handle], as a
    [handler.Func] is, which does not pass the type assertion: a value it
    returns beside an error is dropped. *)
Theorem request_argument_handler ty impl f :
  In ty = [ctxType; reqType] →
  newHandler (Fn ty impl) = Done (Ok f) →
  ∀ r,
    (ty ≠ handleType →
       f r = Go.bind (decodeOut (info_of ty) (impl [VCtx; VReq r]))
               (λ oe, Done {| calls := [[VCtx; VReq r]];
                              value := fst oe; failure := snd oe |}))
    ∧ (ty = handleType →
       ∀ out oerr rest e,
         impl [VCtx; VReq r] = out :: oerr :: rest →
         as_error oerr = Done e →
         f r = Done {| calls := [[VCtx; VReq r]]; value := out;
                       failure := e |})
    ∧ (is_Some (TypeName ty) →
       Out ty = [anyType; errType] →
       ∀ out e rest,
         impl [VCtx; VReq r] = out :: VErr e :: rest →
         f r = Done {| calls := [[VCtx; VReq r]]; value := VNil;
                       failure := Some e |}).
Proof.
  intros Hin Hnew r.
  assert (ty ≠ handleType →
          f r = Go.bind (decodeOut (info_of ty) (impl [VCtx; VReq r]))
                  (λ oe, Done {| calls := [[VCtx; VReq r]];
                                 value := fst oe; failure := snd oe |}))
    as Hadapted.
  { intros Hty.
    pose proof (as_handle_other ty impl Hty) as Hno.
    destruct (newHandler_adapted ty impl f Hno Hnew) as [_ ->].
    unfold handler.newinput, info_of. simpl. rewrite Hin. simpl.
    destruct (two_parameters ty _ _ Hin) as [[Hrest Hparams]|(e & _ & _ & ?)];
      [|done].
    unfold Variadic. rewrite Hrest. unfold reflect_Call.
    by rewrite Hrest, Hparams. }
  split; [exact Hadapted|]. split.
  - intros -> out oerr rest e Himpl He.
    unfold handler.newHandler in Hnew. simpl in Hnew.
    injection Hnew as <-. rewrite Himpl. simpl. by rewrite He.
  - intros [name Hname] Hout out e rest Himpl.
    rewrite Hadapted by (intros ->; discriminate Hname).
    rewrite Himpl. unfold decodeOut, info_of. simpl. rewrite Hout. simpl.
    reflexivity.
Qed.

End Adapter.

(** The witness of X21: nil is refused, [func(context.Context, int) int]
    is taken. *)
Lemma New_takes_witness :
  let up : Request → rtype → result string := λ _ _, Ok "" in
  let ty := {| TypeName := None; Params := [ctxType; Named "int"]; Rest := None;
               Out := [Named "int"] |} in
  let impl : list rvalue → list rvalue := λ _, [VData (Named "int") "0"] in
  handler.New up NilFn = Panic
  ∧ ∃ f, handler.New up (Fn ty impl) = Done f.
Proof.
  intros up ty impl. split.
  - apply (proj2 (New_takes up NilFn)).
    intros (ty' & impl' & H & _). discriminate H.
  - destruct (proj1 (New_takes up (Fn ty impl))) as (f & Hf & _).
    + exists ty, impl. split; [reflexivity|].
      split; [right; eexists; reflexivity|eexists; left; reflexivity].
    + exists f. exact Hf.
Defined.

(** The witness of X22: a function that returns a value and an error. *)
Lemma adapted_reply_witness :
  let up : Request → rtype → result string := λ _ _, Ok "" in
  let ty := {| TypeName := None; Params := [ctxType]; Rest := None;
               Out := [Named "int"; errType] |} in
  let impl : list rvalue → list rvalue :=
    λ _, [VData (Named "int") "7"; VErr (Foreign "boom")] in
  ∃ f rep,
    handler.newHandler up (Fn ty impl) = Done (Ok f)
    ∧ f {| method := "answer"; req_params := "" |} = Done rep
    ∧ failure rep = Some (Foreign "boom")
    ∧ value rep = VNil.
Proof.
  intros up ty impl. eexists _, _.
  split; [reflexivity|]. split; [reflexivity|]. split; [reflexivity|].
  apply (proj1 (adapted_reply up (Fn ty impl) _
                  {| method := "answer"; req_params := "" |} _
                  eq_refl eq_refl eq_refl)).
  eexists. reflexivity.
Defined.

(** The witness of X23: [func(context.Context, *Point) error]. *)
Lemma pointer_argument_faults_witness :
  let up : Request → rtype → result string := λ r _, Ok (req_params r) in
  let ty := {| TypeName := None; Params := [ctxType; Ptr (Named "Point")]; Rest := None;
               Out := [errType] |} in
  let impl : list rvalue → list rvalue := λ _, [VNil] in
  ∃ f, handler.newHandler up (Fn ty impl) = Done (Ok f)
       ∧ f {| method := "move"; req_params := "{}" |} = Panic.
Proof.
  intros up ty impl. eexists. split; [reflexivity|].
  apply (proj2 (pointer_argument_faults up ty impl (Named "Point") _
                  eq_refl eq_refl {| method := "move"; req_params := "{}" |})
           "{}").
  reflexivity.
Defined.

(** The witness of X24: [func(context.Context, ...int) int]. *)
Lemma value_argument_handler_witness :
  let up : Request → rtype → result string := λ r _, Ok (req_params r) in
  let ty := {| TypeName := None; Params := [ctxType]; Rest := Some (Named "int");
               Out := [Named "int"] |} in
  let impl : list rvalue → list rvalue := λ _, [VData (Named "int") "3"] in
  ∃ f, handler.newHandler up (Fn ty impl) = Done (Ok f)
       ∧ f {| method := "sum"; req_params := "[1,2]" |}
         = Done {| calls := [[VCtx; VData (Slice (Named "int")) "[1,2]"]];
                   value := VData (Named "int") "3"; failure := None |}.
Proof.
  intros up ty impl. eexists. split; [reflexivity|].
  exact (value_argument_handler up ty impl (Slice (Named "int")) _
           eq_refl eq_refl eq_refl {| method := "sum"; req_params := "[1,2]" |}).
Defined.

(** The witness of X25: a function that returns a value beside its
    error, once of the function type literal of [Handle] and once of the
    defined type [Func]. *)
Lemma request_argument_handler_witness :
  let up : Request → rtype → result string := λ _ _, Err (Foreign "unused") in
  let impl : list rvalue → list rvalue :=
    λ _, [VData anyType "partial"; VErr (Foreign "boom")] in
  let Func_type := {| TypeName := Some "Func"; Params := [ctxType; reqType];
                      Rest := None; Out := [anyType; errType] |} in
  let r := {| method := "scan"; req_params := "17" |} in
  (∃ f, handler.newHandler up (Fn handleType impl) = Done (Ok f)
        ∧ f r = Done {| calls := [[VCtx; VReq r]];
                        value := VData anyType "partial";
                        failure := Some (Foreign "boom") |})
  ∧ (∃ f, handler.newHandler up (Fn Func_type impl) = Done (Ok f)
          ∧ f r = Done {| calls := [[VCtx; VReq r]]; value := VNil;
                          failure := Some (Foreign "boom") |}).
Proof.
  intros up impl Func_type r. split.
  - eexists. split; [reflexivity|].
    apply (proj1 (proj2 (request_argument_handler up handleType impl _
                           eq_refl eq_refl r))
             eq_refl (VData anyType "partial") (VErr (Foreign "boom")) []
             (Some (Foreign "boom")));
      reflexivity.
  - eexists. split; [reflexivity|].
    apply (proj2 (proj2 (request_argument_handler up Func_type impl _
                           eq_refl eq_refl r))
             (mk_is_Some _ _ eq_refl) eq_refl (VData anyType "partial")
             (Foreign "boom") []).
    reflexivity.
Defined.

(** ** The wrappers *)

Section Wrappers.

Variable Dest : Type.
Variable Mem : Type.
Variable Unmarshal_into : json.value → Dest → Mem → Mem * option error.
Variable Marshal_of : Dest → Mem → result json.value.

Local Abbreviation Args_range := (Args_range Dest Mem Unmarshal_into).
Local Abbreviation Args_UnmarshalJSON := (Args_UnmarshalJSON Dest Mem Unmarshal_into).
Local Abbreviation Args_MarshalJSON := (Args_MarshalJSON Dest Mem Marshal_of).
Local Abbreviation Marshal_elems := (Marshal_elems Dest Mem Marshal_of).
Local Abbreviation Obj_range := (Obj_range Dest Mem Unmarshal_into).
Local Abbreviation Obj_UnmarshalJSON := (Obj_UnmarshalJSON Dest Mem Unmarshal_into).
Local Abbreviation positional := (positional Dest Mem Unmarshal_into).

Lemma Args_range_fails d elt m1 m2 e k :
  ∀ done a elts m,
    positional (take k a) (take k elts) m m1 →
    a !! k = Some (Some d) →
    elts !! k = Some elt →
    Unmarshal_into elt d m1 = (m2, Some e) →
    Args_range (done ++ a) (length done) elts m
    = Done (m2, Some (Errorf_w "decoding argument %d: %w"
                        [Go.FormatInt (Z.of_nat (length done + k) + 1)] e)).
Proof.
  induction k as [|k IH]; intros done a elts m Hpos Ha Helt Hd.
  - destruct a as [|x a]; [done|]. destruct elts as [|y elts]; [done|].
    simpl in *. injection Ha as ->. injection Helt as ->.
    inversion Hpos; subst.
    rewrite list_lookup_middle by done. rewrite Hd.
    by rewrite Nat.add_0_r.
  - destruct a as [|x a]; [done|]. destruct elts as [|y elts]; [done|].
    simpl in Ha, Helt, Hpos. simpl.
    rewrite list_lookup_middle by done.
    destruct (HandlerSpec.shift_middle done x a) as [-> Hlen].
    replace (length done + S k)%nat with (length (done ++ [x]) + k)%nat
      by (rewrite <- Hlen; lia).
    inversion Hpos; subst.
    + rewrite Hlen. by apply IH.
    + match goal with H : Unmarshal_into y _ m = _ |- _ => rewrite H end.
      rewrite Hlen. by apply IH.
Qed.

(** X26.  When the elements before position [k] unmarshal and the one at
    [k] does not, unmarshaling into an [Args] reports the error of that
    element, wrapped and with the position counted from 1; what the
    earlier elements, and the failed one, have written to the memory
    stays written. *)
Theorem Args_first_failure a elts (k : nat) d elt m m1 m2 e :
  length elts = length a →
  positional (take k a) (take k elts) m m1 →
  a !! k = Some (Some d) →
  elts !! k = Some elt →
  Unmarshal_into elt d m1 = (m2, Some e) →
  Args_UnmarshalJSON a (Some (json.Array elts)) m
  = Done (m2, Some (Wrap (Go.Sprintf "decoding argument %d: %w"
                            [Go.FormatInt (Z.of_nat k + 1); text e]) e)).
Proof.
  intros Hlen Hpos Ha Helt Hd. unfold handler.Args_UnmarshalJSON. simpl.
  rewrite bool_decide_true by done. simpl.
  exact (Args_range_fails d elt m1 m2 e k [] a elts m Hpos Ha Helt Hd).
Qed.

(** X27.  Marshaling an [Args] succeeds exactly when each element that
    is not nil marshals, and gives the array of the elements' values in
    order, with [null] for a nil element and [[]] for no elements; when it
    fails it reports the error of the first element that does not
    marshal. *)
Theorem Args_MarshalJSON_elements a m :
  (∀ bits,
     Args_MarshalJSON a m = Ok bits
     ↔ ∃ vs, Forall2 (λ d v, match d with
                             | Some d' => Marshal_of d' m = Ok v
                             | None => v = json.Null
                             end) a vs
             ∧ bits = json.encode (json.Array vs))
  ∧ (∀ e,
       Args_MarshalJSON a m = Err e
       ↔ ∃ k d, a !! k = Some (Some d) ∧ Marshal_of d m = Err e
                ∧ ∀ j d', (j < k)%nat → a !! j = Some (Some d') →
                          ∃ v, Marshal_of d' m = Ok v).
Proof.
  unfold handler.Args_MarshalJSON. split.
  - intros bits. case_bool_decide as Hlen.
    + destruct a; [|done]. split.
      * intros [= <-]. exists []. split; [constructor|done].
      * intros (vs & Hvs & ->). by inversion Hvs.
    + split.
      * destruct (Marshal_elems a m) as [vs|] eqn:Hvs; [|done].
        intros [= <-]. exists vs. split; [|done].
        by apply HandlerSpec.Marshal_elems_Ok.
      * intros (vs & Hvs & ->). apply HandlerSpec.Marshal_elems_Ok in Hvs.
        by rewrite Hvs.
  - intros e. rewrite <- HandlerSpec.Marshal_elems_Err.
    case_bool_decide as Hlen.
    + by destruct a.
    + destruct (Marshal_elems a m) as [vs|e']; [done|].
      split; by intros [= ->].
Qed.

Lemma Obj_range_nil o key members :
  ∀ m,
    o !! key = Some None →
    (∃ val, (key, val) ∈ members) →
    (∃ m' e, Obj_range o members m = (m', Some e))
    ∧ ((∀ k v, (k, v) ∈ members → k ≠ key → o !! k = None) →
       Obj_range o members m
       = (m, Some (Errorf_v "decoding %q: %v" [key]
                     (JSON json.InvalidUnmarshalError)))).
Proof.
  induction members as [|[k v] rest IH]; intros m Hkey [val Hin].
  - by apply elem_of_nil in Hin.
  - simpl. destruct (decide (k = key)) as [->|Hne].
    + rewrite Hkey. simpl. split; [eauto|done].
    + assert (∃ val, (key, val) ∈ rest) as Hrest.
      { exists val. apply elem_of_cons in Hin as [[= ? _]|?]; [congruence|done]. }
      split.
      * destruct (o !! k) as [arg|]; [|by apply IH].
        destruct (Unmarshal Dest Mem Unmarshal_into v arg m) as [m' [e|]];
          [eauto|by apply IH].
      * intros Hother. rewrite (Hother k v) by (done || apply list_elem_of_here).
        apply IH; [done|done|].
        intros k' v' Hin'. apply (Hother k' v').
        by apply list_elem_of_further.
Qed.

(** X28.  A key of the JSON object that an [Obj] maps to a nil
    destination makes unmarshaling fail, whatever order the members are
    visited in (an [Args] passes over a nil destination); when no other
    key of the object is in the [Obj], the error names that key and the
    memory is as it was. *)
Theorem Obj_nil_destination
    (order : gmap string json.value → list (string * json.value))
    (o : gmap string (option Dest)) key val members (m : Mem) :
  (∀ base, order base ≡ₚ map_to_list base) →
  json.members_map members !! key = Some val →
  o !! key = Some None →
  (∃ m' e, Obj_UnmarshalJSON order o (Some (json.Object members)) m
           = (m', Some e))
  ∧ ((∀ k v, json.members_map members !! k = Some v → k ≠ key →
             o !! k = None) →
     Obj_UnmarshalJSON order o (Some (json.Object members)) m
     = (m, Some (Errorf_v "decoding %q: %v" [key]
                   (JSON json.InvalidUnmarshalError)))).
Proof.
  intros Horder Hval Hkey. unfold handler.Obj_UnmarshalJSON. simpl.
  assert (∃ val, (key, val) ∈ order (json.members_map members)) as Hin.
  { exists val. rewrite Horder. by apply elem_of_map_to_list. }
  destruct (Obj_range_nil o key _ m Hkey Hin) as [Hfail Honly].
  split; [done|]. intros Hother. apply Honly.
  intros k v Hkv. apply (Hother k v). apply elem_of_map_to_list.
  by rewrite <- Horder.
Qed.

End Wrappers.

(** The witness of X26: the second of two integers is a string; the
    first has been stored. *)
Lemma Args_first_failure_witness :
  let a := [Some 0%nat; Some 1%nat] in
  let m := [IntCell 0; IntCell 0] in
  ∃ e, Args_UnmarshalJSON nat (list cell) store_cell a
         (Some (json.Array [json.Number 7; json.Str "x"])) m
       = Done ([IntCell 7; IntCell 0],
               Some (Wrap (Go.Sprintf "decoding argument %d: %w" ["2"; text e])
                       e)).
Proof.
  intros a m. eexists.
  apply (Args_first_failure nat (list cell) store_cell a
           [json.Number 7; json.Str "x"] 1 1%nat (json.Str "x") m
           [IntCell 7; IntCell 0] [IntCell 7; IntCell 0]);
    try reflexivity.
  simpl. eapply positional_store; [reflexivity|]. apply positional_nil.
Defined.

(** The witness of X27: a cell, a nil element, and a missing cell. *)
Lemma Args_MarshalJSON_elements_witness :
  let m := [IntCell 7] in
  Args_MarshalJSON nat (list cell) load_cell [Some 0%nat; None] m
  = Ok "[7,null]"
  ∧ Args_MarshalJSON nat (list cell) load_cell [Some 0%nat; Some 5%nat] m
    = Err (JSON json.UnsupportedTypeError).
Proof.
  intros m. split.
  - apply (proj1 (Args_MarshalJSON_elements nat (list cell) load_cell _ m)).
    exists [json.Number 7; json.Null]. split; [|reflexivity].
    repeat constructor.
  - apply (proj2 (Args_MarshalJSON_elements nat (list cell) load_cell _ m)).
    exists 1%nat, 5%nat. split; [reflexivity|]. split; [reflexivity|].
    intros [|j] d' Hlt Hd'; [|lia].
    injection Hd' as <-. eexists. reflexivity.
Defined.

(** The witness of X28: the key [x] is mapped to nil. *)
Lemma Obj_nil_destination_witness :
  let o : gmap string (option nat) := {[ "x" := None ]} in
  Obj_UnmarshalJSON nat (list cell) store_cell map_to_list o
    (Some (json.Object [("x", json.Number 5); ("y", json.Number 6)]))
    [IntCell 0]
  = ([IntCell 0],
     Some (Errorf_v "decoding %q: %v" ["x"] (JSON json.InvalidUnmarshalError))).
Proof.
  intros o.
  apply (proj2 (Obj_nil_destination nat (list cell) store_cell map_to_list o
                  "x" (json.Number 5)
                  [("x", json.Number 5); ("y", json.Number 6)] [IntCell 0]
                  (λ base, reflexivity (map_to_list base))
                  eq_refl eq_refl)).
  intros k v Hk Hne. apply lookup_singleton_None. congruence.
Defined.

End HandlerMore.

(* ===================================================================== *)
(** * Properties of the error values *)
(* ===================================================================== *)

Module ErrorMore.

Import jrpc2.

(** X29.  [WithData] never changes the code or the message of an error,
    so neither its [ErrCode], the code [code.FromError] finds, nor its
    text; data that marshals becomes the data of the copy, replacing data
    attached before, and with nil or with a value that does not marshal
    the error is returned as it is. *)
Theorem WithData_keeps (e : Error) (v : params) :
  Code (WithData e v) = Code e
  ∧ Message (WithData e v) = Message e
  ∧ ErrCode (WithData e v) = ErrCode e
  ∧ code_FromError (RPC (WithData e v)) = code_FromError (RPC e)
  ∧ Error_text (WithData e v) = Error_text e
  ∧ (∀ bits, v = Marshals bits → Data (WithData e v) = bits)
  ∧ (v = NoParams ∨ (∃ cause, v = Unmarshalable cause) → WithData e v = e)
  ∧ (∀ bits, WithData (WithData e v) (Marshals bits)
             = WithData e (Marshals bits)).
Proof.
  destruct v as [|bits|cause]; simpl; unfold Error_text; simpl;
    repeat split; try done.
  - by intros bits' [= ->].
  - intros [?|[? ?]]; done.
Qed.

(** The witness of X29: data attached to the error of an empty batch. *)
Lemma WithData_keeps_witness :
  Data (WithData errEmptyBatch (Marshals "{}")) = "{}"
  ∧ WithData errEmptyBatch NoParams = errEmptyBatch.
Proof.
  destruct (WithData_keeps errEmptyBatch (Marshals "{}"))
    as (_ & _ & _ & _ & _ & Hdata & _).
  destruct (WithData_keeps errEmptyBatch NoParams)
    as (_ & _ & _ & _ & _ & _ & Hnil & _).
  split; [by apply Hdata|]. apply Hnil. by left.
Defined.

End ErrorMore.
